(** * aba: an OT grammar for morphological exponence

    A shallow embedding of [aba.py], [nform.py] and [vform.py]:
    the containment order on morphological forms, the path finder
    and the ABA detector, the Max/Dep constraints, OT Eval, the winner
    partition and the vocabulary/ranking search.

    Conventions of the embedding.
    - A feature value is a Python [frozenset] of strings: [gset string].
    - A form is an instance of one of the two subclasses of [MorphForm]
      that the repository defines, [NForm] and [VForm].
    - A Python exception is [None] in the [option] monad.
    - The unbounded [while True] loop of [getPaths] takes fuel; running
      out of fuel is [None] as well. *)

From Stdlib Require Import ZArith String Ascii.
From stdpp Require Import base option list gmap strings sorting.

Local Open Scope string_scope.
Local Open Scope list_scope.
Local Open Scope Z_scope.

(** ** Feature values *)

(** [FeatureValue: TypeAlias = set[str]] *)
Abbreviation FeatureValue := (gset string).

Definition fs (l : list string) : FeatureValue := list_to_set l.

(** ** The two concrete classes of forms *)

Inductive FormClass := NFormClass | VFormClass.

#[global] Instance FormClass_eq_dec : EqDecision FormClass.
Proof. solve_decision. Defined.

(** An [NForm] object has the attributes [number], [case], [gender];
    a [VForm] object has [number], [person]. *)
Inductive MorphForm :=
| NForm (number case gender : FeatureValue)
| VForm (number person : FeatureValue).

#[global] Instance MorphForm_eq_dec : EqDecision MorphForm.
Proof. solve_decision. Defined.

Definition type_of (f : MorphForm) : FormClass :=
  match f with
  | NForm _ _ _ => NFormClass
  | VForm _ _ => VFormClass
  end.

(** [valuesList]: [[self.number, self.case, self.gender]] for [NForm],
    [[self.number, self.person]] for [VForm]. *)
Definition valuesList (f : MorphForm) : list FeatureValue :=
  match f with
  | NForm n c g => [n; c; g]
  | VForm n p => [n; p]
  end.

Definition getValues (f : MorphForm) : list FeatureValue := valuesList f.

(** [__eq__]: the lists of values when the two types agree, and [None]
    (which is falsy wherever the code tests it) otherwise. *)
Definition form_eq (self other : MorphForm) : bool :=
  if decide (type_of self = type_of other)
  then bool_decide (getValues self = getValues other)
  else false.

(** [t[0].issuperset(t[1])] *)
Definition issuperset (a b : FeatureValue) : bool := bool_decide (b ⊆ a).

(** [MorphForm.contains].  The guard of the [raise] compares
    [type(self)] with [type(self)], as the source does. *)
Definition contains (self other : MorphForm) : option bool :=
  if form_eq self other then Some false
  else if negb (bool_decide (type_of self = type_of self)) then None
  else Some (forallb (λ t, issuperset t.1 t.2)
                     (zip (getValues self) (getValues other))).

(** The value [contains] returns; see [contains_returns]. *)
Definition containsb (self other : MorphForm) : bool :=
  negb (form_eq self other)
  && forallb (λ t, issuperset t.1 t.2)
             (zip (getValues self) (getValues other)).

(** [__lt__] *)
Definition form_lt (self other : MorphForm) : bool := containsb other self.

(** [containment] *)
Definition containment (self other : MorphForm) : bool :=
  containsb self other || containsb other self.

(** ** Special immediate containment *)

(** [special_imm_contains_dict]: empty for [NForm]; for [VForm] the
    values of "auth" and "addr" map to the list holding the empty set. *)
Definition special_imm_contains_dict (c : FormClass)
  : list (FeatureValue * list FeatureValue) :=
  match c with
  | NFormClass => []
  | VFormClass => [(fs ["part"; "auth"], [fs []]);
                   (fs ["part"; "addr"], [fs []])]
  end.

(** Lookup in a Python dict written as an association list. *)
Fixpoint dict_get {K V} `{EqDecision K} (d : list (K * V)) (k : K) : option V :=
  match d with
  | [] => None
  | (k', v) :: d' => if decide (k' = k) then Some v else dict_get d' k
  end.

Definition specialImmediateContainsValue (self : MorphForm)
    (value : FeatureValue) : list FeatureValue :=
  let dic := special_imm_contains_dict (type_of self) in
  if (length dic =? 0)%nat then []
  else match dict_get dic value with
       | Some l => l
       | None => []
       end.

Definition getSpecialImmediateContainsValue := specialImmediateContainsValue.

(** [x in l] for a list [l] *)
Definition list_in {A} `{EqDecision A} (x : A) (l : list A) : bool :=
  bool_decide (x ∈ l).

(** The loop of [nonImmediateContains] that adds up [diffs]. *)
Definition diffs_of (self other : MorphForm) : Z :=
  foldl (λ diffs t,
           if list_in t.2 (getSpecialImmediateContainsValue self t.1)
           then diffs + 1
           else diffs + Z.of_nat (size (t.1 ∖ t.2)))
        0 (zip (getValues self) (getValues other)).

Definition nonImmediateContains (self other : MorphForm) : bool :=
  if negb (containsb self other) then false
  else diffs_of self other >? 1.

Definition nonImmediateContainment (self other : MorphForm) : bool :=
  nonImmediateContains self other || nonImmediateContains other self.

Definition immediateContains (self other : MorphForm) : bool :=
  containsb self other && negb (nonImmediateContains self other).

Definition immediateContainment (self other : MorphForm) : bool :=
  immediateContains self other || immediateContains other self.

Definition isBetween (self form1 form2 : MorphForm) : bool :=
  (containsb self form1 && containsb form2 self)
  || (containsb self form2 && containsb form1 self).

(** ** Construction of forms from value tokens *)

(** What [wellFormedArgs] can find in [*argv]: a token, or a whole
    tuple of tokens passed as one argument. *)
Inductive PyArg :=
| AStr (s : string)
| ATuple (t : list string).

#[global] Instance PyArg_eq_dec : EqDecision PyArg.
Proof. solve_decision. Defined.

Definition is_zero (a : PyArg) : bool := bool_decide (a = AStr "zero").

(** [wellFormedArgs(group_vals, *argv)].  [mem a val_list] is the test
    [a in val_list] for the kind of container that [group_vals] holds.
    The three nested [for] loops return [False] at the first triple
    that satisfies the condition, and [True] when there is none. *)
Definition wellFormedArgs {G} (mem : PyArg → G → bool)
    (group_vals : list G) (argv : list PyArg) : bool :=
  if (length argv =? 1)%nat then true
  else negb (existsb (λ a,
               existsb (λ b,
                 existsb (λ val_list,
                   negb (is_zero a) && negb (is_zero b)
                   && negb (bool_decide (a = b))
                   && mem a val_list && mem b val_list)
                 group_vals) argv) argv).

(** [a in val_list] when [val_list] is a set of strings: a tuple is
    never a member. *)
Definition mem_set (a : PyArg) (val_list : gset string) : bool :=
  match a with
  | AStr s => bool_decide (s ∈ val_list)
  | ATuple _ => false
  end.

(** [a in val_list] when [val_list] is itself a string: the substring
    test.  (For a tuple [a] Python raises; [VForm.__init__], the only
    caller with such containers, passes no [*argv] at all.) *)
Definition mem_str (a : PyArg) (val_list : string) : bool :=
  match a with
  | AStr s => bool_decide (is_Some (index 0 s val_list))
  | ATuple _ => false
  end.

(** The class attributes that the constructors and the search read. *)
Definition all_values (c : FormClass) : list string :=
  match c with
  | NFormClass =>
      ["zero"; "sg"; "pl"; "nom"; "acc"; "dat"; "neu"; "mas"; "fem"]
  | VFormClass => ["zero"; "pl"; "part"; "auth"; "addr"]
  end.

Definition string_to_val_dict (c : FormClass) : list (string * FeatureValue) :=
  match c with
  | NFormClass =>
      [("zero", fs []); ("sg", fs ["sg"]); ("pl", fs ["sg"; "pl"]);
       ("nom", fs ["nom"]); ("acc", fs ["nom"; "acc"]);
       ("dat", fs ["nom"; "acc"; "dat"]);
       ("neu", fs ["neu"]); ("mas", fs ["neu"; "mas"]);
       ("fem", fs ["neu"; "mas"; "fem"])]
  | VFormClass =>
      [("zero", fs []); ("part", fs ["part"]); ("auth", fs ["part"; "auth"]);
       ("addr", fs ["part"; "addr"]); ("pl", fs ["pl"])]
  end.

(** [feature_val_dict]: feature name to the set of its tokens, in the
    order in which the source writes both. *)
Definition feature_val_dict (c : FormClass) : list (string * list string) :=
  match c with
  | NFormClass =>
      [("Number", ["zero"; "sg"; "pl"]);
       ("Case", ["zero"; "nom"; "acc"; "dat"]);
       ("Gender", ["zero"; "neu"; "mas"; "fem"])]
  | VFormClass =>
      [("Person", ["zero"; "part"; "auth"; "addr"]);
       ("Number", ["zero"; "pl"])]
  end.

(** [grouped_values = [val_set for val_set in feature_val_dict.values()]] *)
Definition grouped_values (c : FormClass) : list (gset string) :=
  (λ kv, fs kv.2) <$> feature_val_dict c.

(** [[v for v in argv if v in feat_val_dic.get(feature) and not v == 'zero']] *)
Definition tokens_of (c : FormClass) (feature : string) (argv : list string)
  : list string :=
  filter (λ v, v ∈ default [] (dict_get (feature_val_dict c) feature)
               ∧ v ≠ "zero") argv.

(** [str_val_dic.get(toks[0])] when [toks] is not empty, [frozenset()]
    otherwise.  Every token that reaches this point is a key of the
    dictionary. *)
Definition value_of (c : FormClass) (toks : list string) : FeatureValue :=
  match toks with
  | t :: _ => default ∅ (dict_get (string_to_val_dict c) t)
  | [] => ∅
  end.

(** [NForm.__init__(self, *argv)]; [None] is a raised exception. *)
Definition NForm_init (argv : list string) : option MorphForm :=
  if (3 <? length argv)%nat then None
  else if negb (forallb (λ v, list_in v (all_values NFormClass)) argv)
  then None
  else if negb (wellFormedArgs mem_set (grouped_values NFormClass)
                               [ATuple argv]) then None
  else Some (NForm (value_of NFormClass (tokens_of NFormClass "Number" argv))
                   (value_of NFormClass (tokens_of NFormClass "Case" argv))
                   (value_of NFormClass (tokens_of NFormClass "Gender" argv))).

(** [VForm.__init__(self, *argv)]: here [argv] itself is passed as
    [group_vals], and [*argv] of [wellFormedArgs] is empty. *)
Definition VForm_init (argv : list string) : option MorphForm :=
  if (2 <? length argv)%nat then None
  else if negb (forallb (λ v, list_in v (all_values VFormClass)) argv)
  then None
  else if negb (wellFormedArgs mem_str argv []) then None
  else Some (VForm (value_of VFormClass (tokens_of VFormClass "Number" argv))
                   (value_of VFormClass (tokens_of VFormClass "Person" argv))).

(** [type_of_form] called on the tokens of [f] *)
Definition construct (c : FormClass) (argv : list string) : option MorphForm :=
  match c with
  | NFormClass => NForm_init argv
  | VFormClass => VForm_init argv
  end.

(** ** Rendering and item access *)

Definition val_to_string_dict (c : FormClass) : list (FeatureValue * string) :=
  match c with
  | NFormClass =>
      [(fs [], "∅"); (fs ["sg"], "sg"); (fs ["sg"; "pl"], "pl");
       (fs ["nom"], "nom"); (fs ["nom"; "acc"], "acc");
       (fs ["nom"; "acc"; "dat"], "dat");
       (fs ["neu"; "mas"; "fem"], "fem"); (fs ["neu"; "mas"], "mas");
       (fs ["neu"], "neu")]
  | VFormClass =>
      [(fs [], "âˆ…"); (fs ["pl"], "pl"); (fs ["part"], "part");
       (fs ["part"; "auth"], "auth"); (fs ["part"; "addr"], "addr")]
  end.

(** What an f-string prints for [val_str_dic.get(v)]. *)
Definition show_val (c : FormClass) (v : FeatureValue) : string :=
  default "None" (dict_get (val_to_string_dict c) v).

(** [__repr__] (and [__str__]) *)
Definition repr (f : MorphForm) : string :=
  match f with
  | NForm n c g =>
      show_val NFormClass n +:+ "." +:+ show_val NFormClass c
        +:+ "." +:+ show_val NFormClass g
  | VForm n p => show_val VFormClass n +:+ "." +:+ show_val VFormClass p
  end.

Fixpoint join_with (sep : string) (l : list string) : string :=
  match l with
  | [] => ""
  | [x] => x
  | x :: l' => x +:+ sep +:+ join_with sep l'
  end.

(** [str(v)] for a list [v] of forms *)
Definition str_list (v : list MorphForm) : string :=
  "[" +:+ join_with ", " (repr <$> v) +:+ "]".

(** The result of [form[key]]: a feature value, or Python's [None]. *)
Inductive PyVal :=
| PyNone
| PySet (v : FeatureValue).

(** [__getitem__] *)
Definition getitem (f : MorphForm) (key : string) : PyVal :=
  match f with
  | NForm n c g =>
      if decide (key = "Case") then PySet c
      else if decide (key = "Number") then PySet n
      else if decide (key = "Gender") then PySet g
      else PyNone
  | VForm n p =>
      if decide (key = "Number") then PySet n
      else if decide (key = "Person") then PySet p
      else PyNone
  end.

(** ** Orders that Python leaves to the runtime *)

(** [list(set(l))] and iteration over a set visit every distinct
    element once, in an order that depends on hashes.  The embedding
    takes that order as a parameter. *)
Class PySetOrder := {
  list_of_set : ∀ {A} `{EqDecision A}, list A → list A;
  list_of_set_perm : ∀ {A} `{EqDecision A} (l : list A),
      list_of_set l ≡ₚ remove_dups l
}.

(** One such order: that of first occurrence. *)
Definition first_seen_order : PySetOrder :=
  {| list_of_set := @remove_dups;
     list_of_set_perm := λ A _ l, reflexivity (remove_dups l) |}.

(** ** Bottom and top of a list of forms *)

(** [min(forms)] keeps the first item and replaces it by every later
    item that is [<] it; [max(forms)] replaces it by every later item
    that is [>] it, which Python answers with the reflected [__lt__]. *)
Definition py_min (first : MorphForm) (rest : list MorphForm) : MorphForm :=
  foldl (λ cur item, if form_lt item cur then item else cur) first rest.

Definition py_max (first : MorphForm) (rest : list MorphForm) : MorphForm :=
  foldl (λ cur item, if form_lt cur item then item else cur) first rest.

Definition getBottom (forms : list MorphForm) : list MorphForm :=
  match forms with
  | [] => []
  | x :: rest => filter (λ y, form_eq y (py_min x rest)) forms
  end.

Definition getTop (forms : list MorphForm) : list MorphForm :=
  match forms with
  | [] => []
  | x :: rest => filter (λ y, form_eq y (py_max x rest)) forms
  end.

(** ** Paths between two forms *)

(** An item of the list that [getPaths] returns. *)
Inductive PathItem :=
| ItemForm (f : MorphForm)
| ItemPath (p : list MorphForm).

#[global] Instance PathItem_eq_dec : EqDecision PathItem.
Proof. solve_decision. Defined.

Section getPaths.
Context `{PySetOrder}.

(** The inner function [getExtensions]; [path[-1]] raises on an
    empty path. *)
Definition getExtensions (path : list MorphForm) (top : MorphForm)
    (forms : list MorphForm) : option (list (list MorphForm)) :=
  lst ← last path;
  let exts := filter (λ f, immediateContains f lst && containsb top f) forms in
  Some ((λ e, path ++ [e]) <$> exts).

(** One round of the [while] loop: the list [extended]. *)
Definition extend_paths (top : MorphForm) (domain : list MorphForm)
    (paths_traversed : list (list MorphForm))
  : option (list (list MorphForm)) :=
  exts ← mapM (λ p, lst ← last p;
                    if containsb top lst
                    then getExtensions p top domain
                    else Some []) paths_traversed;
  Some (concat exts).

(** The [while True] loop, with fuel. *)
Fixpoint getPaths_loop (fuel : nat) (top : MorphForm)
    (domain : list MorphForm) (paths_traversed : list (list MorphForm))
  : option (list (list MorphForm)) :=
  match fuel with
  | O => None
  | S fuel' =>
      extended ← extend_paths top domain paths_traversed;
      if bool_decide (extended = paths_traversed)
         || (length extended =? 0)%nat
      then Some paths_traversed
      else getPaths_loop fuel' top domain extended
  end.

Definition getPaths (fuel : nat) (form1 form2 : MorphForm)
    (list_of_forms : list MorphForm) : option (list PathItem) :=
  if negb (containment form1 form2) then Some []
  else
    let domain :=
      list_of_set (filter (λ f, isBetween f form1 form2) list_of_forms
                   ++ [form1; form2]) in
    bottom ← head (getBottom [form1; form2]);
    top ← head (getTop [form1; form2]);
    if immediateContainment form1 form2
    then Some [ItemForm bottom; ItemForm top]
    else
      paths_traversed ← getPaths_loop fuel top domain [[bottom]];
      if bool_decide (paths_traversed = [[bottom]]) then Some []
      else Some ((λ p, ItemPath (tail p)) <$> paths_traversed).

(** ** Bad cells and ABA *)

(** [containment_pairs]: all [(f, g)] with [g.nonImmediateContains(f)],
    [f] in the outer loop. *)
Definition containment_pairs (cell : list MorphForm)
  : list (MorphForm * MorphForm) :=
  f ← cell; g ← cell;
  if nonImmediateContains g f then [(f, g)] else [].

Fixpoint isBadCell_loop (fuel : nat) (cell : list MorphForm)
    (pairs : list (MorphForm * MorphForm)) : option bool :=
  match pairs with
  | [] => Some false
  | p :: pairs' =>
      paths ← getPaths fuel p.1 p.2 cell;
      if (length paths =? 0)%nat then Some true
      else isBadCell_loop fuel cell pairs'
  end.

Definition isBadCell (fuel : nat) (cell : list MorphForm) : option bool :=
  isBadCell_loop fuel cell (containment_pairs cell).

(** [isAba]: the loop leaves at the first cell with more than one
    member. *)
Fixpoint isAba (fuel : nat) (partition : list (list MorphForm))
  : option bool :=
  match partition with
  | [] => Some false
  | cell :: rest =>
      if (1 <? length cell)%nat then isBadCell fuel cell
      else isAba fuel rest
  end.
End getPaths.

(** The paths that the loop of [getPaths] builds: [bottom], followed
    by members of [domain] below [top], each of which immediately
    contains the one before. *)
Inductive chain_from (top : MorphForm) (domain : list MorphForm)
    (bottom : MorphForm) : list MorphForm → Prop :=
| chain_start : chain_from top domain bottom [bottom]
| chain_step p lst e :
    chain_from top domain bottom p →
    last p = Some lst →
    e ∈ domain →
    immediateContains e lst = true →
    containsb top e = true →
    chain_from top domain bottom (p ++ [e]).

(** ** Constraints *)

(** [DepSubroutine]; with [None] for either argument the method call
    raises. *)
Definition DepSubroutine (ur_value sr_value : PyVal) : option Z :=
  match ur_value, sr_value with
  | PySet u, PySet s => Some (Z.of_nat (size ((u ∪ s) ∖ u)))
  | _, _ => None
  end.

(** [MaxSubroutine] *)
Definition MaxSubroutine (ur_value sr_value : PyVal) : option Z :=
  match ur_value, sr_value with
  | PySet u, PySet s => Some (Z.of_nat (size ((u ∪ s) ∖ s)))
  | _, _ => None
  end.

(** [sum(form_score)], where [form_score] collects [constr(ur[i], form[i])]
    for [i] in [features]. *)
Definition total_score (constr : PyVal → PyVal → option Z)
    (features : list string) (ur form : MorphForm) : option Z :=
  form_score ← mapM (λ i, constr (getitem ur i) (getitem form i)) features;
  Some (foldl Z.add 0 form_score).

(** The [for form in candidates] loop of [DepOrMax], from the state
    [(best_so_far, winners)]. *)
Fixpoint DepOrMax_loop (constr : PyVal → PyVal → option Z)
    (features : list string) (ur : MorphForm) (candidates : list MorphForm)
    (best_so_far : option Z) (winners : list MorphForm)
  : option (list MorphForm) :=
  match candidates with
  | [] => Some winners
  | form :: rest =>
      score ← total_score constr features ur form;
      match best_so_far with
      | None =>
          DepOrMax_loop constr features ur rest (Some score) (winners ++ [form])
      | Some best =>
          if score >? best
          then DepOrMax_loop constr features ur rest best_so_far winners
          else if score =? best
          then DepOrMax_loop constr features ur rest best_so_far
                             (winners ++ [form])
          else DepOrMax_loop constr features ur rest (Some score) [form]
      end
  end.

Definition DepOrMax (constr : PyVal → PyVal → option Z)
    (features : list string) (ur : MorphForm) (candidates : list MorphForm)
  : option (list MorphForm) :=
  DepOrMax_loop constr features ur candidates None [].

(** A constraint is a named function from an underlying form and a
    list of candidates to the list of winners. *)
Record Constraint := {
  name : string;
  run : MorphForm → list MorphForm → option (list MorphForm)
}.

(** [printRanking] *)
Definition printRanking (ranking : list Constraint) : list string :=
  name <$> ranking.

(** The constraints of [nform.py]: [partial(DepOrMax, ...)] under the
    name of the function. *)
Module nform.
Definition MaxNum : Constraint :=
  {| name := "MaxNum"; run := DepOrMax MaxSubroutine ["Number"] |}.
Definition MaxCase : Constraint :=
  {| name := "MaxCase"; run := DepOrMax MaxSubroutine ["Case"] |}.
Definition DepNum : Constraint :=
  {| name := "DepNum"; run := DepOrMax DepSubroutine ["Number"] |}.
Definition DepCase : Constraint :=
  {| name := "DepCase"; run := DepOrMax DepSubroutine ["Case"] |}.
Definition MaxGender : Constraint :=
  {| name := "MaxGender"; run := DepOrMax MaxSubroutine ["Gender"] |}.
Definition DepGender : Constraint :=
  {| name := "DepGender"; run := DepOrMax DepSubroutine ["Gender"] |}.
Definition MaxNumCase : Constraint :=
  {| name := "MaxNumCase"; run := DepOrMax MaxSubroutine ["Number"; "Case"] |}.
Definition DepNumCase : Constraint :=
  {| name := "DepNumCase"; run := DepOrMax DepSubroutine ["Number"; "Case"] |}.
Definition MaxNumGender : Constraint :=
  {| name := "MaxNumGender";
     run := DepOrMax MaxSubroutine ["Number"; "Gender"] |}.
Definition DepNumGender : Constraint :=
  {| name := "DepNumGender";
     run := DepOrMax DepSubroutine ["Number"; "Gender"] |}.
Definition MaxCaseGender : Constraint :=
  {| name := "MaxCaseGender";
     run := DepOrMax MaxSubroutine ["Case"; "Gender"] |}.
Definition DepCaseGender : Constraint :=
  {| name := "DepCaseGender";
     run := DepOrMax DepSubroutine ["Case"; "Gender"] |}.
Definition MaxNumCaseGender : Constraint :=
  {| name := "MaxNumCaseGender";
     run := DepOrMax MaxSubroutine ["Number"; "Case"; "Gender"] |}.
Definition DepNumCaseGender : Constraint :=
  {| name := "DepNumCaseGender";
     run := DepOrMax DepSubroutine ["Number"; "Gender"; "Case"] |}.

Definition nform_constraints : list Constraint :=
  [MaxCase; DepCase; DepNum; MaxNum; DepGender; MaxGender].
End nform.

(** The constraints of [vform.py]. *)
Module vform.
Definition MaxNum : Constraint :=
  {| name := "MaxNum"; run := DepOrMax MaxSubroutine ["Number"] |}.
Definition DepNum : Constraint :=
  {| name := "DepNum"; run := DepOrMax DepSubroutine ["Number"] |}.
Definition MaxPers : Constraint :=
  {| name := "MaxPers"; run := DepOrMax MaxSubroutine ["Person"] |}.
Definition DepPers : Constraint :=
  {| name := "DepPers"; run := DepOrMax DepSubroutine ["Person"] |}.

Definition vform_constraints : list Constraint :=
  [MaxPers; DepPers; DepNum; MaxNum].
End vform.

(** The state of the loop of [DepOrMax] after the candidates [seen],
    when [score] gives the total score of each: [best] is the least
    score among them and [winners] are those that have it. *)
Definition scan_state (score : MorphForm → Z) (seen : list MorphForm)
    (best : Z) (winners : list MorphForm) : Prop :=
  Forall (λ c, best ≤ score c) seen
  ∧ Exists (λ c, score c = best) seen
  ∧ winners = filter (λ c, score c = best) seen.

(** ** Eval *)

(** [otEval]: the [for] loop over [rank], left by [break] as soon as
    [candidates] has at most one member. *)
Fixpoint otEval (rank : list Constraint) (ur_form : MorphForm)
    (candidates : list MorphForm) : option (list MorphForm) :=
  match rank with
  | [] => Some candidates
  | constraint :: rank' =>
      if (1 <? length candidates)%nat
      then candidates' ← run constraint ur_form candidates;
           otEval rank' ur_form candidates'
      else Some candidates
  end.

(** What the description of Eval says before any early exit: every
    constraint of [rank] is applied in turn, each to the output of the
    one before. *)
Fixpoint apply_in_order (rank : list Constraint) (ur_form : MorphForm)
    (candidates : list MorphForm) : option (list MorphForm) :=
  match rank with
  | [] => Some candidates
  | constraint :: rank' =>
      candidates' ← run constraint ur_form candidates;
      apply_in_order rank' ur_form candidates'
  end.

(** ** Partitions *)

#[global] Instance MorphForm_countable : Countable MorphForm.
Proof.
  refine (inj_countable'
    (λ f, match f with
          | NForm n c g => inl (n, c, g)
          | VForm n p => inr (n, p)
          end)
    (λ x, match x with
          | inl (n, c, g) => NForm n c g
          | inr (n, p) => VForm n p
          end) _).
  by intros [].
Defined.

(** [set(map(frozenset, part))] *)
Definition cells_set (part : list (list MorphForm)) : gset (gset MorphForm) :=
  list_to_set ((λ cell, list_to_set cell) <$> part).

(** [areSamePartitions]; the chained comparison reads
    [len(d1) == len(d2) and len(d2) == 0]. *)
Definition areSamePartitions (part1 part2 : list (list MorphForm)) : bool :=
  let s1 := cells_set part1 in
  let s2 := cells_set part2 in
  (size (s1 ∖ s2) =? size (s2 ∖ s1))%nat && (size (s2 ∖ s1) =? 0)%nat.

(** [d[k] = v] on a dict that keeps insertion order: the value of a
    present key is replaced where it stands, a new key goes last. *)
Fixpoint dict_set {K V} `{EqDecision K} (d : list (K * V)) (k : K) (v : V)
  : list (K * V) :=
  match d with
  | [] => [(k, v)]
  | (k', v') :: d' =>
      if decide (k' = k) then (k', v) :: d' else (k', v') :: dict_set d' k v
  end.

(** [res[val].append(key)] on a [defaultdict(list)] *)
Fixpoint dict_append {K V} `{EqDecision K} (d : list (K * list V))
    (k : K) (v : V) : list (K * list V) :=
  match d with
  | [] => [(k, [v])]
  | (k', vs) :: d' =>
      if decide (k' = k) then (k', vs ++ [v]) :: d'
      else (k', vs) :: dict_append d' k v
  end.

(** [sorted(temp_dict.items())] compares pairs whose first components
    are distinct forms, hence by [<] on forms, which is containment and
    not a total order.  The embedding takes the resulting order as a
    parameter. *)
Class PySorted := {
  sorted_items : list (MorphForm * string) → list (MorphForm * string);
  sorted_items_perm : ∀ l, sorted_items l ≡ₚ l
}.

(** One such order: merge sort with "is not above" as the relation. *)
Definition merge_sorted : PySorted :=
  {| sorted_items :=
       merge_sort (λ x y : MorphForm * string, ¬ containsb x.1 y.1);
     sorted_items_perm :=
       merge_sort_Permutation
         (λ x y : MorphForm * string, ¬ containsb x.1 y.1) |}.

Section getWinnerPartition.
Context `{PySorted}.

(** The loop that fills the dict [winners]. *)
Fixpoint winners_loop (rank : list Constraint) (sr_forms : list MorphForm)
    (ur_forms : list MorphForm)
    (winners : list (MorphForm * list MorphForm))
  : option (list (MorphForm * list MorphForm)) :=
  match ur_forms with
  | [] => Some winners
  | ur :: ur_forms' =>
      w ← otEval rank ur sr_forms;
      winners_loop rank sr_forms ur_forms' (dict_set winners ur w)
  end.

(** The loop that fills the dict [res]. *)
Definition group_items (items : list (MorphForm * string))
  : list (string * list MorphForm) :=
  foldl (λ res kv, dict_append res kv.2 kv.1) [] items.

(** [getWinnerPartition].  When no constraint is applied [otEval]
    returns [sr_forms] itself, which the search passes as a tuple and
    which then prints with parentheses; it is in that case the same
    object for every underlying form, so that the grouping by the
    printed winners is the one below. *)
Definition getWinnerPartition (rank : list Constraint)
    (ur_forms sr_forms : list MorphForm)
  : option (list (list MorphForm)) :=
  winners ← winners_loop rank sr_forms ur_forms [];
  let temp_dict := (λ kv, (kv.1, str_list kv.2)) <$> winners in
  Some ((group_items (sorted_items temp_dict)).*2).
End getWinnerPartition.

(** ** The search *)

(** [itertools.product] of a list of lists *)
Fixpoint product {A} (ls : list (list A)) : list (list A) :=
  match ls with
  | [] => [[]]
  | l :: ls' => x ← l; (λ t, x :: t) <$> product ls'
  end.

(** [itertools.combinations(l, r)] *)
Fixpoint combinations {A} (l : list A) (r : nat) : list (list A) :=
  match r with
  | O => [[]]
  | S r' =>
      match l with
      | [] => []
      | x :: l' => ((λ t, x :: t) <$> combinations l' r') ++ combinations l' r
      end
  end.

Section search.
Context `{PySetOrder} `{PySorted}.

(** [generateForms(type_of_form, values)] for a list [values], as
    [findVocabularyRankingPairs] calls it.  The values of
    [feature_val_dict] are sets, iterated in the order of the
    runtime. *)
Definition generateForms (type_of_form : FormClass) (values : list string)
  : option (list MorphForm) :=
  let dic := feature_val_dict type_of_form in
  let all_args := product ((λ kv, list_of_set kv.2) <$> dic) in
  let args :=
    if (length values =? 0)%nat then all_args
    else filter (λ a, size (fs a ∩ fs values) = 0%nat) all_args in
  mapM (construct type_of_form) args.

(** The loop over [rankings] that fills [good_ranks]. *)
Fixpoint good_ranks_loop (stop : bool) (urs : list MorphForm)
    (vocab : list MorphForm) (ur_partition : list (list MorphForm))
    (rankings : list (list Constraint)) (good_ranks : list (list string))
  : option (list (list string)) :=
  match rankings with
  | [] => Some good_ranks
  | rank :: rankings' =>
      wpart ← getWinnerPartition rank urs vocab;
      if areSamePartitions wpart ur_partition
      then
        let good_ranks' := good_ranks ++ [printRanking rank] in
        if stop then Some good_ranks'
        else good_ranks_loop stop urs vocab ur_partition rankings' good_ranks'
      else good_ranks_loop stop urs vocab ur_partition rankings' good_ranks
  end.

(** The loop over [vocab_list] that fills [success_pairs]. *)
Fixpoint vocab_loop (stop : bool) (urs : list MorphForm)
    (ur_partition : list (list MorphForm))
    (rankings : list (list Constraint)) (vocab_list : list (list MorphForm))
    (success_pairs : list (list MorphForm * list (list string)))
  : option (list (list MorphForm * list (list string))) :=
  match vocab_list with
  | [] => Some success_pairs
  | vocab :: vocab_list' =>
      good_ranks ← good_ranks_loop stop urs vocab ur_partition rankings [];
      if (0 <? length good_ranks)%nat
      then vocab_loop stop urs ur_partition rankings vocab_list'
                      (success_pairs ++ [(vocab, good_ranks)])
      else vocab_loop stop urs ur_partition rankings vocab_list'
                      success_pairs
  end.

(** [findVocabularyRankingPairs], without the progress messages and
    the optional report file. *)
Definition findVocabularyRankingPairs (type_of_form : FormClass)
    (ur_partition : list (list MorphForm))
    (rankings : list (list Constraint))
    (list_values_to_exclude : list string) (stop : bool)
  : option (list (list MorphForm * list (list string))) :=
  sforms ← generateForms type_of_form list_values_to_exclude;
  let urs := concat ur_partition in
  let vocab_list := combinations sforms (length ur_partition) in
  vocab_loop stop urs ur_partition rankings vocab_list [].
End search.

(** The tuples of tokens from which the universe of candidates is
    built: one token per feature, none of the excluded [values]. *)
Definition token_choice (c : FormClass) (values tokens : list string) : Prop :=
  Forall2 (λ x l, x ∈ l) tokens (snd <$> feature_val_dict c)
  ∧ Forall (λ x, x ∉ values) tokens.

(** ** The search, as its description states it *)

Section search_description.
Context `{PySorted}.

(** A ranking succeeds for a vocabulary when the winner partition of
    the underlying forms is the target partition, up to the order of
    the cells and of their members. *)
Definition reproduces (urs vocab : list MorphForm)
    (ur_partition : list (list MorphForm)) (rank : list Constraint) : bool :=
  match getWinnerPartition rank urs vocab with
  | Some wpart => areSamePartitions wpart ur_partition
  | None => false
  end.

Definition succeeding_rankings (urs vocab : list MorphForm)
    (ur_partition : list (list MorphForm))
    (rankings : list (list Constraint)) : list (list Constraint) :=
  filter (λ rank, reproduces urs vocab ur_partition rank) rankings.

(** All succeeding rankings, or only the first one, by their names. *)
Definition reported_rankings (stop : bool)
    (succeeding : list (list Constraint)) : list (list string) :=
  printRanking <$> (if stop then take 1 succeeding else succeeding).

(** One entry for every vocabulary with at least one succeeding
    ranking. *)
Definition success_entries (stop : bool) (urs : list MorphForm)
    (ur_partition : list (list MorphForm))
    (rankings : list (list Constraint)) (vocab_list : list (list MorphForm))
  : list (list MorphForm * list (list string)) :=
  omap (λ vocab,
          match succeeding_rankings urs vocab ur_partition rankings with
          | [] => None
          | succeeding => Some (vocab, reported_rankings stop succeeding)
          end) vocab_list.
End search_description.

(** A constraint that, on forms of the class [c], returns some of the
    candidates it was given. *)
Definition filters_class (c : FormClass) (k : Constraint) : Prop :=
  ∀ ur candidates,
    type_of ur = c → Forall (λ f, type_of f = c) candidates →
    ∃ winners, run k ur candidates = Some winners ∧ winners ⊆ candidates.

(** ** Further notions used in the properties *)

(** [features = [f for f in feature_val_dict.keys()]] *)
Definition features (c : FormClass) : list string := (feature_val_dict c).*1.

(** A constraint that, on forms of the class [c], returns candidates it
    was given, in their order, and at least one unless there was
    none. *)
Definition selects_class (c : FormClass) (k : Constraint) : Prop :=
  ∀ ur candidates,
    type_of ur = c → Forall (λ f, type_of f = c) candidates →
    ∃ winners, run k ur candidates = Some winners
               ∧ winners `sublist_of` candidates
               ∧ (candidates ≠ [] → winners ≠ []).

(** All the constraints that [nform.py] defines. *)
Definition nform_all_constraints : list Constraint :=
  [nform.MaxNum; nform.MaxCase; nform.DepNum; nform.DepCase;
   nform.MaxGender; nform.DepGender; nform.MaxNumCase; nform.DepNumCase;
   nform.MaxNumGender; nform.DepNumGender; nform.MaxCaseGender;
   nform.DepCaseGender; nform.MaxNumCaseGender; nform.DepNumCaseGender].

(** What [partitionIsWellFormed] may be given as [type_form]: the base
    class [MorphForm], one of its two subclasses, or a type of which no
    form is an instance. *)
Inductive PyType :=
| TMorphForm
| TForm (c : FormClass)
| TUnrelated.

(** [isinstance(f, type_form)] for a form [f] *)
Definition isinstance (f : MorphForm) (type_form : PyType) : bool :=
  match type_form with
  | TMorphForm => true
  | TForm c => bool_decide (type_of f = c)
  | TUnrelated => false
  end.

(** [partitionIsWellFormed], without the messages that it prints
    before it returns [False]. *)
Definition partitionIsWellFormed (partition : list (list MorphForm))
    (number_of_forms : Z) (type_form : PyType) : bool :=
  let flat := concat partition in
  let total_forms := Z.of_nat (length flat) in
  if total_forms >? number_of_forms then false
  else if total_forms <? number_of_forms then false
  else if negb (forallb (λ f, isinstance f type_form) flat) then false
  else if total_forms >? Z.of_nat (size (list_to_set flat : gset MorphForm))
  then false
  else if existsb (λ c, (size (list_to_set c : gset MorphForm) <? length c)%nat)
                  partition
  then false
  else true.

(** The forms built from one token for every feature, in the order of
    [itertools.product] over the tokens as the source writes them. *)
Definition universe (c : FormClass) : list MorphForm :=
  omap (construct c) (product (snd <$> feature_val_dict c)).

(** What printing shows for a token: the token, and the sign of the
    empty set of the class for "zero". *)
Definition display (c : FormClass) (token : string) : string :=
  if decide (token = "zero") then show_val c ∅ else token.

(** No comma in a string. *)
Fixpoint no_comma (s : string) : bool :=
  match s with
  | EmptyString => true
  | String a s' => negb (Ascii.eqb a ",") && no_comma s'
  end.

(** The tokens in the order in which [__repr__] prints the values that
    they name: as given for [NForm], the number before the person for
    [VForm]. *)
Definition repr_order (c : FormClass) (tokens : list string) : list string :=
  match c with
  | NFormClass => tokens
  | VFormClass => reverse tokens
  end.

(** In a [defaultdict(list)] written as an association list: [v] is in
    the list kept under the key [k]. *)
Definition filed {K V} (d : list (K * list V)) (k : K) (v : V) : Prop :=
  ∃ cell, (k, cell) ∈ d ∧ v ∈ cell.

(** ** Some forms, by the tokens that build them *)

Definition n_zero : MorphForm := NForm (fs []) (fs []) (fs []).
Definition n_nom : MorphForm := NForm (fs []) (fs ["nom"]) (fs []).
Definition n_acc : MorphForm := NForm (fs []) (fs ["nom"; "acc"]) (fs []).
Definition n_dat : MorphForm :=
  NForm (fs []) (fs ["nom"; "acc"; "dat"]) (fs []).
Definition n_sg : MorphForm := NForm (fs ["sg"]) (fs []) (fs []).
Definition n_pl_nom_mas : MorphForm :=
  NForm (fs ["sg"; "pl"]) (fs ["nom"]) (fs ["neu"; "mas"]).
Definition v_zero : MorphForm := VForm (fs []) (fs []).
Definition v_pl : MorphForm := VForm (fs ["pl"]) (fs []).
Definition v_auth : MorphForm := VForm (fs []) (fs ["part"; "auth"]).

(** * Properties *)

Lemma contains_returns self other :
  contains self other = Some (containsb self other).
Proof.
  unfold contains, containsb.
  destruct (form_eq self other); [done|].
  by rewrite bool_decide_eq_true_2.
Qed.

(** ** Equality and containment *)

Lemma form_eq_true (a b : MorphForm) : form_eq a b = true ↔ a = b.
Proof.
  unfold form_eq. destruct (decide (type_of a = type_of b)) as [Hty|Hty].
  - rewrite bool_decide_eq_true. split; [|by intros ->].
    destruct a, b; simpl in *; congruence.
  - split; [done|]. by intros ->.
Qed.

Lemma form_eq_refl (a : MorphForm) : form_eq a a = true.
Proof. by apply form_eq_true. Qed.

Lemma issuperset_true (a b : FeatureValue) : issuperset a b = true ↔ b ⊆ a.
Proof. unfold issuperset. apply bool_decide_eq_true. Qed.

(** Between two forms of one class, [contains] is: different, and
    slot by slot a superset. *)
Lemma containsb_same_class (a b : MorphForm) :
  type_of a = type_of b →
  containsb a b = true ↔
    a ≠ b ∧ Forall2 (λ x y, y ⊆ x) (getValues a) (getValues b).
Proof.
  intros Hty. unfold containsb.
  rewrite andb_true_iff, negb_true_iff, <- not_true_iff_false, form_eq_true.
  apply and_iff_compat_l.
  destruct a, b; try discriminate Hty; simpl;
    rewrite !andb_true_iff, !issuperset_true; split.
  - intros (? & ? & ? & _). by repeat constructor.
  - intros Hs. repeat (apply Forall2_cons_1 in Hs as [? Hs]). done.
  - intros (? & ? & _). by repeat constructor.
  - intros Hs. repeat (apply Forall2_cons_1 in Hs as [? Hs]). done.
Qed.

Lemma values_inj (a b : MorphForm) :
  type_of a = type_of b → getValues a = getValues b → a = b.
Proof. destruct a, b; simpl; intros; congruence. Qed.

Lemma values_length (a b : MorphForm) :
  type_of a = type_of b → length (getValues a) = length (getValues b).
Proof. by destruct a, b. Qed.

Lemma superset_antisym (l k : list FeatureValue) :
  Forall2 (λ x y : FeatureValue, y ⊆ x) l k →
  Forall2 (λ x y : FeatureValue, y ⊆ x) k l → l = k.
Proof.
  intros H. induction H as [|x y l k Hxy _ IH]; intros Hk.
  - done.
  - apply Forall2_cons_1 in Hk as [Hyx Hk]. f_equal; [set_solver|auto].
Qed.

Lemma superset_trans (l k m : list FeatureValue) :
  Forall2 (λ x y : FeatureValue, y ⊆ x) l k →
  Forall2 (λ x y : FeatureValue, y ⊆ x) k m →
  Forall2 (λ x y : FeatureValue, y ⊆ x) l m.
Proof.
  intros H. revert m. induction H as [|x y l k Hxy _ IH]; intros m Hm.
  - by inversion Hm.
  - inversion Hm as [|? z ? m' Hyz Hm']; subst.
    constructor; [set_solver|auto].
Qed.

Lemma containsb_irrefl (a : MorphForm) : containsb a a = false.
Proof. unfold containsb. by rewrite form_eq_refl. Qed.

Lemma containsb_asym (a b : MorphForm) :
  type_of a = type_of b → containsb a b = true → containsb b a = false.
Proof.
  intros Hty Hab. apply not_true_iff_false. intros Hba.
  apply containsb_same_class in Hab as [Hne Hab]; [|done].
  apply containsb_same_class in Hba as [_ Hba]; [|done].
  apply Hne, values_inj; [done|]. by apply superset_antisym.
Qed.

Lemma containsb_trans (a b c : MorphForm) :
  type_of a = type_of b → type_of b = type_of c →
  containsb a b = true → containsb b c = true → containsb a c = true.
Proof.
  intros Hab Hbc H1 H2.
  pose proof (containsb_asym _ _ Hab H1) as Hasym.
  apply containsb_same_class in H1 as [Hne1 H1]; [|done].
  apply containsb_same_class in H2 as [Hne2 H2]; [|done].
  apply containsb_same_class; [congruence|]. split.
  - intros ->. apply Hne1, values_inj; [done|]. by apply superset_antisym.
  - by eapply superset_trans.
Qed.

(** C5. On forms of one concrete class, [contains] is a strict partial
    order: it is irreflexive; when [A] contains [B], [B] does not
    contain [A] and the two differ; and it is transitive. *)
Theorem contains_strict_partial_order (A B C : MorphForm) :
  type_of A = type_of B → type_of B = type_of C →
  contains A A = Some false
  ∧ (contains A B = Some true → contains B A = Some false ∧ A ≠ B)
  ∧ (contains A B = Some true → contains B C = Some true →
     contains A C = Some true).
Proof.
  intros HAB HBC. rewrite !contains_returns. split; [|split].
  - by rewrite containsb_irrefl.
  - intros [= H]. split.
    + by rewrite (containsb_asym A B).
    + intros ->. by rewrite containsb_irrefl in H.
  - intros [= H1] [= H2]. by rewrite (containsb_trans A B C).
Qed.

Lemma contains_strict_partial_order_witness :
  contains n_dat n_dat = Some false
  ∧ (contains n_dat n_acc = Some true →
     contains n_acc n_dat = Some false ∧ n_dat ≠ n_acc)
  ∧ (contains n_dat n_acc = Some true → contains n_acc n_nom = Some true →
     contains n_dat n_nom = Some true).
Proof.
  apply (contains_strict_partial_order n_dat n_acc n_nom); reflexivity.
Defined.

(** C2.  [contains] never raises, whatever the classes of the two
    forms: on [NForm('pl', 'nom', 'mas')] and [VForm('pl')] it returns
    [True]. *)
Theorem contains_across_classes_returns :
  (∀ a b, contains a b ≠ None)
  ∧ NForm_init ["pl"; "nom"; "mas"] = Some n_pl_nom_mas
  ∧ VForm_init ["pl"] = Some v_pl
  ∧ type_of n_pl_nom_mas ≠ type_of v_pl
  ∧ contains n_pl_nom_mas v_pl = Some true.
Proof.
  split; [|split; [|split; [|split]]].
  - intros a b. by rewrite contains_returns.
  - vm_compute. reflexivity.
  - vm_compute. reflexivity.
  - discriminate.
  - vm_compute. reflexivity.
Qed.

(** ** Construction *)

Lemma wellFormedArgs_single {G} (mem : PyArg → G → bool) group_vals a :
  wellFormedArgs mem group_vals [a] = true.
Proof. done. Qed.

Lemma wellFormedArgs_no_argv {G} (mem : PyArg → G → bool) group_vals :
  wellFormedArgs mem group_vals [] = true.
Proof. done. Qed.

(** C3.  The well-formedness check never rejects: [NForm.__init__]
    hands the whole tuple of tokens to [wellFormedArgs] as its single
    [*argv] item, and [VForm.__init__] hands it over as [group_vals]
    with no [*argv] at all.  So [NForm('sg', 'pl')] and
    [VForm('auth', 'addr')] are built, from the first token of the
    group. *)
Theorem two_values_of_one_group_accepted :
  (∀ argv, wellFormedArgs mem_set (grouped_values NFormClass)
                          [ATuple argv] = true)
  ∧ (∀ argv, wellFormedArgs mem_str argv [] = true)
  ∧ wellFormedArgs mem_set (grouped_values NFormClass)
                   [AStr "sg"; AStr "pl"] = false
  ∧ NForm_init ["sg"; "pl"] = Some n_sg
  ∧ VForm_init ["auth"; "addr"] = Some v_auth.
Proof.
  split; [|split; [|split; [|split]]].
  - intros argv. apply wellFormedArgs_single.
  - intros argv. apply wellFormedArgs_no_argv.
  - vm_compute. reflexivity.
  - vm_compute. reflexivity.
  - vm_compute. reflexivity.
Qed.

(** ** The path finder *)

Lemma filter_perm_nil {A} (P : A → Prop) `{∀ x, Decision (P x)}
    (l l' : list A) :
  l ≡ₚ l' → filter P l' = [] → filter P l = [].
Proof.
  intros Hl Hnil. apply Permutation_nil_r. rewrite <- Hnil. by rewrite Hl.
Qed.

Lemma filter_perm_singleton {A} (P : A → Prop) `{∀ x, Decision (P x)}
    (l l' : list A) x :
  l ≡ₚ l' → filter P l' = [x] → filter P l = [x].
Proof.
  intros Hl Hx. apply Permutation_singleton_r. rewrite <- Hx. by rewrite Hl.
Qed.

Lemma elem_of_list_of_set `{PySetOrder} {A} `{EqDecision A} (l : list A) x :
  x ∈ list_of_set l ↔ x ∈ l.
Proof. by rewrite list_of_set_perm, elem_of_remove_dups. Qed.

Lemma getBottom_pair (form1 form2 : MorphForm) :
  head (getBottom [form1; form2])
  = Some (if containsb form1 form2 then form2 else form1).
Proof.
  unfold getBottom, py_min, form_lt. simpl.
  destruct (containsb form1 form2) eqn:Hc.
  - assert (form_eq form1 form2 = false) as Hne.
    { unfold containsb in Hc. by destruct (form_eq form1 form2). }
    rewrite filter_cons_False by (rewrite Hne; exact id).
    by rewrite filter_cons_True by (rewrite form_eq_refl; exact I).
  - by rewrite filter_cons_True by (rewrite form_eq_refl; exact I).
Qed.

Lemma getTop_pair (form1 form2 : MorphForm) :
  head (getTop [form1; form2])
  = Some (if containsb form2 form1 then form2 else form1).
Proof.
  unfold getTop, py_max, form_lt. simpl.
  destruct (containsb form2 form1) eqn:Hc.
  - assert (form_eq form1 form2 = false) as Hne.
    { apply not_true_iff_false. rewrite form_eq_true. intros ->.
      by rewrite containsb_irrefl in Hc. }
    rewrite filter_cons_False by (rewrite Hne; exact id).
    by rewrite filter_cons_True by (rewrite form_eq_refl; exact I).
  - by rewrite filter_cons_True by (rewrite form_eq_refl; exact I).
Qed.

Lemma immediateContains_containsb (a b : MorphForm) :
  immediateContains a b = true → containsb a b = true.
Proof. unfold immediateContains. by intros [? _]%andb_true_iff. Qed.

Section getPaths_facts.
Context `{PySetOrder}.

Lemma getPaths_unrelated fuel form1 form2 pool :
  containment form1 form2 = false → getPaths fuel form1 form2 pool = Some [].
Proof. unfold getPaths. by intros ->. Qed.

(** Two forms in immediate containment: the result is the flat list
    of the two forms, whatever the pool. *)
Lemma getPaths_immediate fuel form1 form2 pool :
  immediateContainment form1 form2 = true →
  getPaths fuel form1 form2 pool
  = Some [ItemForm (if containsb form1 form2 then form2 else form1);
          ItemForm (if containsb form2 form1 then form2 else form1)].
Proof.
  intros Himm. unfold getPaths.
  assert (containment form1 form2 = true) as ->.
  { unfold containment. apply orb_true_iff.
    apply orb_true_iff in Himm as [?%immediateContains_containsb
                                  |?%immediateContains_containsb]; auto. }
  rewrite getBottom_pair, getTop_pair, Himm. done.
Qed.

Lemma getPaths_not_immediate fuel form1 form2 pool :
  containment form1 form2 = true →
  immediateContainment form1 form2 = false →
  getPaths fuel form1 form2 pool
  = let bottom := if containsb form1 form2 then form2 else form1 in
    let top := if containsb form2 form1 then form2 else form1 in
    paths_traversed ←
      getPaths_loop fuel top
        (list_of_set (filter (λ f, isBetween f form1 form2) pool
                      ++ [form1; form2])) [[bottom]];
    if bool_decide (paths_traversed = [[bottom]]) then Some []
    else Some ((λ p, ItemPath (tail p)) <$> paths_traversed).
Proof.
  intros Hc Himm. unfold getPaths.
  rewrite Hc, getBottom_pair, getTop_pair, Himm. done.
Qed.

(** One round of the loop on a single path. *)
Lemma extend_paths_single top domain p lst exts :
  last p = Some lst → containsb top lst = true →
  filter (λ f, immediateContains f lst && containsb top f) domain = exts →
  extend_paths top domain [p] = Some ((λ e, p ++ [e]) <$> exts).
Proof.
  intros Hlast Htop Hexts. unfold extend_paths, getExtensions.
  cbn [mapM]. rewrite Hlast. cbn [mbind option_bind].
  rewrite Htop, Hexts. simpl. by rewrite app_nil_r.
Qed.
End getPaths_facts.

(** C4.  For two forms in immediate containment, here [NForm()] and
    [NForm('nom')] in either order, [getPaths] returns the flat list
    [[bottom, top]] of two forms, not a list holding the one path
    [[bottom, top]]; this for every pool, every fuel and every order of
    set iteration. *)
Theorem getPaths_immediate_pair_is_flat :
  NForm_init [] = Some n_zero ∧ NForm_init ["nom"] = Some n_nom
  ∧ immediateContains n_nom n_zero = true
  ∧ ∀ (O : PySetOrder) fuel pool,
      getPaths fuel n_zero n_nom pool = Some [ItemForm n_zero; ItemForm n_nom]
      ∧ getPaths fuel n_nom n_zero pool = Some [ItemForm n_zero; ItemForm n_nom]
      ∧ getPaths fuel n_zero n_nom pool ≠ Some [ItemPath [n_zero; n_nom]].
Proof.
  split; [by vm_compute|]. split; [by vm_compute|]. split; [by vm_compute|].
  intros O fuel pool.
  rewrite !getPaths_immediate by (by vm_compute).
  split; [by vm_compute|]. split; [by vm_compute|]. by vm_compute.
Qed.

Section getPaths_loop_facts.
Context `{PySetOrder}.

Lemma getPaths_loop_step fuel top domain paths extended :
  extend_paths top domain paths = Some extended →
  extended ≠ paths → extended ≠ [] →
  getPaths_loop (S fuel) top domain paths
  = getPaths_loop fuel top domain extended.
Proof.
  intros Hext Hne Hnil. cbn [getPaths_loop]. rewrite Hext.
  cbn [mbind option_bind]. rewrite bool_decide_eq_false_2 by done.
  destruct extended; [done|]. done.
Qed.

Lemma getPaths_loop_stop fuel top domain paths extended :
  extend_paths top domain paths = Some extended →
  extended = paths ∨ extended = [] →
  getPaths_loop (S fuel) top domain paths = Some paths.
Proof.
  intros Hext Hstop. cbn [getPaths_loop]. rewrite Hext.
  cbn [mbind option_bind]. destruct Hstop as [->| ->].
  - by rewrite bool_decide_eq_true_2.
  - by rewrite orb_true_r.
Qed.

(** C1.  For [NForm()] and [NForm('dat')] with the pool
    [[NForm('nom')]], [getPaths] returns the path [[NForm('nom')]],
    whose last element the upper endpoint contains but does not
    immediately contain: the path stops short of the upper
    endpoint.  This for every order of set iteration. *)
Theorem getPaths_path_stops_short fuel :
  NForm_init [] = Some n_zero ∧ NForm_init ["dat"] = Some n_dat
  ∧ NForm_init ["nom"] = Some n_nom
  ∧ getPaths (S (S fuel)) n_zero n_dat [n_nom] = Some [ItemPath [n_nom]]
  ∧ containsb n_dat n_nom = true
  ∧ immediateContains n_dat n_nom = false.
Proof.
  split; [by vm_compute|]. split; [by vm_compute|]. split; [by vm_compute|].
  split; [|by vm_compute].
  rewrite getPaths_not_immediate by (by vm_compute). cbv zeta.
  assert ((if containsb n_zero n_dat then n_dat else n_zero) = n_zero)
    as -> by (by vm_compute).
  assert ((if containsb n_dat n_zero then n_dat else n_zero) = n_dat)
    as -> by (by vm_compute).
  assert (filter (λ f, isBetween f n_zero n_dat) [n_nom] ++ [n_zero; n_dat]
          = [n_nom; n_zero; n_dat]) as -> by (by vm_compute).
  pose proof (list_of_set_perm [n_nom; n_zero; n_dat]) as Hperm.
  assert (remove_dups [n_nom; n_zero; n_dat] = [n_nom; n_zero; n_dat])
    as Hdups by (by vm_compute).
  rewrite Hdups in Hperm. clear Hdups.
  generalize dependent (list_of_set [n_nom; n_zero; n_dat]).
  intros domain Hperm.
  rewrite (getPaths_loop_step _ _ _ _ [[n_zero; n_nom]]); [| |done|done].
  2:{ apply (extend_paths_single n_dat domain [n_zero] n_zero [n_nom]);
        [done|by vm_compute|].
      apply (filter_perm_singleton _ _ _ _ Hperm). by vm_compute. }
  rewrite (getPaths_loop_stop _ _ _ _ []); [|
    | by right].
  2:{ apply (extend_paths_single n_dat domain [n_zero; n_nom] n_nom []);
        [done|by vm_compute|].
      apply (filter_perm_nil _ _ _ Hperm). by vm_compute. }
  cbn [mbind option_bind]. by vm_compute.
Qed.
End getPaths_loop_facts.

(** ** Termination of the path finder *)

Lemma remove_dups_length {A} `{EqDecision A} (l : list A) :
  (length (remove_dups l) ≤ length l)%nat.
Proof.
  induction l as [|x l IH]; [done|].
  cbn [remove_dups]. destruct (decide_rel elem_of x l); simpl; lia.
Qed.

Lemma chain_from_last top domain bottom p :
  chain_from top domain bottom p → is_Some (last p).
Proof. intros [|]; [by eexists|]. rewrite last_snoc. by eexists. Qed.

Lemma chain_from_members top domain bottom p :
  chain_from top domain bottom p → ∀ a, a ∈ p → a ∈ bottom :: domain.
Proof.
  induction 1 as [|p lst e _ IH _ He _ _]; intros a Ha.
  - apply list_elem_of_singleton in Ha as ->. by left.
  - apply elem_of_app in Ha as [Ha|Ha%list_elem_of_singleton];
      [by apply IH|]. subst a. by right.
Qed.

Section extend_paths_facts.
Context `{PySetOrder}.
Variables (top bottom : MorphForm) (domain : list MorphForm).

Lemma getExtensions_chains p :
  chain_from top domain bottom p →
  ∃ exts, getExtensions p top domain = Some exts
    ∧ Forall (chain_from top domain bottom) exts
    ∧ Forall (λ q, length q = S (length p)) exts.
Proof.
  intros Hp. destruct (chain_from_last _ _ _ _ Hp) as [lst Hlst].
  unfold getExtensions. rewrite Hlst. cbn [mbind option_bind].
  eexists. split; [done|]. split.
  - apply Forall_fmap, Forall_forall. intros e He. cbn.
    apply list_elem_of_filter in He as [Hc He].
    apply Is_true_true, andb_true_iff in Hc as [Himm Htop].
    by apply (chain_step _ _ _ p lst e).
  - apply Forall_fmap, Forall_forall. intros e _. cbn.
    rewrite length_app. simpl. lia.
Qed.

Lemma extend_paths_chains paths :
  Forall (chain_from top domain bottom) paths →
  ∃ extended, extend_paths top domain paths = Some extended
    ∧ Forall (chain_from top domain bottom) extended
    ∧ ∀ n, Forall (λ p, length p = n) paths →
           Forall (λ p, length p = S n) extended.
Proof.
  unfold extend_paths. intros Hch.
  induction Hch as [|p paths Hp Hch IH]; [by exists []|].
  destruct IH as (extended & Hext & Hch' & Hlen').
  destruct (chain_from_last _ _ _ _ Hp) as [lst Hlst].
  destruct (getExtensions_chains p Hp) as (ext & Hge & Hc & Hl).
  cbn [mapM]. rewrite Hlst. cbn [mbind option_bind].
  revert Hext.
  destruct (mapM _ paths) as [exts|]; [|done].
  cbn [mbind option_bind]. intros [= <-].
  destruct (containsb top lst).
  - rewrite Hge. cbn [mbind option_bind mret option_ret concat].
    eexists. split; [done|]. rewrite !Forall_app.
    repeat split; [done|done|].
    intros n [Hn Hlen]%Forall_cons_1. apply Forall_app.
    split; [|by apply Hlen'].
    eapply Forall_impl; [exact Hl|]. intros q Hq. simpl in Hq. lia.
  - cbn [mbind option_bind mret option_ret concat app].
    eexists. split; [done|]. split; [done|].
    intros n [Hn Hlen]%Forall_cons_1. by apply Hlen'.
Qed.

(** Whatever the loop returns is made of such paths. *)
Lemma getPaths_loop_chains fuel : ∀ paths result,
  Forall (chain_from top domain bottom) paths →
  getPaths_loop fuel top domain paths = Some result →
  Forall (chain_from top domain bottom) result.
Proof.
  induction fuel as [|fuel IH]; intros paths result Hch Hr; [done|].
  destruct (extend_paths_chains paths Hch) as (extended & Hext & Hch' & _).
  cbn [getPaths_loop] in Hr. rewrite Hext in Hr.
  cbn [mbind option_bind] in Hr.
  destruct (bool_decide (extended = paths) || (length extended =? 0)%nat).
  - by injection Hr as <-.
  - by apply (IH extended).
Qed.
End extend_paths_facts.

(** On forms of one class the members of a path are all different,
    since every step goes strictly up. *)
Section one_class.
Context `{PySetOrder}.
Variables (c : FormClass) (top bottom : MorphForm) (domain : list MorphForm).
Hypothesis bottom_class : type_of bottom = c.
Hypothesis domain_class : Forall (λ f, type_of f = c) domain.

Lemma chain_from_class p :
  chain_from top domain bottom p → Forall (λ a, type_of a = c) p.
Proof.
  intros Hp. apply Forall_forall. intros a Ha.
  apply (chain_from_members _ _ _ _ Hp) in Ha.
  apply elem_of_cons in Ha as [->|Ha]; [done|].
  rewrite Forall_forall in domain_class. by apply domain_class.
Qed.

Lemma chain_from_below_last p :
  chain_from top domain bottom p →
  ∀ lst, last p = Some lst →
         ∀ a, a ∈ p → a = lst ∨ containsb lst a = true.
Proof.
  induction 1 as [|p lst e Hp IH Hlst He Himm Htop]; intros lst' Hlast a Ha.
  - injection Hlast as <-. apply list_elem_of_singleton in Ha. by left.
  - rewrite last_snoc in Hlast. injection Hlast as <-.
    apply elem_of_app in Ha as [Ha|Ha%list_elem_of_singleton]; [|by left].
    right.
    pose proof (chain_from_class _ Hp) as Hcls. rewrite Forall_forall in Hcls.
    assert (type_of e = c) as Hec.
    { rewrite Forall_forall in domain_class. by apply domain_class. }
    assert (type_of lst = c) as Hlc by (by apply Hcls, last_Some_elem_of).
    apply immediateContains_containsb in Himm.
    destruct (IH lst Hlst a Ha) as [->|Hlst_a]; [done|].
    apply (containsb_trans e lst a); [congruence| |done|done].
    rewrite Hlc. symmetry. by apply Hcls.
Qed.

Lemma chain_from_NoDup p : chain_from top domain bottom p → NoDup p.
Proof.
  induction 1 as [|p lst e Hp IH Hlst He Himm Htop].
  - apply NoDup_singleton.
  - apply NoDup_app. repeat split; [done| |apply NoDup_singleton].
    intros a Ha Hae%list_elem_of_singleton. subst a.
    pose proof (chain_from_class _ Hp) as Hcls. rewrite Forall_forall in Hcls.
    apply immediateContains_containsb in Himm.
    destruct (chain_from_below_last p Hp lst Hlst e Ha) as [->|Hle].
    + by rewrite containsb_irrefl in Himm.
    + rewrite (containsb_asym lst e) in Himm; [done| |done].
      rewrite (Hcls e Ha). by apply Hcls, last_Some_elem_of.
Qed.

Lemma chain_from_length p :
  chain_from top domain bottom p → (length p ≤ S (length domain))%nat.
Proof.
  intros Hp. change (S (length domain)) with (length (bottom :: domain)).
  apply submseteq_length, NoDup_submseteq.
  - by apply chain_from_NoDup.
  - by apply (chain_from_members top domain bottom).
Qed.

(** With enough fuel the loop returns, and what it returns are paths
    of the kind above. *)
Lemma getPaths_loop_returns fuel : ∀ n paths,
  paths ≠ [] →
  Forall (chain_from top domain bottom) paths →
  Forall (λ p, length p = n) paths →
  (length domain + 2 ≤ fuel + n)%nat →
  ∃ result, getPaths_loop fuel top domain paths = Some result
    ∧ result ≠ []
    ∧ Forall (chain_from top domain bottom) result.
Proof.
  induction fuel as [|fuel IH]; intros n paths Hne Hch Hlen Hfuel.
  - destruct paths as [|p paths]; [done|].
    apply Forall_cons_1 in Hch as [Hp _].
    apply Forall_cons_1 in Hlen as [Hn _].
    apply chain_from_length in Hp. lia.
  - destruct (extend_paths_chains top bottom domain paths Hch)
      as (extended & Hext & Hch' & Hlen').
    specialize (Hlen' n Hlen).
    cbn [getPaths_loop]. rewrite Hext. cbn [mbind option_bind].
    destruct (bool_decide (extended = paths) || (length extended =? 0)%nat)
      eqn:Hstop.
    + by exists paths.
    + apply orb_false_iff in Hstop as [_ Hnil%Nat.eqb_neq].
      apply (IH (S n)); [by destruct extended|done|done|lia].
Qed.
End one_class.

Section returns.
Context `{PySetOrder}.

Lemma getPaths_loop_more_fuel fuel : ∀ fuel' top domain paths result,
  getPaths_loop fuel top domain paths = Some result →
  (fuel ≤ fuel')%nat →
  getPaths_loop fuel' top domain paths = Some result.
Proof.
  induction fuel as [|fuel IH]; intros fuel' top domain paths result Hr Hle;
    [done|].
  destruct fuel' as [|fuel']; [lia|].
  cbn [getPaths_loop] in *.
  destruct (extend_paths top domain paths) as [extended|]; [|done].
  cbn [mbind option_bind] in *.
  destruct (bool_decide (extended = paths) || (length extended =? 0)%nat);
    [done|].
  apply (IH fuel'); [done|lia].
Qed.

Lemma getPaths_more_fuel fuel fuel' form1 form2 pool result :
  getPaths fuel form1 form2 pool = Some result →
  (fuel ≤ fuel')%nat →
  getPaths fuel' form1 form2 pool = Some result.
Proof.
  unfold getPaths. intros Hr Hle.
  destruct (negb (containment form1 form2)); [done|].
  destruct (head (getBottom [form1; form2])) as [bottom|]; [|done].
  destruct (head (getTop [form1; form2])) as [top|]; [|done].
  cbn [mbind option_bind] in *.
  destruct (immediateContainment form1 form2); [done|].
  destruct (getPaths_loop fuel top _ [[bottom]]) as [paths|] eqn:Hloop;
    [|done].
  by rewrite (getPaths_loop_more_fuel fuel fuel' _ _ _ _ Hloop Hle).
Qed.

Lemma getPaths_returns c fuel form1 form2 pool :
  type_of form1 = c → type_of form2 = c →
  Forall (λ f, type_of f = c) pool →
  (length pool + 3 ≤ fuel)%nat →
  is_Some (getPaths fuel form1 form2 pool).
Proof.
  intros H1 H2 Hpool Hfuel. unfold getPaths.
  destruct (negb (containment form1 form2)); [by eexists|].
  rewrite getBottom_pair, getTop_pair. cbn [mbind option_bind].
  destruct (immediateContainment form1 form2); [by eexists|].
  set (domain := list_of_set _).
  set (bottom := if containsb form1 form2 then form2 else form1).
  set (top := if containsb form2 form1 then form2 else form1).
  destruct (getPaths_loop_returns c top bottom domain) with (fuel := fuel)
    (n := 1%nat) (paths := [[bottom]]) as (result & -> & _ & _).
  - unfold bottom. by destruct (containsb form1 form2).
  - apply Forall_forall. intros f Hf. unfold domain in Hf.
    apply elem_of_list_of_set, elem_of_app in Hf as [Hf|Hf].
    + apply list_elem_of_filter in Hf as [_ Hf].
      rewrite Forall_forall in Hpool. by apply Hpool.
    + apply elem_of_cons in Hf as [->|Hf]; [done|].
      by apply list_elem_of_singleton in Hf as ->.
  - done.
  - apply Forall_singleton. constructor.
  - by apply Forall_singleton.
  - assert (length domain ≤ length pool + 2)%nat; [|lia].
    unfold domain. rewrite list_of_set_perm.
    etrans; [apply remove_dups_length|].
    rewrite length_app. simpl.
    pose proof (length_filter (λ f, isBetween f form1 form2) pool). lia.
  - cbn [mbind option_bind]. destruct (bool_decide _); by eexists.
Qed.
Lemma chain_from_head top domain bottom p :
  chain_from top domain bottom p → ∃ q, p = bottom :: q.
Proof.
  induction 1 as [|p lst e _ [q ->] _ _ _ _]; [by exists []|].
  by exists (q ++ [e]).
Qed.

(** The members of the domain in which [getPaths] searches. *)
Lemma elem_of_getPaths_domain form1 form2 pool e :
  e ∈ list_of_set (filter (λ f, isBetween f form1 form2) pool
                   ++ [form1; form2])
  ↔ (e ∈ pool ∧ isBetween e form1 form2 = true) ∨ e = form1 ∨ e = form2.
Proof.
  rewrite elem_of_list_of_set, elem_of_app, list_elem_of_filter.
  rewrite !elem_of_cons, elem_of_nil, Is_true_true. tauto.
Qed.

(** What holds of every path that [getPaths] returns for two forms
    that are not in immediate containment: put behind the lower
    endpoint, it goes up from there by immediate steps, through
    members of the domain that the upper endpoint contains. *)
Lemma getPaths_paths_are_chains fuel form1 form2 pool result :
  containment form1 form2 = true →
  immediateContainment form1 form2 = false →
  getPaths fuel form1 form2 pool = Some result →
  ∀ item, item ∈ result →
    ∃ p, item = ItemPath p
      ∧ chain_from (if containsb form2 form1 then form2 else form1)
          (list_of_set (filter (λ f, isBetween f form1 form2) pool
                        ++ [form1; form2]))
          (if containsb form1 form2 then form2 else form1)
          ((if containsb form1 form2 then form2 else form1) :: p).
Proof.
  intros Hc Himm. rewrite getPaths_not_immediate by done. cbv zeta.
  set (domain := list_of_set _).
  set (bottom := if containsb form1 form2 then form2 else form1).
  set (top := if containsb form2 form1 then form2 else form1).
  destruct (getPaths_loop fuel top domain [[bottom]]) as [paths|] eqn:Hloop;
    [|done].
  cbn [mbind option_bind]. intros Hr item Hitem.
  apply (getPaths_loop_chains top bottom) in Hloop;
    [|apply Forall_singleton; constructor].
  destruct (bool_decide (paths = [[bottom]])); injection Hr as <-.
  { by apply elem_of_nil in Hitem. }
  apply list_elem_of_fmap in Hitem as (p & -> & Hp).
  rewrite Forall_forall in Hloop. specialize (Hloop p Hp).
  exists (tail p). split; [done|].
  by destruct (chain_from_head _ _ _ _ Hloop) as [q ->].
Qed.
End returns.

(** ** Bad cells and ABA *)

Section isAba_returns.
Context `{PySetOrder}.

Lemma isBadCell_loop_more_fuel fuel fuel' cell pairs b :
  isBadCell_loop fuel cell pairs = Some b → (fuel ≤ fuel')%nat →
  isBadCell_loop fuel' cell pairs = Some b.
Proof.
  intros Hb Hle. induction pairs as [|p pairs IH]; [done|].
  cbn [isBadCell_loop] in *.
  destruct (getPaths fuel p.1 p.2 cell) as [paths|] eqn:Hp; [|done].
  rewrite (getPaths_more_fuel fuel fuel' _ _ _ _ Hp Hle).
  cbn [mbind option_bind] in *.
  destruct (length paths =? 0)%nat; [done|]. by apply IH.
Qed.

Lemma isAba_more_fuel fuel fuel' partition b :
  isAba fuel partition = Some b → (fuel ≤ fuel')%nat →
  isAba fuel' partition = Some b.
Proof.
  intros Hb Hle. induction partition as [|cell partition IH]; [done|].
  cbn [isAba] in *. destruct (1 <? length cell)%nat; [|by apply IH].
  by apply (isBadCell_loop_more_fuel fuel).
Qed.

Lemma elem_of_containment_pairs cell f g :
  (f, g) ∈ containment_pairs cell → f ∈ cell ∧ g ∈ cell.
Proof.
  unfold containment_pairs.
  intros (f' & (g' & Hfg & Hg)%list_elem_of_bind & Hf)%list_elem_of_bind.
  destruct (nonImmediateContains g' f'); [|by apply elem_of_nil in Hfg].
  apply list_elem_of_singleton in Hfg as [= -> ->]. done.
Qed.

Lemma isBadCell_returns c fuel cell :
  Forall (λ f, type_of f = c) cell → (length cell + 3 ≤ fuel)%nat →
  is_Some (isBadCell fuel cell).
Proof.
  intros Hcell Hfuel. unfold isBadCell.
  pose proof (elem_of_containment_pairs cell) as Hpairs.
  induction (containment_pairs cell) as [|[f g] pairs IH]; [by eexists|].
  cbn [isBadCell_loop fst snd].
  destruct (Hpairs f g) as [Hf Hg]; [by left|].
  rewrite Forall_forall in Hcell.
  destruct (getPaths_returns c fuel f g cell) as [paths ->]; auto.
  { by apply Forall_forall. }
  cbn [mbind option_bind]. destruct (length paths =? 0)%nat; [by eexists|].
  apply IH. intros f' g' Hin. apply Hpairs. by right.
Qed.

Lemma isAba_returns c fuel partition :
  Forall (Forall (λ f, type_of f = c)) partition →
  Forall (λ cell, (length cell + 3 ≤ fuel)%nat) partition →
  is_Some (isAba fuel partition).
Proof.
  intros Hcls Hfuel.
  induction partition as [|cell partition IH]; [by eexists|].
  apply Forall_cons_1 in Hcls as [Hc Hcls].
  apply Forall_cons_1 in Hfuel as [Hf Hfuel].
  cbn [isAba]. destruct (1 <? length cell)%nat; [|by apply IH].
  by apply (isBadCell_returns c).
Qed.
End isAba_returns.

Section isAba_facts.
Context `{PySetOrder}.

Lemma isAba_find fuel partition :
  isAba fuel partition
  = match List.find (λ cell, (1 <? length cell)%nat) partition with
    | Some cell => isBadCell fuel cell
    | None => Some false
    end.
Proof.
  induction partition as [|cell rest IH]; [done|].
  cbn [isAba List.find]. by destruct (1 <? length cell)%nat.
Qed.

(** [[NForm(), NForm('acc')]] is a bad cell: nothing in it lies
    between its two members, which are two steps apart. *)
Lemma isBadCell_zero_acc fuel :
  isBadCell (S fuel) [n_zero; n_acc] = Some true.
Proof.
  unfold isBadCell.
  assert (containment_pairs [n_zero; n_acc] = [(n_zero, n_acc)])
    as -> by (by vm_compute).
  cbn [isBadCell_loop fst snd].
  rewrite getPaths_not_immediate by (by vm_compute). cbv zeta.
  assert ((if containsb n_zero n_acc then n_acc else n_zero) = n_zero)
    as -> by (by vm_compute).
  assert ((if containsb n_acc n_zero then n_acc else n_zero) = n_acc)
    as -> by (by vm_compute).
  assert (filter (λ f, isBetween f n_zero n_acc) [n_zero; n_acc]
            ++ [n_zero; n_acc] = [n_zero; n_acc]) as -> by (by vm_compute).
  pose proof (list_of_set_perm [n_zero; n_acc]) as Hperm.
  assert (remove_dups [n_zero; n_acc] = [n_zero; n_acc])
    as Hdups by (by vm_compute).
  rewrite Hdups in Hperm. clear Hdups.
  generalize dependent (list_of_set [n_zero; n_acc]).
  intros domain Hperm.
  rewrite (getPaths_loop_stop _ _ _ _ []); [| |by right].
  2:{ apply (extend_paths_single n_acc domain [n_zero] n_zero []);
        [done|by vm_compute|].
      apply (filter_perm_nil _ _ _ Hperm). by vm_compute. }
  cbn [mbind option_bind]. by rewrite bool_decide_eq_true_2.
Qed.

Lemma Forall_length_concat {A} (part : list (list A)) :
  Forall (λ cell, (length cell ≤ length (concat part))%nat) part.
Proof.
  induction part as [|cell part IH]; [done|].
  cbn [concat]. rewrite length_app. constructor; [lia|].
  eapply Forall_impl; [exact IH|]. intros cell' Hc. simpl in Hc. lia.
Qed.

(** On a partition of forms of one class [isAba] returns, and returns
    the same for every fuel that exceeds the size of its cells by
    three. *)
Lemma isAba_enough_fuel c partition :
  Forall (Forall (λ f, type_of f = c)) partition →
  ∃ b, ∀ fuel, Forall (λ cell, (length cell + 3 ≤ fuel)%nat) partition →
               isAba fuel partition = Some b.
Proof.
  intros Hcls.
  destruct (isAba_returns c (length (concat partition) + 3) partition Hcls)
    as [b Hb].
  { eapply Forall_impl; [apply Forall_length_concat|].
    intros cell Hc. simpl in Hc. lia. }
  exists b. intros fuel Hfuel.
  destruct (isAba_returns c fuel partition Hcls Hfuel) as [b' Hb'].
  pose proof (isAba_more_fuel _ (fuel `max` (length (concat partition) + 3))
                _ _ Hb ltac:(lia)) as H1.
  pose proof (isAba_more_fuel _ (fuel `max` (length (concat partition) + 3))
                _ _ Hb' ltac:(lia)) as H2.
  congruence.
Qed.

(** C6.  [isAba] is [isBadCell] of the first cell with more than one
    member, and [False] when there is none; on forms of one class it
    returns for every fuel that exceeds the size of the cells by
    three.  Later cells do not count: with the bad cell
    [[NForm(), NForm('acc')]] behind the good cell
    [[NForm(), NForm('nom')]], [isAba] is [False]. *)
Theorem isAba_first_multi_member_cell :
  (∀ fuel partition,
     isAba fuel partition
     = match List.find (λ cell, (1 <? length cell)%nat) partition with
       | Some cell => isBadCell fuel cell
       | None => Some false
       end)
  ∧ (∀ c partition,
       Forall (Forall (λ f, type_of f = c)) partition →
       ∃ b, ∀ fuel,
         Forall (λ cell, (length cell + 3 ≤ fuel)%nat) partition →
         isAba fuel partition = Some b)
  ∧ (∀ fuel,
       isBadCell (S fuel) [n_zero; n_acc] = Some true
       ∧ isBadCell (S fuel) [n_zero; n_nom] = Some false
       ∧ isAba (S fuel) [[n_sg]; [n_zero; n_nom]; [n_zero; n_acc]]
         = Some false).
Proof.
  split; [apply isAba_find|]. split; [apply isAba_enough_fuel|]. intros fuel.
  assert (isBadCell (S fuel) [n_zero; n_nom] = Some false) as Hgood.
  { unfold isBadCell.
    by assert (containment_pairs [n_zero; n_nom] = []) as ->
      by (by vm_compute). }
  split; [apply isBadCell_zero_acc|]. split; [done|].
  by rewrite isAba_find.
Qed.
End isAba_facts.

(** ** Max and Dep *)

Lemma filter_agree {A} (P Q : A → Prop)
    `{∀ x, Decision (P x)} `{∀ x, Decision (Q x)} (l : list A) :
  Forall (λ x, P x ↔ Q x) l → filter P l = filter Q l.
Proof.
  induction 1 as [|x l Hx _ IH]; [done|].
  destruct (decide (P x)).
  - rewrite !filter_cons_True by tauto. by rewrite IH.
  - rewrite !filter_cons_False by tauto. done.
Qed.

Lemma filter_all {A} (P : A → Prop) `{∀ x, Decision (P x)} (l : list A) :
  Forall P l → filter P l = l.
Proof.
  induction 1 as [|x l Hx _ IH]; [done|].
  rewrite filter_cons_True by done. by rewrite IH.
Qed.

Lemma filter_none {A} (P : A → Prop) `{∀ x, Decision (P x)} (l : list A) :
  Forall (λ x, ¬ P x) l → filter P l = [].
Proof.
  induction 1 as [|x l Hx _ IH]; [done|].
  by rewrite filter_cons_False by done.
Qed.

Section DepOrMax_facts.
Variable constr : PyVal → PyVal → option Z.
Variable features : list string.
Variable ur : MorphForm.
Variable score : MorphForm → Z.

Lemma filter_none_above best (l : list MorphForm) s :
  Forall (λ c, best ≤ score c) l → s < best →
  filter (λ c, score c = s) l = [].
Proof.
  intros Hall Hlt. induction Hall as [|c l Hc _ IH]; [done|].
  rewrite filter_cons_False by lia. done.
Qed.

Lemma DepOrMax_loop_scan rest : ∀ seen best winners,
  (∀ c, c ∈ rest → total_score constr features ur c = Some (score c)) →
  scan_state score seen best winners →
  ∃ best', scan_state score (seen ++ rest) best'
             (filter (λ c, score c = best') (seen ++ rest))
           ∧ DepOrMax_loop constr features ur rest (Some best) winners
             = Some (filter (λ c, score c = best') (seen ++ rest)).
Proof.
  induction rest as [|form rest IH]; intros seen best winners Hsc Hst.
  - exists best. rewrite app_nil_r. destruct Hst as (Hle & Hex & ->).
    by repeat split.
  - cbn [DepOrMax_loop]. rewrite Hsc by left. cbn [mbind option_bind].
    assert (∀ c, c ∈ rest →
                 total_score constr features ur c = Some (score c)) as Hsc'
      by (intros; apply Hsc; by right).
    replace (seen ++ form :: rest) with ((seen ++ [form]) ++ rest)
      by (by rewrite <- app_assoc).
    destruct Hst as (Hle & Hex & ->).
    rewrite Z.gtb_ltb.
    destruct (Z.ltb_spec best (score form)) as [Hlt|Hge];
      [|destruct (Z.eqb_spec (score form) best) as [Heq|Hne]].
    + apply IH; [done|]. repeat split.
      * apply Forall_app. split; [done|]. apply Forall_singleton. lia.
      * apply Exists_app. by left.
      * rewrite filter_app, filter_cons_False, app_nil_r by lia. done.
    + apply IH; [done|]. repeat split.
      * apply Forall_app. split; [done|]. apply Forall_singleton. lia.
      * apply Exists_app. by left.
      * rewrite filter_app, filter_cons_True by done. done.
    + apply IH; [done|]. repeat split.
      * apply Forall_app. split; [|apply Forall_singleton; lia].
        eapply Forall_impl; [exact Hle|]. simpl. lia.
      * apply Exists_app. right. by apply Exists_cons_hd.
      * rewrite filter_app, (filter_none_above best) by (done || lia).
        by rewrite filter_cons_True by done.
Qed.

Lemma scan_state_minimal l best c :
  Forall (λ c, best ≤ score c) l → Exists (λ c, score c = best) l →
  Forall (λ c', score c ≤ score c') l ↔ score c ≤ best.
Proof.
  intros Hle Hex. split.
  - intros Hmin. apply Exists_exists in Hex as (c' & Hin & <-).
    rewrite Forall_forall in Hmin. by apply Hmin.
  - intros Hc. eapply Forall_impl; [exact Hle|]. simpl. lia.
Qed.

Lemma DepOrMax_least (candidates : list MorphForm) :
  (∀ c, c ∈ candidates →
        total_score constr features ur c = Some (score c)) →
  DepOrMax constr features ur candidates
  = Some (filter (λ c, Forall (λ c', score c ≤ score c') candidates)
                 candidates).
Proof.
  intros Hsc. unfold DepOrMax. destruct candidates as [|form rest]; [done|].
  cbn [DepOrMax_loop]. rewrite Hsc by left. cbn [mbind option_bind app].
  destruct (DepOrMax_loop_scan rest [form] (score form) [form])
    as (best & (Hle & Hex & _) & ->).
  - intros; apply Hsc; by right.
  - repeat split.
    + by apply Forall_singleton.
    + by apply Exists_cons_hd.
    + by rewrite filter_cons_True by done.
  - f_equal. simpl. apply filter_agree.
    eapply Forall_impl; [exact Hle|]. intros c Hc. simpl in Hc.
    rewrite (scan_state_minimal _ best) by done. lia.
Qed.

(** C7.  When the scoring function returns a score for every
    candidate, [DepOrMax] returns the candidates whose total score
    is the least one, in their order: none for no candidate, all of
    them when all scores are equal. *)
Theorem DepOrMax_min_scorers (candidates : list MorphForm) :
  (∀ c, c ∈ candidates →
        total_score constr features ur c = Some (score c)) →
  DepOrMax constr features ur candidates
  = Some (filter (λ c, Forall (λ c', score c ≤ score c') candidates)
                 candidates)
  ∧ (candidates = [] → DepOrMax constr features ur candidates = Some [])
  ∧ ((∀ c c', c ∈ candidates → c' ∈ candidates → score c = score c') →
     DepOrMax constr features ur candidates = Some candidates).
Proof.
  intros Hsc. pose proof (DepOrMax_least candidates Hsc) as Heq.
  split; [exact Heq|]. split.
  - by intros ->.
  - intros Htied. rewrite Heq. f_equal.
    apply filter_all. apply Forall_forall. intros c Hc.
    apply Forall_forall. intros c' Hc'. by rewrite (Htied c c').
Qed.

Lemma DepOrMax_loop_raises (candidates : list MorphForm) c :
  c ∈ candidates → total_score constr features ur c = None →
  ∀ best winners,
    DepOrMax_loop constr features ur candidates best winners = None.
Proof.
  intros Hin Hnone.
  induction candidates as [|form rest IH]; intros best winners.
  - by apply elem_of_nil in Hin.
  - cbn [DepOrMax_loop].
    destruct (total_score constr features ur form) as [s|] eqn:Hs; [|done].
    cbn [mbind option_bind].
    apply elem_of_cons in Hin as [->|Hin]; [congruence|].
    destruct best as [b|]; [|by apply IH].
    destruct (s >? b); [by apply IH|]. destruct (s =? b); by apply IH.
Qed.

(** A scoring function that raises on some candidate makes
    [DepOrMax] raise. *)
Lemma DepOrMax_raises (candidates : list MorphForm) c :
  c ∈ candidates → total_score constr features ur c = None →
  DepOrMax constr features ur candidates = None.
Proof. intros. by eapply DepOrMax_loop_raises. Qed.
End DepOrMax_facts.

Lemma DepOrMax_min_scorers_witness :
  let candidates := [n_zero; n_nom; n_dat; n_acc] in
  let score := λ c, default 0 (total_score MaxSubroutine ["Case"] n_acc c) in
  (∀ c, c ∈ candidates →
        total_score MaxSubroutine ["Case"] n_acc c = Some (score c))
  ∧ DepOrMax MaxSubroutine ["Case"] n_acc candidates
    = Some (filter (λ c, Forall (λ c', score c ≤ score c') candidates)
                   candidates).
Proof.
  intros candidates score.
  assert (∀ c, c ∈ candidates →
               total_score MaxSubroutine ["Case"] n_acc c = Some (score c))
    as Hsc.
  { intros c Hc. unfold candidates in Hc.
    repeat (apply elem_of_cons in Hc as [->|Hc]; [by vm_compute|]).
    by apply elem_of_nil in Hc. }
  split; [exact Hsc|].
  apply (DepOrMax_min_scorers MaxSubroutine ["Case"] n_acc score candidates
           Hsc).
Defined.

(** ** Eval *)

Lemma otEval_short rank ur_form candidates :
  (length candidates ≤ 1)%nat →
  otEval rank ur_form candidates = Some candidates.
Proof.
  intros Hlen. destruct rank as [|constraint rank]; [done|].
  cbn [otEval]. by rewrite (proj2 (Nat.ltb_ge _ _) Hlen).
Qed.

(** C8.  [otEval] applies the constraints of the ranking in order, each
    to the output of the one before, up to some position [n]: every
    constraint before [n] met more than one candidate, and if [n] is
    not the end of the ranking, what was left at [n] has at most one
    member (or a constraint raised).  A list of at most one candidate
    comes back as it is, with no constraint applied. *)
Theorem otEval_stops_at_one rank ur_form candidates :
  (∃ n, (n ≤ length rank)%nat
     ∧ otEval rank ur_form candidates
       = apply_in_order (take n rank) ur_form candidates
     ∧ (∀ m, (m < n)%nat →
          ∃ cs, apply_in_order (take m rank) ur_form candidates = Some cs
                ∧ (1 < length cs)%nat)
     ∧ ((n < length rank)%nat →
        ∀ cs, apply_in_order (take n rank) ur_form candidates = Some cs →
              (length cs ≤ 1)%nat))
  ∧ ((length candidates ≤ 1)%nat →
     otEval rank ur_form candidates = Some candidates)
  ∧ (∀ x, otEval rank ur_form [x] = Some [x]).
Proof.
  split; [|split; [apply otEval_short|intros x; by apply otEval_short]].
  revert candidates.
  induction rank as [|constraint rank IH]; intros candidates.
  { exists 0%nat. repeat split; [done|lia|simpl; lia]. }
  cbn [otEval]. destruct (Nat.ltb_spec 1 (length candidates)) as [Hlt|Hge].
  - destruct (run constraint ur_form candidates) as [candidates'|] eqn:Hrun.
    + destruct (IH candidates') as (n & Hn & Heq & Hbefore & Hat).
      exists (S n). cbn [take apply_in_order length].
      rewrite Hrun. cbn [mbind option_bind]. repeat split.
      * lia.
      * done.
      * intros [|m] Hm; [by exists candidates|].
        cbn [take apply_in_order]. rewrite Hrun. apply Hbefore. lia.
      * intros Hlen. apply Hat. lia.
    + exists 1%nat. cbn [take apply_in_order length].
      rewrite Hrun. repeat split.
      * lia.
      * intros [|m] Hm; [by exists candidates|lia].
      * done.
  - exists 0%nat. cbn [take apply_in_order length]. repeat split.
    + lia.
    + lia.
    + intros _ cs [= <-]. done.
Qed.

(** ** Dictionaries in insertion order *)

Lemma dict_set_keys {K V} `{EqDecision K} (d : list (K * V)) k v :
  (dict_set d k v).*1 = if decide (k ∈ d.*1) then d.*1 else d.*1 ++ [k].
Proof.
  induction d as [|[k' v'] d IH]; [done|].
  cbn [dict_set]. destruct (decide (k' = k)) as [->|Hne].
  - cbn [fmap list_fmap fst]. rewrite decide_True; [done|by left].
  - cbn [fmap list_fmap fst] in *. rewrite IH.
    destruct (decide (k ∈ d.*1)) as [Hin|Hnin].
    + rewrite decide_True; [done|by right].
    + rewrite decide_False; [done|].
      intros [?|?]%elem_of_cons; [congruence|done].
Qed.

Lemma dict_set_keys_NoDup {K V} `{EqDecision K} (d : list (K * V)) k v :
  NoDup d.*1 → NoDup (dict_set d k v).*1.
Proof.
  intros Hnd. rewrite dict_set_keys. case_decide; [done|].
  apply NoDup_app. repeat split; [done| |apply NoDup_singleton].
  intros x Hx ->%list_elem_of_singleton. done.
Qed.

Lemma dict_set_keys_elem {K V} `{EqDecision K} (d : list (K * V)) k v x :
  x ∈ (dict_set d k v).*1 ↔ x = k ∨ x ∈ d.*1.
Proof.
  rewrite dict_set_keys. case_decide.
  - split; [by right|]. by intros [->|?].
  - rewrite elem_of_app, list_elem_of_singleton. tauto.
Qed.

Lemma dict_append_values {K V} `{EqDecision K} (d : list (K * list V)) k v :
  concat (dict_append d k v).*2 ≡ₚ concat d.*2 ++ [v].
Proof.
  induction d as [|[k' vs] d IH]; [done|].
  cbn [dict_append]. destruct (decide (k' = k)) as [->|Hne].
  - cbn [fmap list_fmap snd concat]. rewrite <- !app_assoc.
    apply Permutation_app_head. apply Permutation_app_comm.
  - cbn [fmap list_fmap snd concat] in *. rewrite IH. by rewrite app_assoc.
Qed.

Lemma dict_append_nonempty {K V} `{EqDecision K} (d : list (K * list V)) k v :
  Forall (λ cell, cell ≠ []) d.*2 →
  Forall (λ cell, cell ≠ []) (dict_append d k v).*2.
Proof.
  induction d as [|[k' vs] d IH]; intros Hd.
  - repeat constructor. done.
  - cbn [dict_append]. apply Forall_cons_1 in Hd as [Hvs Hd].
    destruct (decide (k' = k)) as [->|Hne]; cbn [fmap list_fmap snd].
    + constructor; [|done]. by destruct vs.
    + constructor; [done|]. by apply IH.
Qed.

Section partition_facts.
Context `{PySorted}.

Lemma group_items_from (items : list (MorphForm * string)) : ∀ res,
  Forall (λ cell, cell ≠ []) res.*2 →
  let res' := foldl (λ res kv, dict_append res kv.2 kv.1) res items in
  Forall (λ cell, cell ≠ []) res'.*2
  ∧ concat res'.*2 ≡ₚ concat res.*2 ++ items.*1.
Proof.
  induction items as [|[k s] items IH]; intros res Hres.
  - simpl. by rewrite app_nil_r.
  - cbn [foldl fst snd]. cbn zeta in *.
    destruct (IH (dict_append res s k)) as [Hne Hperm].
    { by apply dict_append_nonempty. }
    split; [done|]. rewrite Hperm, dict_append_values.
    cbn [fmap list_fmap fst]. by rewrite <- app_assoc.
Qed.

Lemma group_items_cells (items : list (MorphForm * string)) :
  Forall (λ cell, cell ≠ []) (group_items items).*2
  ∧ concat (group_items items).*2 ≡ₚ items.*1.
Proof. apply (group_items_from items []). constructor. Qed.

Lemma winners_loop_keys rank sr_forms ur_forms : ∀ winners,
  (∀ ur, ur ∈ ur_forms → is_Some (otEval rank ur sr_forms)) →
  NoDup winners.*1 →
  ∃ winners', winners_loop rank sr_forms ur_forms winners = Some winners'
    ∧ NoDup winners'.*1
    ∧ ∀ f, f ∈ winners'.*1 ↔ f ∈ winners.*1 ∨ f ∈ ur_forms.
Proof.
  induction ur_forms as [|ur ur_forms IH]; intros winners Hev Hnd.
  - exists winners. repeat split; [done|by left|].
    intros [?|?%elem_of_nil]; done.
  - cbn [winners_loop]. destruct (Hev ur) as [w Hw]; [by left|].
    rewrite Hw. cbn [mbind option_bind].
    destruct (IH (dict_set winners ur w)) as (winners' & Heq & Hnd' & Hin).
    { intros; apply Hev; by right. }
    { by apply dict_set_keys_NoDup. }
    exists winners'. repeat split; [done|done| |].
    + intros Hf. apply Hin in Hf as [Hf|Hf]; [|right; by right].
      apply dict_set_keys_elem in Hf as [->|Hf]; [right; by left|by left].
    + intros Hf. apply Hin. rewrite dict_set_keys_elem, elem_of_cons in *.
      tauto.
Qed.

Lemma winners_loop_raises rank sr_forms ur_forms ur : ∀ winners,
  ur ∈ ur_forms → otEval rank ur sr_forms = None →
  winners_loop rank sr_forms ur_forms winners = None.
Proof.
  induction ur_forms as [|ur' ur_forms IH]; intros winners Hin Hnone.
  - by apply elem_of_nil in Hin.
  - cbn [winners_loop].
    destruct (otEval rank ur' sr_forms) as [w|] eqn:Hw; [|done].
    apply elem_of_cons in Hin as [->|Hin]; [congruence|].
    cbn [mbind option_bind]. by apply IH.
Qed.
End partition_facts.

Lemma elem_of_concat {A} (x : A) (ls : list (list A)) :
  x ∈ concat ls ↔ ∃ l, l ∈ ls ∧ x ∈ l.
Proof.
  induction ls as [|l ls IH]; cbn [concat].
  - split; [by intros ?%elem_of_nil|]. by intros (l & ?%elem_of_nil & _).
  - rewrite elem_of_app, IH. split.
    + intros [Hx|(l' & Hl' & Hx)]; [exists l; split; [by left|done]|].
      exists l'. split; [by right|done].
    + intros (l' & [->|Hl']%elem_of_cons & Hx); [by left|].
      right. by exists l'.
Qed.

Lemma NoDup_concat_disjoint {A} (part : list (list A)) i j c1 c2 :
  NoDup (concat part) → i ≠ j →
  part !! i = Some c1 → part !! j = Some c2 →
  ∀ f, f ∈ c1 → f ∉ c2.
Proof.
  revert i j.
  induction part as [|c part IH]; intros i j Hnd Hij H1 H2 f Hf1 Hf2.
  { by rewrite lookup_nil in H1. }
  cbn [concat] in Hnd. apply NoDup_app in Hnd as (_ & Hdisj & Hnd).
  destruct i as [|i], j as [|j]; simplify_eq/=.
  - apply (Hdisj f Hf1). apply elem_of_concat. exists c2.
    split; [by eapply list_elem_of_lookup_2|done].
  - apply (Hdisj f Hf2). apply elem_of_concat. exists c1.
    split; [by eapply list_elem_of_lookup_2|done].
  - apply (IH i j Hnd ltac:(congruence) H1 H2 f Hf1 Hf2).
Qed.

Section getWinnerPartition_facts.
Context `{PySorted}.

(** C10.  When Eval returns for every underlying form, the winner
    partition has no empty cell, no form twice (within a cell or
    across cells), and its members are the underlying forms, each
    distinct one once. *)
Theorem getWinnerPartition_cells rank ur_forms sr_forms :
  (∀ ur, ur ∈ ur_forms → is_Some (otEval rank ur sr_forms)) →
  ∃ part, getWinnerPartition rank ur_forms sr_forms = Some part
    ∧ Forall (λ cell, cell ≠ []) part
    ∧ NoDup (concat part)
    ∧ (∀ i j c1 c2, i ≠ j → part !! i = Some c1 → part !! j = Some c2 →
         ∀ f, f ∈ c1 → f ∉ c2)
    ∧ (∀ f, f ∈ concat part ↔ f ∈ ur_forms)
    ∧ concat part ≡ₚ remove_dups ur_forms.
Proof.
  intros Hev. unfold getWinnerPartition.
  destruct (winners_loop_keys rank sr_forms ur_forms [] Hev)
    as (winners & -> & Hnd & Hin); [constructor|].
  cbn [mbind option_bind]. eexists. split; [done|].
  destruct (group_items_cells
              (sorted_items ((λ kv, (kv.1, str_list kv.2)) <$> winners)))
    as [Hne Hperm].
  assert ((sorted_items ((λ kv, (kv.1, str_list kv.2)) <$> winners)).*1
          ≡ₚ winners.*1) as Hkeys.
  { rewrite sorted_items_perm, <- list_fmap_compose. done. }
  rewrite Hkeys in Hperm.
  assert (NoDup (concat (group_items
            (sorted_items ((λ kv, (kv.1, str_list kv.2)) <$> winners))).*2))
    as Hnd' by (by rewrite Hperm).
  assert (∀ f, f ∈ concat (group_items
            (sorted_items ((λ kv, (kv.1, str_list kv.2)) <$> winners))).*2
            ↔ f ∈ ur_forms) as Hmem.
  { intros f. rewrite Hperm, Hin, elem_of_nil. tauto. }
  repeat split; [done|done| | | |].
  - intros i j c1 c2. by apply NoDup_concat_disjoint.
  - by apply Hmem.
  - by apply Hmem.
  - apply NoDup_Permutation; [done|apply NoDup_remove_dups|].
    intros f. by rewrite Hmem, elem_of_remove_dups.
Qed.

Lemma getWinnerPartition_returns rank ur_forms sr_forms :
  (∀ ur, ur ∈ ur_forms → is_Some (otEval rank ur sr_forms)) →
  is_Some (getWinnerPartition rank ur_forms sr_forms).
Proof.
  intros Hev. unfold getWinnerPartition.
  destruct (winners_loop_keys rank sr_forms ur_forms [] Hev)
    as (winners & -> & _); [constructor|]. by eexists.
Qed.

(** If Eval raises for some underlying form, so does
    [getWinnerPartition]. *)
Lemma getWinnerPartition_raises rank ur_forms sr_forms ur :
  ur ∈ ur_forms → otEval rank ur sr_forms = None →
  getWinnerPartition rank ur_forms sr_forms = None.
Proof.
  intros Hin Hnone. unfold getWinnerPartition.
  by rewrite (winners_loop_raises rank sr_forms ur_forms ur).
Qed.
End getWinnerPartition_facts.

Lemma getWinnerPartition_cells_witness :
  let rank := [nform.MaxCase; nform.DepCase] in
  let ur_forms := [n_zero; n_nom; n_acc; n_dat; n_nom] in
  let sr_forms := [n_nom; n_dat] in
  (∀ ur, ur ∈ ur_forms → is_Some (otEval rank ur sr_forms))
  ∧ ∃ part, @getWinnerPartition merge_sorted rank ur_forms sr_forms = Some part
      ∧ Forall (λ cell, cell ≠ []) part
      ∧ NoDup (concat part)
      ∧ (∀ i j c1 c2, i ≠ j → part !! i = Some c1 → part !! j = Some c2 →
           ∀ f, f ∈ c1 → f ∉ c2)
      ∧ (∀ f, f ∈ concat part ↔ f ∈ ur_forms)
      ∧ concat part ≡ₚ remove_dups ur_forms.
Proof.
  intros rank ur_forms sr_forms.
  assert (∀ ur, ur ∈ ur_forms → is_Some (otEval rank ur sr_forms)) as Hev.
  { intros ur Hur. unfold ur_forms in Hur.
    repeat (apply elem_of_cons in Hur as [->|Hur];
            [vm_compute; eexists; reflexivity|]).
    by apply elem_of_nil in Hur. }
  split; [exact Hev|].
  apply (@getWinnerPartition_cells merge_sorted rank ur_forms sr_forms Hev).
Defined.

(** ** The search *)

Section search_loops.
Context `{PySorted}.

Lemma good_ranks_loop_reported stop urs vocab ur_partition rankings :
  (∀ rank, rank ∈ rankings →
           is_Some (getWinnerPartition rank urs vocab)) →
  ∀ good_ranks,
    good_ranks_loop stop urs vocab ur_partition rankings good_ranks
    = Some (good_ranks
            ++ reported_rankings stop
                 (succeeding_rankings urs vocab ur_partition rankings)).
Proof.
  unfold reported_rankings, succeeding_rankings.
  induction rankings as [|rank rankings IH]; intros Hret good_ranks.
  - destruct stop; cbn; by rewrite app_nil_r.
  - cbn [good_ranks_loop].
    destruct (Hret rank) as [wpart Hw]; [by left|].
    rewrite Hw. cbn [mbind option_bind].
    assert (reproduces urs vocab ur_partition rank
            = areSamePartitions wpart ur_partition) as Hrep
      by (unfold reproduces; by rewrite Hw).
    destruct (areSamePartitions wpart ur_partition) eqn:Hsame.
    + rewrite filter_cons_True by (rewrite Hrep; exact I).
      destruct stop; [done|].
      rewrite IH by (intros; apply Hret; by right).
      cbn [fmap list_fmap]. by rewrite <- app_assoc.
    + rewrite filter_cons_False by (rewrite Hrep; exact id).
      apply IH. intros; apply Hret; by right.
Qed.

Lemma reported_rankings_length stop succeeding :
  (0 <? length (reported_rankings stop succeeding))%nat
  = match succeeding with [] => false | _ => true end.
Proof. unfold reported_rankings. by destruct stop, succeeding. Qed.

Lemma vocab_loop_entries stop urs ur_partition rankings vocab_list :
  (∀ vocab rank, vocab ∈ vocab_list → rank ∈ rankings →
                 is_Some (getWinnerPartition rank urs vocab)) →
  ∀ success_pairs,
    vocab_loop stop urs ur_partition rankings vocab_list success_pairs
    = Some (success_pairs
            ++ success_entries stop urs ur_partition rankings vocab_list).
Proof.
  induction vocab_list as [|vocab vocab_list IH]; intros Hret success_pairs.
  - cbn. by rewrite app_nil_r.
  - cbn [vocab_loop].
    rewrite good_ranks_loop_reported
      by (intros rank Hrank; apply Hret; [by left|done]).
    cbn [mbind option_bind app]. rewrite reported_rankings_length.
    unfold success_entries. cbn [omap list_omap].
    destruct (succeeding_rankings urs vocab ur_partition rankings)
      as [|rank succeeding] eqn:Hsucc.
    + apply IH. intros v r Hv Hr; apply Hret; [by right|done].
    + rewrite IH by (intros v r Hv Hr; apply Hret; [by right|done]).
      by rewrite <- app_assoc.
Qed.
End search_loops.

(** ** Products and combinations *)

Lemma elem_of_product {A} (ls : list (list A)) (t : list A) :
  t ∈ product ls ↔ Forall2 (λ x l, x ∈ l) t ls.
Proof.
  revert t. induction ls as [|l ls IH]; intros t; cbn [product].
  - rewrite list_elem_of_singleton. split; [by intros ->|].
    by intros ->%Forall2_nil_inv_r.
  - rewrite list_elem_of_bind. split.
    + intros (x & (t' & -> & Ht')%list_elem_of_fmap & Hx).
      constructor; [done|]. by apply IH.
    + intros (x & t' & Hx & Ht' & ->)%Forall2_cons_inv_r.
      exists x. split; [|done]. apply list_elem_of_fmap.
      exists t'. split; [done|]. by apply IH.
Qed.

Lemma elem_of_combinations {A} (l : list A) : ∀ r t,
  t ∈ combinations l r ↔ t `sublist_of` l ∧ length t = r.
Proof.
  induction l as [|x l IH]; intros r t.
  - destruct r as [|r]; cbn [combinations].
    + rewrite list_elem_of_singleton, sublist_nil_r.
      split; [by intros ->|by intros [-> _]].
    + rewrite elem_of_nil, sublist_nil_r. split; [done|]. by intros [-> ?].
  - destruct r as [|r]; cbn [combinations].
    + rewrite list_elem_of_singleton. split.
      * intros ->. split; [apply sublist_nil_l|done].
      * intros [_ Hlen]. by destruct t.
    + rewrite elem_of_app, list_elem_of_fmap, sublist_cons_r.
      setoid_rewrite IH. split.
      * intros [(t' & -> & Hsub & <-)|[Hsub Hlen]]; [|by auto].
        split; [right; by exists t'|done].
      * intros [[Hsub|(t' & -> & Hsub)] Hlen]; [by right|].
        left. exists t'. repeat split; [done|]. simpl in Hlen. lia.
Qed.

(** ** The universe of candidate forms *)

(** Every choice of one token per feature builds a form. *)
Lemma construct_returns (c : FormClass) (tokens : list string) :
  Forall2 (λ x l, x ∈ l) tokens (snd <$> feature_val_dict c) →
  is_Some (construct c tokens).
Proof.
  intros Ht%elem_of_product.
  assert (Forall (λ t, is_Some (construct c t))
                 (product (snd <$> feature_val_dict c))) as Hall.
  { destruct c; apply (bool_decide_unpack _); by vm_compute. }
  rewrite Forall_forall in Hall. by apply Hall.
Qed.

Section generateForms_facts.
Context `{PySetOrder}.

Lemma generateForms_args c values tokens :
  tokens ∈ (let all_args :=
              product ((λ kv, list_of_set kv.2) <$> feature_val_dict c) in
            if (length values =? 0)%nat then all_args
            else filter (λ a, size (fs a ∩ fs values) = 0%nat) all_args)
  ↔ token_choice c values tokens.
Proof.
  cbv zeta. unfold token_choice.
  assert (tokens ∈ product ((λ kv, list_of_set kv.2) <$> feature_val_dict c)
          ↔ Forall2 (λ x l, x ∈ l) tokens (snd <$> feature_val_dict c)) as Hall.
  { rewrite elem_of_product, !Forall2_fmap_r.
    split; intros HF; (eapply Forall2_impl; [exact HF|]);
      intros x kv; apply elem_of_list_of_set. }
  destruct values as [|v values].
  - cbn [length Nat.eqb]. rewrite Hall. split; [|by intros [? _]].
    split; [done|]. apply Forall_forall. intros x _. apply not_elem_of_nil.
  - cbn [length Nat.eqb]. rewrite list_elem_of_filter, Hall.
    assert (size (fs tokens ∩ fs (v :: values)) = 0%nat
            ↔ Forall (λ x, x ∉ v :: values) tokens) as Hexcl; [|tauto].
    rewrite size_empty_iff, Forall_forall. unfold fs. split.
    + intros Hempty x Hx Hv. apply (proj1 (elem_of_equiv_empty _) Hempty x).
      apply elem_of_intersection. by rewrite !elem_of_list_to_set.
    + intros Hnone. apply elem_of_equiv_empty. intros x.
      rewrite elem_of_intersection, !elem_of_list_to_set.
      intros [Hx Hv]. by apply (Hnone x).
Qed.

(** [generateForms] returns, and its forms are those built from one
    token per feature, none of them excluded. *)
Lemma generateForms_universe c values :
  ∃ sforms, generateForms c values = Some sforms
    ∧ ∀ f, f ∈ sforms ↔
           ∃ tokens, token_choice c values tokens
                     ∧ construct c tokens = Some f.
Proof.
  unfold generateForms. cbv zeta.
  pose proof (generateForms_args c values) as Hargs. cbv zeta in Hargs.
  generalize dependent
    (if (length values =? 0)%nat
     then product ((λ kv, list_of_set kv.2) <$> feature_val_dict c)
     else filter (λ a, size (fs a ∩ fs values) = 0%nat)
            (product ((λ kv, list_of_set kv.2) <$> feature_val_dict c))).
  intros args Hargs.
  destruct (mapM_is_Some_2 (construct c) args) as [sforms Hs].
  { apply Forall_forall. intros tokens Ht. apply construct_returns.
    by apply Hargs. }
  exists sforms. split; [done|]. intros f.
  apply mapM_Some_1 in Hs. split.
  - intros Hf. apply list_elem_of_lookup_1 in Hf as [i Hi].
    destruct (Forall2_lookup_r _ _ _ _ _ Hs Hi) as (tokens & Ht & Hc).
    exists tokens. split; [|done]. apply Hargs.
    by eapply list_elem_of_lookup_2.
  - intros (tokens & Ht & Hc). apply Hargs in Ht.
    apply list_elem_of_lookup_1 in Ht as [i Hi].
    destruct (Forall2_lookup_l _ _ _ _ _ Hs Hi) as (f' & Hf' & Hc').
    assert (f' = f) as -> by congruence.
    by eapply list_elem_of_lookup_2.
Qed.
End generateForms_facts.

Section search_facts.
Context `{PySetOrder} `{PySorted}.

Lemma success_entries_vocabularies stop urs ur_partition rankings vocab_list :
  (success_entries stop urs ur_partition rankings vocab_list).*1
  = filter (λ vocab,
              succeeding_rankings urs vocab ur_partition rankings ≠ [])
           vocab_list.
Proof.
  unfold success_entries.
  induction vocab_list as [|vocab vocab_list IH]; [done|].
  cbn [omap list_omap].
  destruct (succeeding_rankings urs vocab ur_partition rankings) eqn:Hsucc.
  - rewrite filter_cons_False by (by rewrite Hsucc; intros []).
    done.
  - rewrite filter_cons_True by (by rewrite Hsucc).
    cbn [fmap list_fmap fst]. by rewrite <- IH.
Qed.

Lemma elem_of_success_entries stop urs ur_partition rankings vocab_list
    vocab ranks :
  (vocab, ranks) ∈ success_entries stop urs ur_partition rankings vocab_list
  ↔ vocab ∈ vocab_list
    ∧ succeeding_rankings urs vocab ur_partition rankings ≠ []
    ∧ ranks = reported_rankings stop
                (succeeding_rankings urs vocab ur_partition rankings).
Proof.
  unfold success_entries. rewrite list_elem_of_omap. split.
  - intros (vocab' & Hin & Hentry).
    destruct (succeeding_rankings urs vocab' ur_partition rankings)
      as [|r succeeding] eqn:Hsucc; [done|].
    injection Hentry as <- <-. by rewrite Hsucc.
  - intros (Hin & Hne & ->). exists vocab. split; [done|].
    by destruct (succeeding_rankings urs vocab ur_partition rankings).
Qed.

(** C9.  The search returns one entry for every combination of
    [len(ur_partition)] forms of the generated universe (the forms
    built from one token per feature, none of them excluded) for
    which some ranking reproduces the target partition; the entry
    holds the names of all such rankings, or of the first one when
    [stop] is set; and the result is the empty list when there is no
    such combination.  This as long as no evaluation of a ranking
    raises. *)
Theorem findVocabularyRankingPairs_entries type_of_form ur_partition
    rankings list_values_to_exclude stop :
  ∃ sforms,
    generateForms type_of_form list_values_to_exclude = Some sforms
    ∧ (∀ f, f ∈ sforms ↔
            ∃ tokens, token_choice type_of_form list_values_to_exclude tokens
                      ∧ construct type_of_form tokens = Some f)
    ∧ ((∀ vocab rank,
          vocab ∈ combinations sforms (length ur_partition) →
          rank ∈ rankings →
          is_Some (getWinnerPartition rank (concat ur_partition) vocab)) →
       let vocab_list := combinations sforms (length ur_partition) in
       let succeeding vocab :=
         succeeding_rankings (concat ur_partition) vocab ur_partition
                             rankings in
       ∃ pairs,
         findVocabularyRankingPairs type_of_form ur_partition rankings
                                    list_values_to_exclude stop = Some pairs
         ∧ pairs = success_entries stop (concat ur_partition) ur_partition
                                   rankings vocab_list
         ∧ pairs.*1 = filter (λ vocab, succeeding vocab ≠ []) vocab_list
         ∧ (∀ vocab ranks,
              (vocab, ranks) ∈ pairs ↔
              vocab `sublist_of` sforms
              ∧ length vocab = length ur_partition
              ∧ succeeding vocab ≠ []
              ∧ ranks = reported_rankings stop (succeeding vocab))
         ∧ ((∀ vocab, vocab ∈ vocab_list → succeeding vocab = []) →
            pairs = [])).
Proof.
  destruct (generateForms_universe type_of_form list_values_to_exclude)
    as (sforms & Hgen & Hmem).
  exists sforms. split; [done|]. split; [done|].
  intros Hret vocab_list succeeding. eexists. split.
  { unfold findVocabularyRankingPairs. rewrite Hgen.
    cbn [mbind option_bind]. by rewrite vocab_loop_entries. }
  cbn [app]. split; [done|]. split; [|split].
  - apply success_entries_vocabularies.
  - intros vocab ranks.
    rewrite elem_of_success_entries. unfold vocab_list.
    rewrite elem_of_combinations. unfold succeeding. tauto.
  - intros Hnone.
    assert (∀ l : list (list MorphForm * list (list string)),
               l.*1 = [] → l = []) as Hnil by (by intros []).
    apply Hnil. rewrite success_entries_vocabularies.
    apply filter_none. apply Forall_forall. intros vocab Hin Hne.
    by apply Hne, Hnone.
Qed.
End search_facts.

Lemma findVocabularyRankingPairs_entries_witness :
  @findVocabularyRankingPairs first_seen_order merge_sorted VFormClass
    [[v_zero]; [v_pl]] [[vform.MaxNum; vform.DepNum]]
    ["part"; "auth"; "addr"] true
  = Some [([v_zero; v_pl], [["MaxNum"; "DepNum"]])].
Proof.
  destruct (@findVocabularyRankingPairs_entries first_seen_order merge_sorted
              VFormClass [[v_zero]; [v_pl]] [[vform.MaxNum; vform.DepNum]]
              ["part"; "auth"; "addr"] true)
    as (sforms & Hgen & _ & Hpairs).
  assert (sforms = [v_zero; v_pl]) as ->.
  { vm_compute in Hgen. injection Hgen as <-. by vm_compute. }
  destruct Hpairs as (pairs & -> & -> & _).
  - intros vocab rank Hvocab Hrank.
    cbn [combinations length fmap list_fmap app] in Hvocab.
    apply list_elem_of_singleton in Hvocab as ->.
    apply list_elem_of_singleton in Hrank as ->.
    vm_compute. eexists. reflexivity.
  - by vm_compute.
Defined.

(** ** The constraints of the two classes never raise *)

Lemma getitem_feature c f i :
  type_of f = c → i ∈ (feature_val_dict c).*1 → ∃ v, getitem f i = PySet v.
Proof.
  intros <- Hi. destruct f; cbn in Hi.
  - repeat (apply elem_of_cons in Hi as [->|Hi]; [by eexists|]).
    by apply elem_of_nil in Hi.
  - repeat (apply elem_of_cons in Hi as [->|Hi]; [by eexists|]).
    by apply elem_of_nil in Hi.
Qed.

Lemma total_score_returns c constr features ur form :
  (constr = MaxSubroutine ∨ constr = DepSubroutine) →
  features ⊆ (feature_val_dict c).*1 →
  type_of ur = c → type_of form = c →
  is_Some (total_score constr features ur form).
Proof.
  intros Hconstr Hfeat Hur Hform. unfold total_score.
  destruct (mapM_is_Some_2 (λ i, constr (getitem ur i) (getitem form i))
              features) as [scores ->]; [|by eexists].
  apply Forall_forall. intros i Hi. apply Hfeat in Hi. cbn.
  destruct (getitem_feature c ur i Hur Hi) as [u ->].
  destruct (getitem_feature c form i Hform Hi) as [v ->].
  destruct Hconstr as [-> | ->]; by eexists.
Qed.

Lemma DepOrMax_filters_class c constr features nm :
  (constr = MaxSubroutine ∨ constr = DepSubroutine) →
  features ⊆ (feature_val_dict c).*1 →
  filters_class c {| name := nm; run := DepOrMax constr features |}.
Proof.
  intros Hconstr Hfeat ur candidates Hur Hcands. cbn [run].
  rewrite Forall_forall in Hcands.
  rewrite (DepOrMax_least constr features ur
             (λ f, default 0 (total_score constr features ur f)) candidates).
  - eexists. split; [done|]. apply list_subseteq_filter.
  - intros f Hf.
    by destruct (total_score_returns c constr features ur f Hconstr Hfeat Hur
                   (Hcands f Hf)) as [sc ->].
Qed.

Lemma nform_constraints_filter :
  Forall (filters_class NFormClass) nform.nform_constraints.
Proof.
  repeat constructor; apply DepOrMax_filters_class; auto;
    intros i ->%list_elem_of_singleton; cbn;
    repeat (first [by left | right]).
Qed.

Lemma vform_constraints_filter :
  Forall (filters_class VFormClass) vform.vform_constraints.
Proof.
  repeat constructor; apply DepOrMax_filters_class; auto;
    intros i ->%list_elem_of_singleton; cbn;
    repeat (first [by left | right]).
Qed.

Lemma otEval_returns c rank : ∀ ur candidates,
  Forall (filters_class c) rank →
  type_of ur = c → Forall (λ f, type_of f = c) candidates →
  ∃ winners, otEval rank ur candidates = Some winners
             ∧ winners ⊆ candidates.
Proof.
  induction rank as [|k rank IH]; intros ur candidates Hrank Hur Hcands.
  { by exists candidates. }
  apply Forall_cons_1 in Hrank as [Hk Hrank]. cbn [otEval].
  destruct (1 <? length candidates)%nat; [|by exists candidates].
  destruct (Hk ur candidates Hur Hcands) as (candidates' & -> & Hsub).
  cbn [mbind option_bind].
  destruct (IH ur candidates' Hrank Hur) as (winners & -> & Hsub').
  - rewrite Forall_forall in *. auto.
  - exists winners. split; [done|]. by etrans.
Qed.

Lemma construct_class c tokens f :
  construct c tokens = Some f → type_of f = c.
Proof.
  destruct c; cbn [construct]; unfold NForm_init, VForm_init;
    repeat case_match; by intros [= <-].
Qed.

Section search_returns.
Context `{PySetOrder} `{PySorted}.

(** With rankings made of such constraints, and a target partition of
    forms of the class, no evaluation raises and the search returns
    the entries of its description. *)
Lemma findVocabularyRankingPairs_returns c ur_partition rankings
    list_values_to_exclude stop :
  Forall (Forall (filters_class c)) rankings →
  Forall (Forall (λ f, type_of f = c)) ur_partition →
  ∃ sforms,
    generateForms c list_values_to_exclude = Some sforms
    ∧ findVocabularyRankingPairs c ur_partition rankings
                                 list_values_to_exclude stop
      = Some (success_entries stop (concat ur_partition) ur_partition rankings
                (combinations sforms (length ur_partition))).
Proof.
  intros Hranks Hpart.
  destruct (generateForms_universe c list_values_to_exclude)
    as (sforms & Hgen & Hmem).
  exists sforms. split; [done|].
  unfold findVocabularyRankingPairs. rewrite Hgen. cbn [mbind option_bind].
  rewrite vocab_loop_entries; [done|].
  intros vocab rank [Hsub _]%elem_of_combinations Hrank.
  apply getWinnerPartition_returns. intros ur Hur.
  rewrite Forall_forall in Hranks.
  destruct (otEval_returns c rank ur vocab) as (w & -> & _); [..|by eexists].
  - by apply Hranks.
  - apply elem_of_concat in Hur as (cell & Hcell & Hur).
    rewrite Forall_forall in Hpart. specialize (Hpart cell Hcell).
    rewrite Forall_forall in Hpart. by apply Hpart.
  - apply Forall_forall. intros f Hf.
    apply (sublist_subseteq _ _ Hsub), Hmem in Hf as (tokens & _ & Hf).
    by eapply construct_class.
Qed.
End search_returns.

(** * Further properties *)

(** ** The scoring functions *)

Lemma union_difference_l (u s : FeatureValue) : (u ∪ s) ∖ u = s ∖ u.
Proof. set_solver. Qed.

Lemma union_difference_r (u s : FeatureValue) : (u ∪ s) ∖ s = u ∖ s.
Proof. set_solver. Qed.

(** X1.  [MaxSubroutine] counts the values of the underlying form that the
    surface form lacks, [DepSubroutine] those that the surface form
    adds; the one is the other with the arguments exchanged; Max is 0
    just when the surface value includes the underlying one, and both
    are 0 only for equal values. *)
Theorem Max_Dep_counts (u s : FeatureValue) :
  MaxSubroutine (PySet u) (PySet s) = Some (Z.of_nat (size (u ∖ s)))
  ∧ DepSubroutine (PySet u) (PySet s) = Some (Z.of_nat (size (s ∖ u)))
  ∧ MaxSubroutine (PySet u) (PySet s) = DepSubroutine (PySet s) (PySet u)
  ∧ (MaxSubroutine (PySet u) (PySet s) = Some 0 ↔ u ⊆ s)
  ∧ (MaxSubroutine (PySet u) (PySet s) = Some 0
     ∧ DepSubroutine (PySet u) (PySet s) = Some 0 ↔ u = s).
Proof.
  unfold MaxSubroutine, DepSubroutine.
  rewrite !union_difference_l, !union_difference_r.
  assert (∀ x y : FeatureValue,
             Some (Z.of_nat (size (x ∖ y))) = Some 0 ↔ x ⊆ y) as Hzero.
  { intros x y. split.
    - intros [= Hsz]. assert (size (x ∖ y) = 0%nat) as Hsz' by lia.
      apply size_empty_iff in Hsz'. set_solver.
    - intros Hsub. replace (x ∖ y) with (∅ : FeatureValue) by set_solver.
      by rewrite size_empty. }
  split; [done|]. split; [done|]. split; [done|].
  split; [apply Hzero|]. rewrite !Hzero. split.
  - intros [H1 H2]. set_solver.
  - by intros ->.
Qed.

(** ** Item access *)

Lemma getitem_PySet (f : MorphForm) (key : string) (v : FeatureValue) :
  getitem f key = PySet v → key ∈ features (type_of f) ∧ v ∈ valuesList f.
Proof.
  destruct f as [n c g|n p];
    cbn [getitem type_of features feature_val_dict fmap list_fmap fst
         valuesList];
    repeat case_decide; intros [= <-]; subst;
    rewrite !elem_of_cons; tauto.
Qed.

(** X2.  [form[key]] is [None] exactly for the keys that are not features
    of the class of the form; for a feature it is one of the values of
    the form. *)
Theorem getitem_None_iff_not_feature (f : MorphForm) (key : string) :
  (getitem f key = PyNone ↔ key ∉ features (type_of f))
  ∧ (key ∈ features (type_of f) →
     ∃ v, getitem f key = PySet v ∧ v ∈ valuesList f).
Proof.
  split; [split|].
  - intros Hnone Hkey.
    destruct (getitem_feature (type_of f) f key eq_refl Hkey) as [v Hv].
    congruence.
  - intros Hkey. destruct (getitem f key) as [|v] eqn:Hv; [done|].
    by apply getitem_PySet in Hv as [? _].
  - intros Hkey.
    destruct (getitem_feature (type_of f) f key eq_refl Hkey) as [v Hv].
    exists v. split; [done|]. by apply getitem_PySet in Hv as [_ ?].
Qed.

(** ** Max and Dep on whole candidate lists *)

Lemma total_score_None_iff constr feats ur form :
  (constr = MaxSubroutine ∨ constr = DepSubroutine) →
  total_score constr feats ur form = None
  ↔ ∃ i, i ∈ feats
         ∧ (i ∉ features (type_of ur) ∨ i ∉ features (type_of form)).
Proof.
  intros Hconstr. unfold total_score.
  destruct (mapM _ feats) as [scores|] eqn:Hm.
  - split; [done|]. intros (i & Hi & Hnot). exfalso.
    apply mapM_Some_1 in Hm.
    apply list_elem_of_lookup_1 in Hi as [n Hn].
    destruct (Forall2_lookup_l _ _ _ _ _ Hm Hn) as (sc & _ & Hsc).
    destruct (getitem ur i) as [|u] eqn:Hu.
    { destruct Hconstr as [-> | ->]; discriminate. }
    destruct (getitem form i) as [|v] eqn:Hv.
    { destruct Hconstr as [-> | ->]; discriminate. }
    apply getitem_PySet in Hu as [Hu _]. apply getitem_PySet in Hv as [Hv _].
    tauto.
  - split; [|done]. intros _.
    assert (¬ Forall (λ i, is_Some (constr (getitem ur i) (getitem form i)))
              feats) as Hnot.
    { intros Hall. apply (mapM_is_Some_2 (λ i, constr (getitem ur i)
                                                 (getitem form i))) in Hall.
      rewrite Hm in Hall. by destruct Hall. }
    apply not_Forall_Exists in Hnot; [|apply _].
    apply Exists_exists in Hnot as (i & Hi & Hraise).
    exists i. split; [done|].
    destruct (decide (i ∈ features (type_of ur))) as [Hu|]; [|by left].
    destruct (decide (i ∈ features (type_of form))) as [Hf|]; [|by right].
    exfalso. apply Hraise.
    destruct (getitem_feature _ ur i eq_refl Hu) as [u ->].
    destruct (getitem_feature _ form i eq_refl Hf) as [v ->].
    destruct Hconstr as [-> | ->]; by eexists.
Qed.

(** X3.  With [MaxSubroutine] or [DepSubroutine] as the scoring function,
    [DepOrMax] raises exactly when there is a candidate and a listed
    feature that the class of the underlying form or that of the
    candidate does not have; in particular never on an empty list of
    candidates or of features. *)
Theorem DepOrMax_raises_iff constr feats ur candidates :
  (constr = MaxSubroutine ∨ constr = DepSubroutine) →
  DepOrMax constr feats ur candidates = None
  ↔ ∃ form i, form ∈ candidates ∧ i ∈ feats
              ∧ (i ∉ features (type_of ur) ∨ i ∉ features (type_of form)).
Proof.
  intros Hconstr. split.
  - intros Hnone.
    destruct (decide (Forall (λ form, is_Some (total_score constr feats ur form))
                             candidates)) as [Hall|Hnot].
    + rewrite (DepOrMax_least constr feats ur
                 (λ f, default 0 (total_score constr feats ur f)))
        in Hnone; [done|].
      intros form Hform. rewrite Forall_forall in Hall.
      by destruct (Hall form Hform) as [sc ->].
    + apply not_Forall_Exists in Hnot; [|apply _].
      apply Exists_exists in Hnot as (form & Hform & Hraise).
      assert (total_score constr feats ur form = None) as Hsc.
      { destruct (total_score constr feats ur form) eqn:Hsc; [|done].
        exfalso. apply Hraise. rewrite Hsc. by eexists. }
      apply total_score_None_iff in Hsc as (i & Hi & Hnot); [|done].
      by exists form, i.
  - intros (form & i & Hform & Hi & Hnot).
    apply (DepOrMax_raises constr feats ur candidates form); [done|].
    apply total_score_None_iff; [done|]. by exists i.
Qed.

Lemma DepOrMax_raises_iff_witness :
  (MaxSubroutine = MaxSubroutine ∨ MaxSubroutine = DepSubroutine)
  ∧ DepOrMax MaxSubroutine ["Case"] v_pl [v_zero] = None.
Proof.
  split; [by left|].
  apply (DepOrMax_raises_iff MaxSubroutine ["Case"] v_pl [v_zero]);
    [by left|].
  exists v_zero, "Case". split; [by left|]. split; [by left|]. left.
  cbn. rewrite !not_elem_of_cons. repeat split; [done|done|].
  apply not_elem_of_nil.
Defined.

Lemma exists_least {A} (score : A → Z) (l : list A) :
  l ≠ [] → ∃ c, c ∈ l ∧ Forall (λ c', score c ≤ score c') l.
Proof.
  induction l as [|x l IH]; [done|]. intros _.
  destruct l as [|y l].
  { exists x. split; [by left|]. by apply Forall_singleton. }
  destruct IH as (c & Hc & Hmin); [done|].
  destruct (decide (score x ≤ score c)) as [Hle|Hgt].
  - exists x. split; [by left|]. constructor; [lia|].
    eapply Forall_impl; [exact Hmin|]. intros c' Hc'. simpl in Hc'. lia.
  - exists c. split; [by right|]. constructor; [lia|done].
Qed.

Lemma DepOrMax_selects_least constr feats ur (score : MorphForm → Z) candidates :
  (∀ c, c ∈ candidates → total_score constr feats ur c = Some (score c)) →
  ∃ winners,
    DepOrMax constr feats ur candidates = Some winners
    ∧ winners `sublist_of` candidates
    ∧ (candidates ≠ [] → winners ≠ [])
    ∧ (∀ a b, a ∈ winners → b ∈ candidates → score a ≤ score b)
    ∧ DepOrMax constr feats ur winners = Some winners.
Proof.
  intros Hsc. rewrite (DepOrMax_least constr feats ur score candidates Hsc).
  eexists. split; [done|].
  assert (∀ a b, a ∈ filter (λ c, Forall (λ c', score c ≤ score c') candidates)
                          candidates →
                 b ∈ candidates → score a ≤ score b) as Hleast.
  { intros a b [Ha _]%list_elem_of_filter Hb.
    rewrite Forall_forall in Ha. by apply Ha. }
  split; [apply sublist_filter|]. split; [|split; [done|]].
  - intros Hne. destruct (exists_least score candidates Hne) as (c & Hc & Hmin).
    intros Hnil. eapply (filter_nil_not_elem_of _ _ c Hnil); done.
  - rewrite (DepOrMax_least constr feats ur score).
    + f_equal. apply filter_all. apply Forall_forall. intros a Ha.
      apply Forall_forall. intros b Hb. apply (Hleast a b Ha).
      by apply list_elem_of_filter in Hb as [_ ?].
    + intros c [_ Hc]%list_elem_of_filter. by apply Hsc.
Qed.

(** X4.  When the scoring function returns for every candidate, the winners
    of [DepOrMax] are candidates, in their order; there is one unless
    there is no candidate; none scores more than any candidate; and
    [DepOrMax] on the winners returns the winners again. *)
Theorem DepOrMax_selects constr feats ur (score : MorphForm → Z) candidates :
  (∀ c, c ∈ candidates → total_score constr feats ur c = Some (score c)) →
  ∃ winners,
    DepOrMax constr feats ur candidates = Some winners
    ∧ winners `sublist_of` candidates
    ∧ (candidates ≠ [] → winners ≠ [])
    ∧ (∀ a b, a ∈ winners → b ∈ candidates → score a ≤ score b)
    ∧ DepOrMax constr feats ur winners = Some winners.
Proof. apply DepOrMax_selects_least. Qed.

Lemma DepOrMax_selects_witness :
  let candidates := [n_zero; n_nom; n_dat; n_acc] in
  let score := λ c, default 0 (total_score DepSubroutine ["Case"] n_nom c) in
  (∀ c, c ∈ candidates →
        total_score DepSubroutine ["Case"] n_nom c = Some (score c))
  ∧ ∃ winners,
      DepOrMax DepSubroutine ["Case"] n_nom candidates = Some winners
      ∧ winners `sublist_of` candidates
      ∧ (candidates ≠ [] → winners ≠ [])
      ∧ (∀ a b, a ∈ winners → b ∈ candidates → score a ≤ score b)
      ∧ DepOrMax DepSubroutine ["Case"] n_nom winners = Some winners.
Proof.
  intros candidates score.
  assert (∀ c, c ∈ candidates →
               total_score DepSubroutine ["Case"] n_nom c = Some (score c))
    as Hsc.
  { intros c Hc. unfold candidates in Hc.
    repeat (apply elem_of_cons in Hc as [->|Hc]; [by vm_compute|]).
    by apply elem_of_nil in Hc. }
  split; [exact Hsc|].
  apply (DepOrMax_selects DepSubroutine ["Case"] n_nom score candidates Hsc).
Defined.

(** ** Eval on the constraints of the two classes *)

Lemma DepOrMax_selects_class c constr feats nm :
  (constr = MaxSubroutine ∨ constr = DepSubroutine) →
  feats ⊆ features c →
  selects_class c {| name := nm; run := DepOrMax constr feats |}.
Proof.
  intros Hconstr Hfeat ur candidates Hur Hcands. cbn [run].
  rewrite Forall_forall in Hcands.
  destruct (DepOrMax_selects_least constr feats ur
              (λ f, default 0 (total_score constr feats ur f)) candidates)
    as (winners & Hw & Hsub & Hne & _).
  - intros f Hf.
    by destruct (total_score_returns c constr feats ur f Hconstr Hfeat Hur
                   (Hcands f Hf)) as [sc ->].
  - by exists winners.
Qed.

Lemma nform_all_constraints_select :
  Forall (selects_class NFormClass) nform_all_constraints.
Proof.
  repeat constructor; apply DepOrMax_selects_class; auto;
    intros i Hi; cbn; rewrite !elem_of_cons in *;
    rewrite elem_of_nil in Hi; tauto.
Qed.

Lemma vform_constraints_select :
  Forall (selects_class VFormClass) vform.vform_constraints.
Proof.
  repeat constructor; apply DepOrMax_selects_class; auto;
    intros i Hi; cbn; rewrite !elem_of_cons in *;
    rewrite elem_of_nil in Hi; tauto.
Qed.

Lemma otEval_selects_class c rank : ∀ ur candidates,
  Forall (selects_class c) rank →
  type_of ur = c → Forall (λ f, type_of f = c) candidates →
  ∃ winners, otEval rank ur candidates = Some winners
             ∧ winners `sublist_of` candidates
             ∧ (candidates ≠ [] → winners ≠ []).
Proof.
  induction rank as [|k rank IH]; intros ur candidates Hrank Hur Hcands.
  { by exists candidates. }
  apply Forall_cons_1 in Hrank as [Hk Hrank]. cbn [otEval].
  destruct (1 <? length candidates)%nat; [|by exists candidates].
  destruct (Hk ur candidates Hur Hcands) as (candidates' & -> & Hsub & Hne).
  cbn [mbind option_bind].
  destruct (IH ur candidates' Hrank Hur) as (winners & -> & Hsub' & Hne').
  - rewrite Forall_forall in *. intros f Hf.
    apply Hcands. by apply (sublist_subseteq _ _ Hsub).
  - exists winners. split; [done|]. split; [by etrans|]. auto.
Qed.

(** X5.  Whatever ranking is made of the constraints of [nform.py], Eval on
    an [NForm] and a list of [NForm]s does not raise: it returns
    candidates, in their order, and at least one unless there was
    none.  The same holds of the constraints of [vform.py] on
    [VForm]s. *)
Theorem otEval_selects rank ur candidates :
  (rank ⊆ nform_all_constraints ∧ type_of ur = NFormClass
   ∧ Forall (λ f, type_of f = NFormClass) candidates)
  ∨ (rank ⊆ vform.vform_constraints ∧ type_of ur = VFormClass
     ∧ Forall (λ f, type_of f = VFormClass) candidates) →
  ∃ winners, otEval rank ur candidates = Some winners
             ∧ winners `sublist_of` candidates
             ∧ (candidates ≠ [] → winners ≠ []).
Proof.
  intros [(Hrank & Hur & Hcands)|(Hrank & Hur & Hcands)].
  - apply (otEval_selects_class NFormClass); [|done|done].
    apply Forall_forall. intros k Hk.
    pose proof nform_all_constraints_select as Hall.
    rewrite Forall_forall in Hall. by apply Hall, Hrank.
  - apply (otEval_selects_class VFormClass); [|done|done].
    apply Forall_forall. intros k Hk.
    pose proof vform_constraints_select as Hall.
    rewrite Forall_forall in Hall. by apply Hall, Hrank.
Qed.

Lemma otEval_selects_witness :
  ∃ winners,
    otEval [nform.MaxCase; nform.DepNumCase] n_acc [n_zero; n_nom; n_dat]
    = Some winners
    ∧ winners `sublist_of` [n_zero; n_nom; n_dat]
    ∧ ([n_zero; n_nom; n_dat] ≠ [] → winners ≠ []).
Proof.
  apply (otEval_selects [nform.MaxCase; nform.DepNumCase] n_acc
           [n_zero; n_nom; n_dat]).
  left. split; [|split; [done|by repeat constructor]].
  intros k Hk. unfold nform_all_constraints.
  rewrite !elem_of_cons in *. rewrite elem_of_nil in Hk. tauto.
Defined.

(** ** Immediate containment *)

Lemma slot_difference_nonneg (self : MorphForm) (x y : FeatureValue) diffs :
  0 ≤ diffs →
  diffs ≤ (if list_in y (getSpecialImmediateContainsValue self x)
           then diffs + 1 else diffs + Z.of_nat (size (x ∖ y))).
Proof. intros Hd. destruct (list_in _ _); lia. Qed.

Lemma slot_difference_pos (self : MorphForm) (x y : FeatureValue) diffs :
  y ⊆ x → x ≠ y →
  diffs + 1 ≤ (if list_in y (getSpecialImmediateContainsValue self x)
               then diffs + 1 else diffs + Z.of_nat (size (x ∖ y))).
Proof.
  intros Hsub Hne. destruct (list_in _ _); [lia|].
  assert (size (x ∖ y) ≠ 0%nat); [|lia].
  apply size_non_empty_iff. intros Hempty. apply Hne.
  apply set_eq. intros z. split; [|by apply Hsub].
  intros Hz. destruct (decide (z ∈ y)) as [|Hzy]; [done|].
  exfalso. apply (proj1 (elem_of_equiv_empty _) Hempty z).
  by apply elem_of_difference.
Qed.

(** Between two different forms of one class of which the one contains
    the other, the difference that [nonImmediateContains] adds up is at
    least 1. *)
Lemma diffs_of_pos (a b : MorphForm) :
  type_of a = type_of b → containsb a b = true → 1 ≤ diffs_of a b.
Proof.
  intros Hty Hc. apply containsb_same_class in Hc as [Hne Hsup]; [|done].
  unfold diffs_of.
  destruct a as [n c g|n p], b as [n' c' g'|n' p']; try discriminate Hty;
    cbn [getValues valuesList zip zip_with foldl fst snd] in *.
  - apply Forall2_cons_1 in Hsup as [Hn Hsup].
    apply Forall2_cons_1 in Hsup as [Hcs Hsup].
    apply Forall2_cons_1 in Hsup as [Hg _].
    destruct (decide (n = n')) as [->|Hn'].
    2:{ pose proof (slot_difference_pos (NForm n c g) n n' 0 Hn Hn').
        set (d1 := if list_in n' _ then _ else _) in *.
        pose proof (slot_difference_nonneg (NForm n c g) c c' d1 ltac:(lia)).
        set (d2 := if list_in c' _ then _ else _) in *.
        pose proof (slot_difference_nonneg (NForm n c g) g g' d2 ltac:(lia)).
        lia. }
    destruct (decide (c = c')) as [->|Hc'].
    2:{ pose proof (slot_difference_nonneg (NForm n' c g) n' n' 0 ltac:(lia)).
        set (d1 := if list_in n' _ then _ else _) in *.
        pose proof (slot_difference_pos (NForm n' c g) c c' d1 Hcs Hc').
        set (d2 := if list_in c' _ then _ else _) in *.
        pose proof (slot_difference_nonneg (NForm n' c g) g g' d2 ltac:(lia)).
        lia. }
    destruct (decide (g = g')) as [->|Hg']; [by destruct Hne|].
    pose proof (slot_difference_nonneg (NForm n' c' g) n' n' 0 ltac:(lia)).
    set (d1 := if list_in n' _ then _ else _) in *.
    pose proof (slot_difference_nonneg (NForm n' c' g) c' c' d1 ltac:(lia)).
    set (d2 := if list_in c' _ then _ else _) in *.
    pose proof (slot_difference_pos (NForm n' c' g) g g' d2 Hg Hg'). lia.
  - apply Forall2_cons_1 in Hsup as [Hn Hsup].
    apply Forall2_cons_1 in Hsup as [Hp _].
    destruct (decide (n = n')) as [->|Hn'].
    2:{ pose proof (slot_difference_pos (VForm n p) n n' 0 Hn Hn').
        set (d1 := if list_in n' _ then _ else _) in *.
        pose proof (slot_difference_nonneg (VForm n p) p p' d1 ltac:(lia)).
        lia. }
    destruct (decide (p = p')) as [->|Hp']; [by destruct Hne|].
    pose proof (slot_difference_nonneg (VForm n' p) n' n' 0 ltac:(lia)).
    set (d1 := if list_in n' _ then _ else _) in *.
    pose proof (slot_difference_pos (VForm n' p) p p' d1 Hp Hp'). lia.
Qed.

(** X6.  Between forms of one class, immediate containment is containment
    with a difference of exactly 1 (a registered special pair counting
    for 1), and containment that is not immediate is containment with
    a larger difference. *)
Theorem immediateContains_unit_difference (a b : MorphForm) :
  type_of a = type_of b →
  (immediateContains a b = true
   ↔ containsb a b = true ∧ diffs_of a b = 1)
  ∧ (nonImmediateContains a b = true
     ↔ containsb a b = true ∧ 1 < diffs_of a b).
Proof.
  intros Hty. unfold immediateContains, nonImmediateContains.
  destruct (containsb a b) eqn:Hc; cbn [negb andb].
  - pose proof (diffs_of_pos a b Hty Hc) as Hpos.
    rewrite negb_true_iff, Z.gtb_ltb, Z.ltb_ge, Z.ltb_lt.
    split; split; try (intros [_ ?]); try (intros ?; split); try done; lia.
  - split; split; try done; by intros [? _].
Qed.

Lemma immediateContains_unit_difference_witness :
  type_of v_auth = type_of v_zero
  ∧ (immediateContains v_auth v_zero = true
     ↔ containsb v_auth v_zero = true ∧ diffs_of v_auth v_zero = 1)
  ∧ (nonImmediateContains v_auth v_zero = true
     ↔ containsb v_auth v_zero = true ∧ 1 < diffs_of v_auth v_zero).
Proof.
  split; [done|]. by apply (immediateContains_unit_difference v_auth v_zero).
Defined.

(** ** Bottom and top *)

Section bottom_top.
Variable c : FormClass.

Lemma py_min_scan (rest : list MorphForm) : ∀ seen cur,
  Forall (λ f, type_of f = c) (seen ++ rest) →
  cur ∈ seen → (∀ y, y ∈ seen → containsb cur y = false) →
  py_min cur rest ∈ seen ++ rest
  ∧ ∀ y, y ∈ seen ++ rest → containsb (py_min cur rest) y = false.
Proof.
  unfold py_min.
  induction rest as [|item rest IH]; intros seen cur Hcls Hcur Hmin.
  { rewrite app_nil_r. by split. }
  cbn [foldl]. replace (seen ++ item :: rest) with ((seen ++ [item]) ++ rest)
    in * by (by rewrite <- app_assoc).
  assert (∀ f, f ∈ seen ++ [item] → type_of f = c) as Hc.
  { intros f Hf. rewrite Forall_forall in Hcls. apply Hcls.
    apply elem_of_app. by left. }
  unfold form_lt. destruct (containsb cur item) eqn:Hlt.
  - apply IH; [done|apply elem_of_app; right; by left|].
    intros y [Hy|Hy%list_elem_of_singleton]%elem_of_app.
    + apply not_true_iff_false. intros Hiy.
      assert (type_of cur = c) as Hcc by (apply Hc, elem_of_app; by left).
      assert (type_of y = c) as Hyc by (apply Hc, elem_of_app; by left).
      assert (type_of item = c) as Hic
        by (apply Hc, elem_of_app; right; by left).
      pose proof (containsb_trans cur item y ltac:(congruence)
                    ltac:(congruence) Hlt Hiy) as Htr.
      by rewrite (Hmin y Hy) in Htr.
    + subst y. apply containsb_irrefl.
  - apply IH; [done|apply elem_of_app; by left|].
    intros y [Hy|Hy%list_elem_of_singleton]%elem_of_app; [by apply Hmin|].
    by subst y.
Qed.

Lemma py_max_scan (rest : list MorphForm) : ∀ seen cur,
  Forall (λ f, type_of f = c) (seen ++ rest) →
  cur ∈ seen → (∀ y, y ∈ seen → containsb y cur = false) →
  py_max cur rest ∈ seen ++ rest
  ∧ ∀ y, y ∈ seen ++ rest → containsb y (py_max cur rest) = false.
Proof.
  unfold py_max.
  induction rest as [|item rest IH]; intros seen cur Hcls Hcur Hmax.
  { rewrite app_nil_r. by split. }
  cbn [foldl]. replace (seen ++ item :: rest) with ((seen ++ [item]) ++ rest)
    in * by (by rewrite <- app_assoc).
  assert (∀ f, f ∈ seen ++ [item] → type_of f = c) as Hc.
  { intros f Hf. rewrite Forall_forall in Hcls. apply Hcls.
    apply elem_of_app. by left. }
  unfold form_lt. destruct (containsb item cur) eqn:Hlt.
  - apply IH; [done|apply elem_of_app; right; by left|].
    intros y [Hy|Hy%list_elem_of_singleton]%elem_of_app.
    + apply not_true_iff_false. intros Hyi.
      assert (type_of cur = c) as Hcc by (apply Hc, elem_of_app; by left).
      assert (type_of y = c) as Hyc by (apply Hc, elem_of_app; by left).
      assert (type_of item = c) as Hic
        by (apply Hc, elem_of_app; right; by left).
      pose proof (containsb_trans y item cur ltac:(congruence)
                    ltac:(congruence) Hyi Hlt) as Htr.
      by rewrite (Hmax y Hy) in Htr.
    + subst y. apply containsb_irrefl.
  - apply IH; [done|apply elem_of_app; by left|].
    intros y [Hy|Hy%list_elem_of_singleton]%elem_of_app; [by apply Hmax|].
    by subst y.
Qed.
End bottom_top.

Lemma getBottom_members (forms : list MorphForm) b :
  b ∈ getBottom forms →
  ∃ x rest, forms = x :: rest ∧ b = py_min x rest ∧ b ∈ forms.
Proof.
  destruct forms as [|x rest]; [by intros ?%elem_of_nil|].
  unfold getBottom. intros [Heq Hb]%list_elem_of_filter.
  apply Is_true_true, form_eq_true in Heq. by exists x, rest.
Qed.

Lemma getTop_members (forms : list MorphForm) t :
  t ∈ getTop forms →
  ∃ x rest, forms = x :: rest ∧ t = py_max x rest ∧ t ∈ forms.
Proof.
  destruct forms as [|x rest]; [by intros ?%elem_of_nil|].
  unfold getTop. intros [Heq Ht]%list_elem_of_filter.
  apply Is_true_true, form_eq_true in Heq. by exists x, rest.
Qed.

(** X7.  On forms of one class, [getBottom] returns the occurrences of one
    member of the list that contains no member of the list (a minimal
    one), and it returns some unless the list is empty. *)
Theorem getBottom_minimal (c : FormClass) (forms : list MorphForm) :
  Forall (λ f, type_of f = c) forms →
  (forms ≠ [] → getBottom forms ≠ [])
  ∧ ∀ b, b ∈ getBottom forms →
      b ∈ forms
      ∧ (∀ y, y ∈ forms → containsb b y = false)
      ∧ (∀ b', b' ∈ getBottom forms → b' = b).
Proof.
  intros Hcls.
  assert (∀ x rest, forms = x :: rest →
            py_min x rest ∈ forms
            ∧ ∀ y, y ∈ forms → containsb (py_min x rest) y = false) as Hscan.
  { intros x rest ->.
    destruct (py_min_scan c rest [x] x) as [Hin Hmin]; [done|by left| |done].
    intros y ->%list_elem_of_singleton. apply containsb_irrefl. }
  split.
  - destruct forms as [|x rest]; [done|]. intros _ Hnil.
    destruct (Hscan x rest eq_refl) as [Hin _].
    unfold getBottom in Hnil.
    apply (filter_nil_not_elem_of _ _ (py_min x rest) Hnil); [|done].
    by rewrite form_eq_refl.
  - intros b Hb. destruct (getBottom_members forms b Hb)
      as (x & rest & Hf & -> & Hin).
    split; [done|]. split; [by apply Hscan|].
    intros b' Hb'. destruct (getBottom_members forms b' Hb')
      as (x' & rest' & Hf' & -> & _). congruence.
Qed.

Lemma getBottom_minimal_witness :
  Forall (λ f, type_of f = NFormClass) [n_acc; n_sg; n_nom; n_dat]
  ∧ ([n_acc; n_sg; n_nom; n_dat] ≠ [] →
     getBottom [n_acc; n_sg; n_nom; n_dat] ≠ [])
  ∧ ∀ b, b ∈ getBottom [n_acc; n_sg; n_nom; n_dat] →
      b ∈ [n_acc; n_sg; n_nom; n_dat]
      ∧ (∀ y, y ∈ [n_acc; n_sg; n_nom; n_dat] → containsb b y = false)
      ∧ (∀ b', b' ∈ getBottom [n_acc; n_sg; n_nom; n_dat] → b' = b).
Proof.
  assert (Forall (λ f, type_of f = NFormClass) [n_acc; n_sg; n_nom; n_dat])
    as Hcls by (by repeat constructor).
  split; [exact Hcls|].
  apply (getBottom_minimal NFormClass [n_acc; n_sg; n_nom; n_dat] Hcls).
Defined.

(** X8.  On forms of one class, [getTop] returns the occurrences of one
    member of the list that no member of the list contains (a maximal
    one), and it returns some unless the list is empty. *)
Theorem getTop_maximal (c : FormClass) (forms : list MorphForm) :
  Forall (λ f, type_of f = c) forms →
  (forms ≠ [] → getTop forms ≠ [])
  ∧ ∀ t, t ∈ getTop forms →
      t ∈ forms
      ∧ (∀ y, y ∈ forms → containsb y t = false)
      ∧ (∀ t', t' ∈ getTop forms → t' = t).
Proof.
  intros Hcls.
  assert (∀ x rest, forms = x :: rest →
            py_max x rest ∈ forms
            ∧ ∀ y, y ∈ forms → containsb y (py_max x rest) = false) as Hscan.
  { intros x rest ->.
    destruct (py_max_scan c rest [x] x) as [Hin Hmax]; [done|by left| |done].
    intros y ->%list_elem_of_singleton. apply containsb_irrefl. }
  split.
  - destruct forms as [|x rest]; [done|]. intros _ Hnil.
    destruct (Hscan x rest eq_refl) as [Hin _].
    unfold getTop in Hnil.
    apply (filter_nil_not_elem_of _ _ (py_max x rest) Hnil); [|done].
    by rewrite form_eq_refl.
  - intros t Ht. destruct (getTop_members forms t Ht)
      as (x & rest & Hf & -> & Hin).
    split; [done|]. split; [by apply Hscan|].
    intros t' Ht'. destruct (getTop_members forms t' Ht')
      as (x' & rest' & Hf' & -> & _). congruence.
Qed.

Lemma getTop_maximal_witness :
  Forall (λ f, type_of f = NFormClass) [n_acc; n_sg; n_nom; n_dat]
  ∧ ([n_acc; n_sg; n_nom; n_dat] ≠ [] →
     getTop [n_acc; n_sg; n_nom; n_dat] ≠ [])
  ∧ ∀ t, t ∈ getTop [n_acc; n_sg; n_nom; n_dat] →
      t ∈ [n_acc; n_sg; n_nom; n_dat]
      ∧ (∀ y, y ∈ [n_acc; n_sg; n_nom; n_dat] → containsb y t = false)
      ∧ (∀ t', t' ∈ getTop [n_acc; n_sg; n_nom; n_dat] → t' = t).
Proof.
  assert (Forall (λ f, type_of f = NFormClass) [n_acc; n_sg; n_nom; n_dat])
    as Hcls by (by repeat constructor).
  split; [exact Hcls|].
  apply (getTop_maximal NFormClass [n_acc; n_sg; n_nom; n_dat] Hcls).
Defined.

(** ** Between *)

(** X9.  A form is never between a form and itself or between two unrelated
    forms of its class: if [self] is between [form1] and [form2], all of
    one class, then these two are in containment and the three are
    different.  The two ends may be exchanged, and an end is not between
    the ends. *)
Theorem isBetween_ends (self form1 form2 : MorphForm) :
  type_of self = type_of form1 → type_of form1 = type_of form2 →
  isBetween self form1 form2 = isBetween self form2 form1
  ∧ isBetween form1 form1 form2 = false
  ∧ isBetween form2 form1 form2 = false
  ∧ (isBetween self form1 form2 = true →
     containment form1 form2 = true
     ∧ self ≠ form1 ∧ self ≠ form2 ∧ form1 ≠ form2).
Proof.
  intros H1 H2. unfold isBetween, containment.
  rewrite !containsb_irrefl, !andb_false_r, !andb_false_l.
  split; [apply orb_comm|]. split; [done|]. split; [done|].
  intros [[Ha Hb]%andb_true_iff|[Ha Hb]%andb_true_iff]%orb_true_iff.
  - pose proof (containsb_trans form2 self form1 ltac:(congruence)
                  ltac:(congruence) Hb Ha) as Hc.
    rewrite Hc, orb_true_r. split; [done|].
    repeat split; intros ->; by rewrite containsb_irrefl in *.
  - pose proof (containsb_trans form1 self form2 ltac:(congruence)
                  ltac:(congruence) Hb Ha) as Hc.
    rewrite Hc. split; [done|].
    repeat split; intros ->; by rewrite containsb_irrefl in *.
Qed.

Lemma isBetween_ends_witness :
  type_of n_acc = type_of n_nom ∧ type_of n_nom = type_of n_dat
  ∧ isBetween n_acc n_nom n_dat = isBetween n_acc n_dat n_nom
  ∧ isBetween n_nom n_nom n_dat = false
  ∧ isBetween n_dat n_nom n_dat = false
  ∧ (isBetween n_acc n_nom n_dat = true →
     containment n_nom n_dat = true
     ∧ n_acc ≠ n_nom ∧ n_acc ≠ n_dat ∧ n_nom ≠ n_dat).
Proof.
  split; [done|]. split; [done|].
  by apply (isBetween_ends n_acc n_nom n_dat).
Defined.

(** ** Partitions as sets of sets *)

Lemma areSamePartitions_cells_set (part1 part2 : list (list MorphForm)) :
  areSamePartitions part1 part2 = true ↔ cells_set part1 = cells_set part2.
Proof.
  unfold areSamePartitions. cbv zeta.
  rewrite andb_true_iff, !Nat.eqb_eq. split.
  - intros [H1 H2]. rewrite H2 in H1.
    apply size_empty_iff in H1. apply size_empty_iff in H2.
    apply set_eq. intros X. split; intros HX.
    + destruct (decide (X ∈ cells_set part2)) as [|Hn]; [done|].
      exfalso. apply (proj1 (elem_of_equiv_empty _) H1 X).
      by apply elem_of_difference.
    + destruct (decide (X ∈ cells_set part1)) as [|Hn]; [done|].
      exfalso. apply (proj1 (elem_of_equiv_empty _) H2 X).
      by apply elem_of_difference.
  - intros ->. by rewrite difference_diag_L, size_empty.
Qed.

Lemma elem_of_cells_set (part : list (list MorphForm)) (X : gset MorphForm) :
  X ∈ cells_set part ↔ ∃ cell, cell ∈ part ∧ X = list_to_set cell.
Proof.
  unfold cells_set. rewrite elem_of_list_to_set, list_elem_of_fmap.
  split; intros (cell & ? & ?); by exists cell.
Qed.

Lemma list_to_set_eq_iff (l k : list MorphForm) :
  list_to_set l = (list_to_set k : gset MorphForm) ↔ ∀ f, f ∈ l ↔ f ∈ k.
Proof.
  rewrite set_eq. by setoid_rewrite elem_of_list_to_set.
Qed.

(** X10.  [areSamePartitions] holds just when every cell of each partition
    has the same members as some cell of the other. *)
Theorem areSamePartitions_iff (part1 part2 : list (list MorphForm)) :
  areSamePartitions part1 part2 = true
  ↔ (∀ c1, c1 ∈ part1 → ∃ c2, c2 ∈ part2 ∧ ∀ f, f ∈ c1 ↔ f ∈ c2)
    ∧ (∀ c2, c2 ∈ part2 → ∃ c1, c1 ∈ part1 ∧ ∀ f, f ∈ c1 ↔ f ∈ c2).
Proof.
  rewrite areSamePartitions_cells_set, set_eq. split.
  - intros Heq. split.
    + intros c1 Hc1.
      destruct (proj1 (elem_of_cells_set part2 (list_to_set c1)))
        as (c2 & Hc2 & Hsame).
      { apply Heq, elem_of_cells_set. by exists c1. }
      exists c2. split; [done|]. by apply list_to_set_eq_iff.
    + intros c2 Hc2.
      destruct (proj1 (elem_of_cells_set part1 (list_to_set c2)))
        as (c1 & Hc1 & Hsame).
      { apply Heq, elem_of_cells_set. by exists c2. }
      exists c1. split; [done|]. by apply list_to_set_eq_iff.
  - intros [H12 H21] X. rewrite !elem_of_cells_set. split.
    + intros (c1 & Hc1 & ->). destruct (H12 c1 Hc1) as (c2 & Hc2 & Hsame).
      exists c2. split; [done|]. by apply list_to_set_eq_iff.
    + intros (c2 & Hc2 & ->). destruct (H21 c2 Hc2) as (c1 & Hc1 & Hsame).
      exists c1. split; [done|]. by apply list_to_set_eq_iff.
Qed.

Lemma cells_set_Permutation (part part' : list (list MorphForm)) :
  part ≡ₚ part' → cells_set part = cells_set part'.
Proof.
  intros Hp. apply set_eq. intros X. rewrite !elem_of_cells_set.
  by setoid_rewrite Hp.
Qed.

Lemma cells_set_Permutation_cells (part part' : list (list MorphForm)) :
  Forall2 (≡ₚ) part part' → cells_set part = cells_set part'.
Proof.
  intros Hp. unfold cells_set. f_equal.
  induction Hp as [|c c' part part' Hc _ IH]; [done|].
  cbn [fmap list_fmap]. f_equal; [|done].
  apply list_to_set_eq_iff. intros f. by rewrite Hc.
Qed.

(** X11.  [areSamePartitions] is an equivalence, and it looks neither at the
    order of the cells nor at the order of the forms in a cell. *)
Theorem areSamePartitions_equivalence (p1 p2 p3 : list (list MorphForm)) :
  areSamePartitions p1 p1 = true
  ∧ areSamePartitions p1 p2 = areSamePartitions p2 p1
  ∧ (areSamePartitions p1 p2 = true → areSamePartitions p2 p3 = true →
     areSamePartitions p1 p3 = true)
  ∧ (p1 ≡ₚ p2 → areSamePartitions p1 p2 = true)
  ∧ (Forall2 (≡ₚ) p1 p2 → areSamePartitions p1 p2 = true).
Proof.
  split; [by apply areSamePartitions_cells_set|]. split; [|split; [|split]].
  - destruct (areSamePartitions p1 p2) eqn:H12;
      destruct (areSamePartitions p2 p1) eqn:H21; try done.
    + apply areSamePartitions_cells_set in H12.
      symmetry in H12. apply areSamePartitions_cells_set in H12. congruence.
    + apply areSamePartitions_cells_set in H21.
      symmetry in H21. apply areSamePartitions_cells_set in H21. congruence.
  - rewrite !areSamePartitions_cells_set. congruence.
  - intros Hp. by apply areSamePartitions_cells_set, cells_set_Permutation.
  - intros Hp.
    by apply areSamePartitions_cells_set, cells_set_Permutation_cells.
Qed.

(** ** Well-formed partitions *)

Lemma size_list_to_set_le (l : list MorphForm) :
  (size (list_to_set l : gset MorphForm) ≤ length l)%nat.
Proof.
  induction l as [|x l IH]; [by rewrite list_to_set_nil, size_empty|].
  rewrite list_to_set_cons. cbn [length].
  rewrite size_union_alt, size_singleton.
  pose proof (subseteq_size (list_to_set l ∖ {[x]}) (list_to_set l : gset _)
                ltac:(set_solver)).
  lia.
Qed.

Lemma size_list_to_set_NoDup (l : list MorphForm) :
  size (list_to_set l : gset MorphForm) = length l ↔ NoDup l.
Proof.
  split; [|apply size_list_to_set].
  induction l as [|x l IH]; [constructor|].
  rewrite list_to_set_cons. cbn [length]. intros Hsz.
  pose proof (size_list_to_set_le l) as Hle.
  destruct (decide (x ∈ l)) as [Hin|Hnin].
  - exfalso.
    replace ({[x]} ∪ list_to_set l) with (list_to_set l : gset MorphForm)
      in Hsz; [lia|].
    apply set_eq. intros y. rewrite elem_of_union, elem_of_singleton,
      elem_of_list_to_set. split; [by right|]. by intros [->|?].
  - rewrite size_union, size_singleton in Hsz.
    + constructor; [done|]. apply IH. lia.
    + intros y ->%elem_of_singleton. by rewrite elem_of_list_to_set.
Qed.

Lemma NoDup_concat_cells (part : list (list MorphForm)) :
  NoDup (concat part) → Forall NoDup part.
Proof.
  induction part as [|cell part IH]; [constructor|].
  cbn [concat]. intros (Hc & _ & Hp)%NoDup_app. constructor; auto.
Qed.

Lemma partitionIsWellFormed_true (partition : list (list MorphForm))
    (number_of_forms : Z) (type_form : PyType) :
  partitionIsWellFormed partition number_of_forms type_form = true
  ↔ Z.of_nat (length (concat partition)) = number_of_forms
    ∧ Forall (λ f, isinstance f type_form = true) (concat partition)
    ∧ NoDup (concat partition).
Proof.
  unfold partitionIsWellFormed. cbv zeta.
  pose proof (size_list_to_set_le (concat partition)) as Hle.
  rewrite !Z.gtb_ltb.
  destruct (Z.ltb_spec number_of_forms (Z.of_nat (length (concat partition))))
    as [Hgt|Hnot_gt]; [split; [done|lia]|].
  destruct (Z.ltb_spec (Z.of_nat (length (concat partition))) number_of_forms)
    as [Hlt|Hnot_lt]; [split; [done|lia]|].
  destruct (forallb (λ f, isinstance f type_form) (concat partition))
    eqn:Hinst; cbn [negb].
  2:{ split; [done|]. intros (_ & Hall & _).
      apply not_true_iff_false in Hinst. destruct Hinst.
      apply forallb_forall. intros f Hf%list_elem_of_In.
      rewrite Forall_forall in Hall. by apply Hall. }
  assert (Forall (λ f, isinstance f type_form = true) (concat partition))
    as Hall.
  { apply Forall_forall. intros f Hf%list_elem_of_In.
    by apply (proj1 (forallb_forall _ _) Hinst). }
  destruct (Z.ltb_spec
              (Z.of_nat (size (list_to_set (concat partition) : gset MorphForm)))
              (Z.of_nat (length (concat partition)))) as [Hdup|Hnodup].
  { split; [done|]. intros (_ & _ & Hnd%size_list_to_set_NoDup). lia. }
  assert (NoDup (concat partition)) as Hnd
    by (apply size_list_to_set_NoDup; lia).
  destruct (existsb _ partition) eqn:Hcell.
  - exfalso. apply existsb_exists in Hcell as (cell & Hin%list_elem_of_In & Hlt).
    apply Nat.ltb_lt in Hlt.
    pose proof (NoDup_concat_cells partition Hnd) as Hcells.
    rewrite Forall_forall in Hcells.
    apply Hcells, size_list_to_set_NoDup in Hin. lia.
  - split; [|done]. intros _. repeat split; [lia|done|done].
Qed.

(** X12.  [partitionIsWellFormed] returns [True] just when the cells hold
    [number_of_forms] forms in all, every one an instance of
    [type_form], and no form twice.  Its last test, for a form twice in
    one cell, never fails once the others have passed; and the cells of
    a partition that it accepts have no form in common. *)
Theorem partitionIsWellFormed_iff (partition : list (list MorphForm))
    (number_of_forms : Z) (type_form : PyType) :
  (partitionIsWellFormed partition number_of_forms type_form = true
   ↔ Z.of_nat (length (concat partition)) = number_of_forms
     ∧ Forall (λ f, isinstance f type_form = true) (concat partition)
     ∧ NoDup (concat partition))
  ∧ (partitionIsWellFormed partition number_of_forms type_form = true →
     Forall NoDup partition
     ∧ ∀ i j c1 c2, i ≠ j →
         partition !! i = Some c1 → partition !! j = Some c2 →
         ∀ f, f ∈ c1 → f ∉ c2).
Proof.
  split; [apply partitionIsWellFormed_true|].
  intros (_ & _ & Hnd)%partitionIsWellFormed_true.
  split; [by apply NoDup_concat_cells|].
  intros i j c1 c2. by apply NoDup_concat_disjoint.
Qed.

Section winner_partition_well_formed.
Context `{PySorted}.


End winner_partition_well_formed.


(** ** Construction of forms *)

Lemma forallb_list_in (l vals : list string) :
  forallb (λ v, list_in v vals) l = true ↔ Forall (λ v, v ∈ vals) l.
Proof.
  rewrite forallb_forall, Forall_forall. unfold list_in.
  split; intros Hall v Hv.
  - apply (bool_decide_unpack _). apply Is_true_true.
    by apply Hall, list_elem_of_In.
  - apply bool_decide_eq_true. by apply Hall, list_elem_of_In.
Qed.

(** X14.  A constructor raises in two cases only: more tokens than the class
    has features, or a token that is not a value of the class. *)
Theorem construct_raises_iff (c : FormClass) (argv : list string) :
  construct c argv = None
  ↔ (length (feature_val_dict c) < length argv)%nat
    ∨ ∃ v, v ∈ argv ∧ v ∉ all_values c.
Proof.
  assert (negb (forallb (λ v, list_in v (all_values c)) argv) = true
          ↔ ∃ v, v ∈ argv ∧ v ∉ all_values c) as Hvals.
  { rewrite negb_true_iff, <- not_true_iff_false, forallb_list_in.
    rewrite <- Exists_exists. split.
    - intros Hnot. by apply not_Forall_Exists in Hnot; [|apply _].
    - intros Hex Hall. apply Exists_exists in Hex as (v & Hv & Hn).
      rewrite Forall_forall in Hall. by apply Hn, Hall. }
  destruct c; cbn [construct feature_val_dict length];
    unfold NForm_init, VForm_init;
    rewrite ?wellFormedArgs_single, ?wellFormedArgs_no_argv; cbn [negb].
  - destruct (Nat.ltb_spec 3 (length argv)); [split; [by left|done]|].
    destruct (negb (forallb _ argv)) eqn:Hv.
    + split; [|done]. intros _. right. by apply Hvals.
    + split; [done|]. intros [?|Hex]; [lia|].
      apply Hvals in Hex. congruence.
  - destruct (Nat.ltb_spec 2 (length argv)); [split; [by left|done]|].
    destruct (negb (forallb _ argv)) eqn:Hv.
    + split; [|done]. intros _. right. by apply Hvals.
    + split; [done|]. intros [?|Hex]; [lia|].
      apply Hvals in Hex. congruence.
Qed.

(** ** The well-formedness test *)

Lemma wellFormedArgs_iff_helper (group_vals : list (gset string))
    (tokens : list string) :
  wellFormedArgs mem_set group_vals (AStr <$> tokens) = true
  ↔ ∀ a b g, a ∈ tokens → b ∈ tokens → g ∈ group_vals →
             a ≠ "zero" → b ≠ "zero" → a ∈ g → b ∈ g → a = b.
Proof.
  unfold wellFormedArgs. rewrite length_fmap.
  destruct (Nat.eqb_spec (length tokens) 1) as [Hone|Hmore].
  { split; [|done]. intros _ a b g Ha Hb _ _ _ _ _.
    destruct tokens as [|t [|]]; try done.
    apply list_elem_of_singleton in Ha, Hb. congruence. }
  rewrite negb_true_iff, <- not_true_iff_false. split.
  - intros Hnone a b g Ha Hb Hg Hza Hzb Hag Hbg.
    destruct (decide (a = b)) as [|Hne]; [done|]. exfalso. apply Hnone.
    apply existsb_exists. exists (AStr a).
    split; [by apply list_elem_of_In, list_elem_of_fmap_2|].
    apply existsb_exists. exists (AStr b).
    split; [by apply list_elem_of_In, list_elem_of_fmap_2|].
    apply existsb_exists. exists g. split; [by apply list_elem_of_In|].
    unfold is_zero. cbn [mem_set].
    rewrite !(bool_decide_eq_false_2 (AStr _ = AStr _)) by congruence.
    by rewrite !bool_decide_eq_true_2.
  - intros Hall (x & Hx%list_elem_of_In & Hex)%existsb_exists.
    apply existsb_exists in Hex as (y & Hy%list_elem_of_In & Hex).
    apply existsb_exists in Hex as (g & Hg%list_elem_of_In & Hcond).
    apply list_elem_of_fmap in Hx as (a & -> & Ha).
    apply list_elem_of_fmap in Hy as (b & -> & Hb).
    unfold is_zero in Hcond. cbn [mem_set] in Hcond.
    repeat (apply andb_true_iff in Hcond as [Hcond ?]).
    repeat match goal with
           | H : negb _ = true |- _ =>
               apply negb_true_iff, bool_decide_eq_false in H
           | H : bool_decide _ = true |- _ => apply bool_decide_eq_true in H
           end.
    assert (a = b) as -> by (apply (Hall a b g); congruence).
    done.
Qed.

(** X15.  Called on the tokens themselves, [wellFormedArgs] returns [True]
    just when no two different tokens other than "zero" are in one
    group; so it does for no token and for one token. *)
Theorem wellFormedArgs_iff (group_vals : list (gset string))
    (tokens : list string) :
  (wellFormedArgs mem_set group_vals (AStr <$> tokens) = true
   ↔ ∀ a b g, a ∈ tokens → b ∈ tokens → g ∈ group_vals →
              a ≠ "zero" → b ≠ "zero" → a ∈ g → b ∈ g → a = b)
  ∧ wellFormedArgs mem_set group_vals [] = true
  ∧ ∀ t, wellFormedArgs mem_set group_vals [AStr t] = true.
Proof. split; [apply wellFormedArgs_iff_helper|done]. Qed.

(** ** What the constructors build *)

Lemma head_Permutation_all_equal {A} (l l' : list A) :
  (∀ a b, a ∈ l → b ∈ l → a = b) → l ≡ₚ l' → head l = head l'.
Proof.
  intros Heq Hp. destruct l as [|x l], l' as [|y l']; [done|..].
  - by apply Permutation_nil_cons in Hp.
  - symmetry in Hp. by apply Permutation_nil_cons in Hp.
  - cbn. f_equal. apply Heq; [by left|]. rewrite Hp. by left.
Qed.

Lemma value_of_head c (toks : list string) :
  value_of c toks
  = from_option (λ t, default ∅ (dict_get (string_to_val_dict c) t)) ∅
                (head toks).
Proof. by destruct toks. Qed.

Lemma tokens_of_Permutation c feature (argv argv' : list string) :
  argv ≡ₚ argv' →
  wellFormedArgs mem_set (grouped_values c) (AStr <$> argv) = true →
  feature ∈ features c →
  value_of c (tokens_of c feature argv)
  = value_of c (tokens_of c feature argv').
Proof.
  intros Hp Hwf Hfeat. rewrite !value_of_head. f_equal.
  apply head_Permutation_all_equal; [|unfold tokens_of; by rewrite Hp].
  intros a b [[Ha Hza] Hain]%list_elem_of_filter
             [[Hb Hzb] Hbin]%list_elem_of_filter.
  rewrite wellFormedArgs_iff_helper in Hwf.
  apply (Hwf a b (fs (default [] (dict_get (feature_val_dict c) feature))));
    try done; [|by apply elem_of_list_to_set..].
  unfold grouped_values, features in *.
  apply list_elem_of_fmap in Hfeat as ([k vs] & -> & Hkv).
  apply list_elem_of_fmap. exists (k, vs). split; [|done]. cbn [fst snd].
  f_equal. clear -Hkv. destruct c; cbn in *;
    repeat (apply elem_of_cons in Hkv as [[= -> ->]|Hkv]; [done|]);
    by apply elem_of_nil in Hkv.
Qed.

(** X16.  For tokens that pass the well-formedness test (called on the
    tokens themselves), the form that a constructor builds, or the
    exception that it raises, does not depend on the order of the
    tokens. *)
Theorem construct_Permutation (c : FormClass) (argv argv' : list string) :
  argv ≡ₚ argv' →
  wellFormedArgs mem_set (grouped_values c) (AStr <$> argv) = true →
  construct c argv = construct c argv'.
Proof.
  intros Hp Hwf.
  assert (forallb (λ v, list_in v (all_values c)) argv
          = forallb (λ v, list_in v (all_values c)) argv') as Hvals.
  { apply eq_true_iff_eq. rewrite !forallb_list_in. by rewrite Hp. }
  pose proof (Permutation_length Hp) as Hlen.
  destruct c; cbn [construct]; unfold NForm_init, VForm_init;
    rewrite ?wellFormedArgs_single, ?wellFormedArgs_no_argv, Hvals, Hlen;
    repeat case_match; try done; f_equal.
  - rewrite (tokens_of_Permutation NFormClass "Number" argv argv'),
      (tokens_of_Permutation NFormClass "Case" argv argv'),
      (tokens_of_Permutation NFormClass "Gender" argv argv'); try done;
      cbn; rewrite !elem_of_cons; tauto.
  - rewrite (tokens_of_Permutation VFormClass "Number" argv argv'),
      (tokens_of_Permutation VFormClass "Person" argv argv'); try done;
      cbn; rewrite !elem_of_cons; tauto.
Qed.

Lemma construct_Permutation_witness :
  ["nom"; "zero"; "sg"] ≡ₚ ["sg"; "nom"; "zero"]
  ∧ wellFormedArgs mem_set (grouped_values NFormClass)
                   (AStr <$> ["nom"; "zero"; "sg"]) = true
  ∧ construct NFormClass ["nom"; "zero"; "sg"]
    = construct NFormClass ["sg"; "nom"; "zero"].
Proof.
  assert (["nom"; "zero"; "sg"] ≡ₚ ["sg"; "nom"; "zero"]) as Hp.
  { change ["nom"; "zero"; "sg"] with (["nom"; "zero"] ++ ["sg"]).
    apply Permutation_app_comm. }
  assert (wellFormedArgs mem_set (grouped_values NFormClass)
            (AStr <$> ["nom"; "zero"; "sg"]) = true) as Hwf
    by (by vm_compute).
  split; [exact Hp|]. split; [exact Hwf|].
  apply (construct_Permutation NFormClass _ _ Hp Hwf).
Defined.

(** The values that a slot of a built form can hold. *)
Lemma value_of_tokens c feature (argv : list string) :
  value_of c [] ∈ (λ t, value_of c [t])
                  <$> default [] (dict_get (feature_val_dict c) feature) →
  value_of c (tokens_of c feature argv)
  ∈ (λ t, value_of c [t])
    <$> default [] (dict_get (feature_val_dict c) feature).
Proof.
  intros Hzero. unfold tokens_of.
  destruct (filter _ argv) as [|t toks] eqn:Hf; [done|].
  assert (t ∈ filter (λ v, v ∈ default [] (dict_get (feature_val_dict c) feature)
                           ∧ v ≠ "zero") argv) as Ht
    by (rewrite Hf; by left).
  apply list_elem_of_filter in Ht as [[Ht _] _].
  apply list_elem_of_fmap. by exists t.
Qed.

Lemma universe_complete (c : FormClass) :
  match c with
  | NFormClass =>
      ∀ n cs g,
        n ∈ (λ t, value_of c [t]) <$> ["zero"; "sg"; "pl"] →
        cs ∈ (λ t, value_of c [t]) <$> ["zero"; "nom"; "acc"; "dat"] →
        g ∈ (λ t, value_of c [t]) <$> ["zero"; "neu"; "mas"; "fem"] →
        NForm n cs g ∈ universe c
  | VFormClass =>
      ∀ n p,
        n ∈ (λ t, value_of c [t]) <$> ["zero"; "pl"] →
        p ∈ (λ t, value_of c [t]) <$> ["zero"; "part"; "auth"; "addr"] →
        VForm n p ∈ universe c
  end.
Proof.
  destruct c.
  - intros n cs g Hn Hc Hg. cbn [fmap list_fmap] in Hn, Hc, Hg.
    repeat (apply elem_of_cons in Hn as [->|Hn]);
      try (by apply elem_of_nil in Hn);
      repeat (apply elem_of_cons in Hc as [->|Hc]);
      try (by apply elem_of_nil in Hc);
      repeat (apply elem_of_cons in Hg as [->|Hg]);
      try (by apply elem_of_nil in Hg);
      apply (bool_decide_unpack _); by vm_compute.
  - intros n p Hn Hp. cbn [fmap list_fmap] in Hn, Hp.
    repeat (apply elem_of_cons in Hn as [->|Hn]);
      try (by apply elem_of_nil in Hn);
      repeat (apply elem_of_cons in Hp as [->|Hp]);
      try (by apply elem_of_nil in Hp);
      apply (bool_decide_unpack _); by vm_compute.
Qed.

Lemma universe_printable (c : FormClass) :
  Forall (λ f, type_of f = c
               ∧ Forall (λ v, is_Some (dict_get (val_to_string_dict c) v))
                        (valuesList f))
         (universe c).
Proof. destruct c; apply (bool_decide_unpack _); by vm_compute. Qed.

Lemma construct_universe (c : FormClass) (argv : list string) f :
  construct c argv = Some f → f ∈ universe c.
Proof.
  pose proof (universe_complete c) as Hu.
  destruct c; cbn [construct]; unfold NForm_init, VForm_init;
    repeat case_match; try done; intros [= <-]; apply Hu.
  - apply (value_of_tokens NFormClass "Number" argv).
    apply (bool_decide_unpack _). by vm_compute.
  - apply (value_of_tokens NFormClass "Case" argv).
    apply (bool_decide_unpack _). by vm_compute.
  - apply (value_of_tokens NFormClass "Gender" argv).
    apply (bool_decide_unpack _). by vm_compute.
  - apply (value_of_tokens VFormClass "Number" argv).
    apply (bool_decide_unpack _). by vm_compute.
  - apply (value_of_tokens VFormClass "Person" argv).
    apply (bool_decide_unpack _). by vm_compute.
Qed.

(** X17.  Whatever tokens a constructor accepts, the form that it builds is
    one of the forms built from one token for every feature (48 for
    [NForm], 8 for [VForm]); it is of the class, and each of its values
    has a name in [val_to_string_dict], so that printing it never
    shows [None]. *)
Theorem construct_in_universe (c : FormClass) (argv : list string) f :
  construct c argv = Some f →
  f ∈ universe c
  ∧ type_of f = c
  ∧ Forall (λ v, is_Some (dict_get (val_to_string_dict c) v)) (valuesList f)
  ∧ length (universe NFormClass) = 48%nat
  ∧ length (universe VFormClass) = 8%nat.
Proof.
  intros Hf%construct_universe.
  pose proof (universe_printable c) as Hp. rewrite Forall_forall in Hp.
  destruct (Hp f Hf) as [? ?]. repeat split; try done; by vm_compute.
Qed.

Lemma construct_in_universe_witness :
  construct NFormClass ["sg"; "pl"] = Some n_sg
  ∧ n_sg ∈ universe NFormClass
  ∧ type_of n_sg = NFormClass
  ∧ Forall (λ v, is_Some (dict_get (val_to_string_dict NFormClass) v))
           (valuesList n_sg)
  ∧ length (universe NFormClass) = 48%nat
  ∧ length (universe VFormClass) = 8%nat.
Proof.
  assert (construct NFormClass ["sg"; "pl"] = Some n_sg) as Hc
    by (by vm_compute).
  split; [exact Hc|].
  apply (construct_in_universe NFormClass ["sg"; "pl"] n_sg Hc).
Defined.

(** ** Printing *)

(** X18.  Printing a form built from one token for every feature gives the
    tokens back, joined by dots, with the sign of the empty set for
    "zero". *)
Theorem repr_construct (c : FormClass) (tokens : list string) :
  Forall2 (λ x l, x ∈ l) tokens (snd <$> feature_val_dict c) →
  ∃ f, construct c tokens = Some f
       ∧ repr f = join_with "." (display c <$> repr_order c tokens).
Proof.
  intros Ht%elem_of_product.
  assert (Forall (λ t, ∃ f, construct c t = Some f
                            ∧ repr f = join_with "." (display c
                                                       <$> repr_order c t))
                 (product (snd <$> feature_val_dict c))) as Hall.
  { assert (forallb (λ t, match construct c t with
                          | Some f =>
                              bool_decide
                                (repr f = join_with "." (display c
                                                          <$> repr_order c t))
                          | None => false
                          end) (product (snd <$> feature_val_dict c)) = true)
      as Hb by (destruct c; by vm_compute).
    apply Forall_forall. intros t Hin%list_elem_of_In.
    apply (proj1 (forallb_forall _ _) Hb) in Hin.
    destruct (construct c t) as [f|]; [|done].
    exists f. split; [done|]. by apply bool_decide_eq_true in Hin. }
  rewrite Forall_forall in Hall. by apply Hall.
Qed.

Lemma repr_construct_witness :
  Forall2 (λ x l, x ∈ l) ["auth"; "pl"] (snd <$> feature_val_dict VFormClass)
  ∧ ∃ f, construct VFormClass ["auth"; "pl"] = Some f
         ∧ repr f = join_with "." (display VFormClass
                                    <$> repr_order VFormClass ["auth"; "pl"]).
Proof.
  assert (Forall2 (λ x l, x ∈ l) ["auth"; "pl"]
                  (snd <$> feature_val_dict VFormClass)) as Ht.
  { cbn. repeat constructor. }
  split; [exact Ht|]. apply (repr_construct VFormClass ["auth"; "pl"] Ht).
Defined.

Lemma string_app_cons (x : ascii) (a b : string) :
  String x a +:+ b = String x (a +:+ b).
Proof. reflexivity. Qed.

Lemma string_app_nil (b : string) : "" +:+ b = b.
Proof. reflexivity. Qed.

Lemma string_app_length (a b : string) :
  String.length (a +:+ b) = (String.length a + String.length b)%nat.
Proof.
  induction a as [|x a IH]; [done|].
  rewrite string_app_cons. cbn [String.length]. by rewrite IH.
Qed.

Lemma string_app_inv_tail (a b c : string) : a +:+ c = b +:+ c → a = b.
Proof.
  revert b. induction a as [|x a IH]; intros [|y b] Heq; [done|..].
  - apply (f_equal String.length) in Heq.
    rewrite !string_app_length in Heq. cbn [String.length] in Heq. lia.
  - apply (f_equal String.length) in Heq.
    rewrite !string_app_length in Heq. cbn [String.length] in Heq. lia.
  - rewrite !string_app_cons in Heq. injection Heq as -> Heq. f_equal.
    by apply IH.
Qed.

Lemma no_comma_app_sep (y r : string) : no_comma (y +:+ ", " +:+ r) = false.
Proof.
  induction y as [|a y IH]; [done|].
  rewrite string_app_cons. cbn [no_comma]. rewrite IH. apply andb_false_r.
Qed.

Lemma string_app_sep_inj (x y s t : string) :
  no_comma x = true → no_comma y = true →
  x +:+ ", " +:+ s = y +:+ ", " +:+ t → x = y ∧ s = t.
Proof.
  revert y. induction x as [|a x IH]; intros [|b y] Hx Hy Heq;
    rewrite ?string_app_cons, ?string_app_nil in Heq.
  - by injection Heq as ->.
  - injection Heq as <- _. done.
  - injection Heq as -> _. done.
  - injection Heq as -> Heq. cbn [no_comma] in Hx, Hy.
    apply andb_true_iff in Hx as [_ Hx]. apply andb_true_iff in Hy as [_ Hy].
    destruct (IH y Hx Hy Heq) as [-> ->]. done.
Qed.

Lemma join_with_cons2 sep (x y : string) (l : list string) :
  join_with sep (x :: y :: l) = x +:+ sep +:+ join_with sep (y :: l).
Proof. reflexivity. Qed.

Lemma join_with_inj (l k : list string) :
  Forall (λ x, no_comma x = true ∧ x ≠ "") l →
  Forall (λ x, no_comma x = true ∧ x ≠ "") k →
  join_with ", " l = join_with ", " k → l = k.
Proof.
  intros Hl. revert k.
  induction Hl as [|x l [Hx Hxe] Hl IH]; intros k Hk Heq.
  - destruct Hk as [|y k [Hy Hye] Hk]; [done|]. exfalso.
    destruct k; [by cbn in Heq|].
    rewrite join_with_cons2 in Heq. destruct y; [done|].
    by rewrite string_app_cons in Heq.
  - destruct Hk as [|y k [Hy Hye] Hk].
    { exfalso. destruct l; [by cbn in Heq|].
      rewrite join_with_cons2 in Heq. destruct x; [done|].
      by rewrite string_app_cons in Heq. }
    destruct l as [|x' l], k as [|y' k].
    + cbn in Heq. by subst.
    + exfalso. rewrite join_with_cons2 in Heq. cbn [join_with] in Heq.
      rewrite Heq in Hx. by rewrite no_comma_app_sep in Hx.
    + exfalso. rewrite join_with_cons2 in Heq. cbn [join_with] in Heq.
      rewrite <- Heq in Hy. by rewrite no_comma_app_sep in Hy.
    + rewrite !join_with_cons2 in Heq.
      destruct (string_app_sep_inj _ _ _ _ Hx Hy Heq) as [-> Hrest].
      f_equal. by apply IH.
Qed.

Lemma universe_reprs (c : FormClass) :
  Forall (λ f, no_comma (repr f) = true ∧ repr f ≠ "") (universe c)
  ∧ ∀ f g, f ∈ universe c → g ∈ universe c → repr f = repr g → f = g.
Proof.
  split.
  - destruct c; apply (bool_decide_unpack _); by vm_compute.
  - assert (forallb (λ f, forallb (λ g,
                implb (bool_decide (repr f = repr g)) (bool_decide (f = g)))
              (universe c)) (universe c) = true) as Hb
      by (destruct c; by vm_compute).
    intros f g Hf%list_elem_of_In Hg%list_elem_of_In Heq.
    apply (proj1 (forallb_forall _ _) Hb) in Hf.
    apply (proj1 (forallb_forall _ _) Hf) in Hg.
    rewrite (bool_decide_eq_true_2 _ Heq) in Hg.
    by apply bool_decide_eq_true in Hg.
Qed.

Lemma str_list_inj_universe (c : FormClass) (l k : list MorphForm) :
  Forall (λ f, f ∈ universe c) l → Forall (λ f, f ∈ universe c) k →
  str_list l = str_list k → l = k.
Proof.
  intros Hl Hk Heq. unfold str_list in Heq.
  rewrite !(string_app_cons "[" "") in Heq. rewrite !string_app_nil in Heq.
  injection Heq as Heq. apply string_app_inv_tail in Heq.
  destruct (universe_reprs c) as [Hfree Hinj]. rewrite Forall_forall in Hfree.
  apply join_with_inj in Heq.
  - revert k Hk Heq. induction Hl as [|f l Hf Hl IH]; intros k Hk Heq.
    + by destruct k.
    + destruct Hk as [|g k Hg Hk]; [done|]. cbn in Heq.
      injection Heq as Hfg Heq. f_equal; [by apply Hinj|by apply IH].
  - apply Forall_fmap. eapply Forall_impl; [exact Hl|]. intros f Hf.
    by apply Hfree.
  - apply Forall_fmap. eapply Forall_impl; [exact Hk|]. intros f Hf.
    by apply Hfree.
Qed.

Lemma Forall_construct_universe (c : FormClass) (l : list MorphForm) :
  Forall (λ f, ∃ argv, construct c argv = Some f) l →
  Forall (λ f, f ∈ universe c) l.
Proof.
  intros Hl. eapply Forall_impl; [exact Hl|]. intros f [argv Hf].
  by eapply construct_universe.
Qed.

(** X19.  Two lists of forms of one class, each form built by the
    constructor, print to the same string only if they are the same
    list: the string by which [getWinnerPartition] groups stands for
    the list of winners itself. *)
Theorem str_list_inj (c : FormClass) (l k : list MorphForm) :
  Forall (λ f, ∃ argv, construct c argv = Some f) l →
  Forall (λ f, ∃ argv, construct c argv = Some f) k →
  str_list l = str_list k → l = k.
Proof.
  intros Hl Hk.
  apply (str_list_inj_universe c); by apply Forall_construct_universe.
Qed.

Lemma str_list_inj_witness :
  Forall (λ f, ∃ argv, construct NFormClass argv = Some f) [n_sg; n_zero]
  ∧ str_list [n_sg; n_zero] = str_list [n_sg; n_zero]
  ∧ [n_sg; n_zero] = [n_sg; n_zero].
Proof.
  assert (Forall (λ f, ∃ argv, construct NFormClass argv = Some f)
                 [n_sg; n_zero]) as Hl.
  { constructor; [by exists ["sg"]; vm_compute|].
    constructor; [by exists []; vm_compute|constructor]. }
  split; [exact Hl|]. split; [reflexivity|].
  apply (str_list_inj NFormClass [n_sg; n_zero] [n_sg; n_zero] Hl Hl).
  reflexivity.
Defined.

(** ** Which underlying forms share a cell *)

Lemma dict_append_keys {K V} `{EqDecision K} (d : list (K * list V)) k v :
  (dict_append d k v).*1 = if decide (k ∈ d.*1) then d.*1 else d.*1 ++ [k].
Proof.
  induction d as [|[k' vs] d IH]; [done|].
  cbn [dict_append]. destruct (decide (k' = k)) as [->|Hne].
  - cbn [fmap list_fmap fst]. rewrite decide_True; [done|by left].
  - cbn [fmap list_fmap fst] in *. rewrite IH.
    destruct (decide (k ∈ d.*1)) as [Hin|Hnin].
    + rewrite decide_True; [done|by right].
    + rewrite decide_False; [done|].
      intros [?|?]%elem_of_cons; [congruence|done].
Qed.

Lemma dict_append_keys_NoDup {K V} `{EqDecision K} (d : list (K * list V)) k v :
  NoDup d.*1 → NoDup (dict_append d k v).*1.
Proof.
  intros Hnd. rewrite dict_append_keys. case_decide; [done|].
  apply NoDup_app. repeat split; [done| |apply NoDup_singleton].
  intros x Hx Hxk%list_elem_of_singleton. by subst.
Qed.

Lemma dict_append_filed {K V} `{EqDecision K} (d : list (K * list V)) k v k' v' :
  filed (dict_append d k v) k' v' ↔ filed d k' v' ∨ (k' = k ∧ v' = v).
Proof.
  unfold filed. induction d as [|[k0 vs] d IH].
  - cbn [dict_append]. split.
    + intros (cell & [= -> ->]%list_elem_of_singleton
                   & ->%list_elem_of_singleton). by right.
    + intros [(cell & []%elem_of_nil & _)|[-> ->]].
      exists [v]. split; by apply list_elem_of_singleton.
  - cbn [dict_append]. destruct (decide (k0 = k)) as [->|Hne].
    + split.
      * intros (cell & [[= -> ->]|Hin]%elem_of_cons & Hv).
        -- apply elem_of_app in Hv as [Hv|Hv].
           ++ left. exists vs. split; [by left|done].
           ++ apply list_elem_of_singleton in Hv as ->. by right.
        -- left. exists cell. split; [by right|done].
      * intros [(cell & [[= -> ->]|Hin]%elem_of_cons & Hv)|[-> ->]].
        -- exists (vs ++ [v]). split; [by left|].
           apply elem_of_app. by left.
        -- exists cell. split; [by right|done].
        -- exists (vs ++ [v]). split; [by left|].
           apply elem_of_app. right. by apply list_elem_of_singleton.
    + split.
      * intros (cell & [[= -> ->]|Hin]%elem_of_cons & Hv).
        -- left. exists vs. split; [by left|done].
        -- destruct (proj1 IH) as [(cell' & ? & ?)|?]; [by exists cell| |by right].
           left. exists cell'. split; [by right|done].
      * intros [(cell & [[= -> ->]|Hin]%elem_of_cons & Hv)|Heq].
        -- exists vs. split; [by left|done].
        -- destruct (proj2 IH) as (cell' & ? & ?);
             [left; by exists cell|].
           exists cell'. split; [by right|done].
        -- destruct (proj2 IH) as (cell' & ? & ?); [by right|].
           exists cell'. split; [by right|done].
Qed.

Lemma group_items_from_filed (items : list (MorphForm * string)) : ∀ res,
  NoDup res.*1 →
  let res' := foldl (λ res kv, dict_append res kv.2 kv.1) res items in
  NoDup res'.*1
  ∧ ∀ s f, filed res' s f ↔ filed res s f ∨ (f, s) ∈ items.
Proof.
  induction items as [|[f0 s0] items IH]; intros res Hnd; cbn zeta.
  - split; [done|]. intros s f. rewrite elem_of_nil. cbn. tauto.
  - cbn [foldl fst snd].
    destruct (IH (dict_append res s0 f0)) as [Hnd' Hfiled].
    { by apply dict_append_keys_NoDup. }
    split; [done|]. intros s f.
    rewrite Hfiled, dict_append_filed, elem_of_cons.
    split; [intros [[?|[-> ->]]|?]|intros [?|[[= -> ->]|?]]]; tauto.
Qed.

Lemma NoDup_keys_functional {K V} (d : list (K * V)) k v1 v2 :
  NoDup d.*1 → (k, v1) ∈ d → (k, v2) ∈ d → v1 = v2.
Proof.
  induction d as [|[k0 v0] d IH]; [by intros _ []%elem_of_nil|].
  cbn [fmap list_fmap fst]. intros [Hnin Hnd]%NoDup_cons.
  intros [[= -> ->]|H1]%elem_of_cons [[= ?]|H2]%elem_of_cons.
  - done.
  - destruct Hnin. apply list_elem_of_fmap. by exists (k0, v2).
  - subst. destruct Hnin. apply list_elem_of_fmap. by exists (k0, v1).
  - by apply IH.
Qed.

Lemma group_items_same_cell (items : list (MorphForm * string)) f1 f2 :
  (∃ cell, cell ∈ (group_items items).*2 ∧ f1 ∈ cell ∧ f2 ∈ cell)
  ↔ ∃ s, (f1, s) ∈ items ∧ (f2, s) ∈ items.
Proof.
  destruct (group_items_from_filed items []) as [Hnd Hfiled]; [constructor|].
  cbn zeta in Hnd, Hfiled. fold (group_items items) in Hnd, Hfiled.
  assert (∀ s f, filed (group_items items) s f ↔ (f, s) ∈ items) as Hf.
  { intros s f. rewrite Hfiled. split; [|by right].
    intros [(cell & []%elem_of_nil & _)|?]. done. }
  split.
  - intros (cell & ([s cell'] & -> & Hin)%list_elem_of_fmap & H1 & H2).
    exists s. split; apply Hf; by exists cell'.
  - intros (s & (cell1 & Hc1 & H1)%Hf & (cell2 & Hc2 & H2)%Hf).
    assert (cell1 = cell2) as ->.
    { by apply (NoDup_keys_functional (group_items items) s). }
    exists cell2. split; [|done].
    apply list_elem_of_fmap. by exists (s, cell2).
Qed.

Lemma elem_of_dict_set {K V} `{EqDecision K} (d : list (K * V)) k v k' v' :
  (k', v') ∈ dict_set d k v → (k' = k ∧ v' = v) ∨ (k', v') ∈ d.
Proof.
  induction d as [|[k0 v0] d IH]; cbn [dict_set].
  - intros [= -> ->]%list_elem_of_singleton. by left.
  - destruct (decide (k0 = k)) as [->|Hne].
    + intros [[= -> ->]|Hin]%elem_of_cons; [by left|]. right. by right.
    + intros [[= -> ->]|Hin]%elem_of_cons; [right; by left|].
      destruct (IH Hin) as [?|?]; [by left|]. right. by right.
Qed.

Lemma winners_loop_values rank sr_forms ur_forms : ∀ winners winners',
  (∀ f w, (f, w) ∈ winners → otEval rank f sr_forms = Some w) →
  winners_loop rank sr_forms ur_forms winners = Some winners' →
  ∀ f w, (f, w) ∈ winners' → otEval rank f sr_forms = Some w.
Proof.
  induction ur_forms as [|ur ur_forms IH]; intros winners winners' Hinv Hloop.
  - by injection Hloop as <-.
  - cbn [winners_loop] in Hloop.
    destruct (otEval rank ur sr_forms) as [w0|] eqn:Hw0; [|done].
    cbn [mbind option_bind] in Hloop.
    apply (IH (dict_set winners ur w0)); [|done].
    intros f w [[-> ->]|Hin]%elem_of_dict_set; [done|]. by apply Hinv.
Qed.


Lemma winners_loop_keys_of rank sr_forms ur_forms : ∀ winners winners',
  winners_loop rank sr_forms ur_forms winners = Some winners' →
  ∀ f, f ∈ winners.*1 ∨ f ∈ ur_forms → f ∈ winners'.*1.
Proof.
  induction ur_forms as [|ur ur_forms IH]; intros winners winners' Hloop f.
  - injection Hloop as <-. by intros [?|?%elem_of_nil].
  - cbn [winners_loop] in Hloop.
    destruct (otEval rank ur sr_forms) as [w0|]; [|done].
    cbn [mbind option_bind] in Hloop. intros Hf.
    apply (IH _ _ Hloop). rewrite dict_set_keys_elem.
    rewrite elem_of_cons in Hf. tauto.
Qed.

Section getWinnerPartition_cells_by_winners.
Context `{PySorted}.

(** X20.  [getWinnerPartition] puts two underlying forms of its input in
    the same cell exactly when the lists of their winners under
    [otEval] print to the same string; when the winners are forms that
    the constructor of one class builds, that is exactly when the two
    lists of winners are equal. *)
Theorem getWinnerPartition_same_cell c rank ur_forms sr_forms part
    ur1 ur2 w1 w2 :
  getWinnerPartition rank ur_forms sr_forms = Some part →
  ur1 ∈ ur_forms → ur2 ∈ ur_forms →
  otEval rank ur1 sr_forms = Some w1 →
  otEval rank ur2 sr_forms = Some w2 →
  ((∃ cell, cell ∈ part ∧ ur1 ∈ cell ∧ ur2 ∈ cell)
   ↔ str_list w1 = str_list w2)
  ∧ (Forall (λ f, ∃ argv, construct c argv = Some f) w1 →
     Forall (λ f, ∃ argv, construct c argv = Some f) w2 →
     ((∃ cell, cell ∈ part ∧ ur1 ∈ cell ∧ ur2 ∈ cell) ↔ w1 = w2)).
Proof.
  intros Hpart Hur1 Hur2 Hw1 Hw2. unfold getWinnerPartition in Hpart.
  destruct (winners_loop rank sr_forms ur_forms []) as [winners|] eqn:Hloop;
    [|done].
  cbn [mbind option_bind] in Hpart. injection Hpart as <-.
  pose proof (winners_loop_values rank sr_forms ur_forms [] winners) as Hval.
  specialize (Hval ltac:(by intros ? ? ?%elem_of_nil) Hloop).
  pose proof (winners_loop_keys_of rank sr_forms ur_forms [] winners Hloop)
    as Hkeys.
  assert (∀ ur w s, ur ∈ ur_forms → otEval rank ur sr_forms = Some w →
            ((ur, s) ∈ sorted_items ((λ kv, (kv.1, str_list kv.2)) <$> winners)
             ↔ s = str_list w)) as Hitem.
  { intros ur w s Hur Hw. rewrite sorted_items_perm, list_elem_of_fmap. split.
    - intros ([ur' w'] & [= -> ->] & Hin). apply Hval in Hin. congruence.
    - intros ->. pose proof (Hkeys ur (or_intror Hur)) as Hin.
      apply list_elem_of_fmap in Hin as ([ur' w'] & -> & Hin).
      exists (ur', w'). split; [|done]. apply Hval in Hin. cbn in *.
      congruence. }
  assert ((∃ cell, cell ∈ (group_items (sorted_items
              ((λ kv, (kv.1, str_list kv.2)) <$> winners))).*2
                   ∧ ur1 ∈ cell ∧ ur2 ∈ cell)
          ↔ str_list w1 = str_list w2) as Hiff.
  { rewrite group_items_same_cell. split.
    - intros (s & H1 & H2).
      apply (Hitem ur1 w1 s Hur1 Hw1) in H1.
      apply (Hitem ur2 w2 s Hur2 Hw2) in H2. congruence.
    - intros Heq. exists (str_list w1). split.
      + by apply (Hitem ur1 w1).
      + by apply (Hitem ur2 w2). }
  split; [exact Hiff|]. intros Hc1 Hc2. rewrite Hiff. split.
  - apply (str_list_inj_universe c); by apply Forall_construct_universe.
  - by intros ->.
Qed.

End getWinnerPartition_cells_by_winners.

Lemma getWinnerPartition_same_cell_witness :
  let rank := [nform.MaxCase; nform.DepCase] in
  let ur_forms := [n_zero; n_nom; n_acc; n_dat] in
  let sr_forms := [n_nom; n_dat] in
  let part := [[n_zero; n_nom]; [n_acc; n_dat]] in
  @getWinnerPartition merge_sorted rank ur_forms sr_forms = Some part
  ∧ n_nom ∈ ur_forms ∧ n_acc ∈ ur_forms
  ∧ otEval rank n_nom sr_forms = Some [n_nom]
  ∧ otEval rank n_acc sr_forms = Some [n_dat]
  ∧ ((∃ cell, cell ∈ part ∧ n_nom ∈ cell ∧ n_acc ∈ cell)
     ↔ str_list [n_nom] = str_list [n_dat])
  ∧ (Forall (λ f, ∃ argv, construct NFormClass argv = Some f) [n_nom] →
     Forall (λ f, ∃ argv, construct NFormClass argv = Some f) [n_dat] →
     ((∃ cell, cell ∈ part ∧ n_nom ∈ cell ∧ n_acc ∈ cell)
      ↔ [n_nom] = [n_dat])).
Proof.
  intros rank ur_forms sr_forms part.
  assert (@getWinnerPartition merge_sorted rank ur_forms sr_forms = Some part)
    as Hpart by (apply (bool_decide_unpack _); by vm_compute).
  assert (n_nom ∈ ur_forms) as H1 by (apply (bool_decide_unpack _); by vm_compute).
  assert (n_acc ∈ ur_forms) as H2 by (apply (bool_decide_unpack _); by vm_compute).
  assert (otEval rank n_nom sr_forms = Some [n_nom]) as Hw1
    by (apply (bool_decide_unpack _); by vm_compute).
  assert (otEval rank n_acc sr_forms = Some [n_dat]) as Hw2
    by (apply (bool_decide_unpack _); by vm_compute).
  split; [exact Hpart|]. split; [exact H1|]. split; [exact H2|].
  split; [exact Hw1|]. split; [exact Hw2|].
  apply (@getWinnerPartition_same_cell merge_sorted NFormClass rank ur_forms
           sr_forms part n_nom n_acc [n_nom] [n_dat] Hpart H1 H2 Hw1 Hw2).
Defined.

(** ** The paths of [getPaths] and the test of [isBadCell] *)

Lemma nonImmediateContains_containsb (a b : MorphForm) :
  nonImmediateContains a b = true → containsb a b = true.
Proof. unfold nonImmediateContains. by destruct (containsb a b). Qed.

Lemma nonImmediateContains_not_immediate (a b : MorphForm) :
  type_of a = type_of b → nonImmediateContains a b = true →
  containsb b a = false ∧ containment b a = true
  ∧ containment a b = true
  ∧ immediateContainment b a = false ∧ immediateContainment a b = false.
Proof.
  intros Hty Hnon. pose proof (nonImmediateContains_containsb a b Hnon) as Hc.
  pose proof (containsb_asym a b Hty Hc) as Hasym.
  unfold containment, immediateContainment, immediateContains.
  by rewrite Hc, Hasym, Hnon.
Qed.

Lemma chain_from_steps top domain bottom q :
  chain_from top domain bottom q → ∀ p, q = bottom :: p →
  Forall (λ e, e ∈ domain ∧ containsb top e = true) p
  ∧ ∀ i a b, (bottom :: p) !! i = Some a → p !! i = Some b →
             immediateContains b a = true.
Proof.
  induction 1 as [|q lst e Hq IH Hlst He Himm Htop]; intros p Hp.
  - injection Hp as <-. split; [constructor|]. by intros i a b _ ?.
  - destruct (chain_from_head _ _ _ _ Hq) as [p' ->].
    injection Hp as <-. destruct (IH p' eq_refl) as [Hall Hsteps].
    split; [apply Forall_app; split; [done|by apply Forall_singleton]|].
    intros i a b Ha Hb.
    destruct (decide (i < length p')%nat) as [Hlt|Hge].
    + rewrite lookup_app_l in Hb by done.
      change (bottom :: p' ++ [e]) with ((bottom :: p') ++ [e]) in Ha.
      rewrite lookup_app_l in Ha by (simpl; lia).
      by apply (Hsteps i).
    + apply lookup_lt_Some in Hb as Hi. rewrite length_app in Hi. simpl in Hi.
      assert (i = length p') as -> by lia.
      rewrite list_lookup_middle in Hb by done. injection Hb as <-.
      change (bottom :: p' ++ [e]) with ((bottom :: p') ++ [e]) in Ha.
      rewrite lookup_app_l in Ha by (simpl; lia).
      rewrite last_lookup in Hlst. simpl in Hlst. congruence.
Qed.

Section getPaths_results.
Context `{PySetOrder}.

Lemma getPaths_loop_grows top bottom domain fuel : ∀ n paths result,
  Forall (chain_from top domain bottom) paths →
  Forall (λ p, length p = n) paths →
  getPaths_loop fuel top domain paths = Some result →
  result = paths
  ∨ (result ≠ [] ∧ ∃ m, (n < m)%nat ∧ Forall (λ p, length p = m) result).
Proof.
  induction fuel as [|fuel IH]; intros n paths result Hch Hlen Hr; [done|].
  destruct (extend_paths_chains top bottom domain paths Hch)
    as (extended & Hext & Hch' & Hlen').
  cbn [getPaths_loop] in Hr. rewrite Hext in Hr.
  cbn [mbind option_bind] in Hr.
  destruct (bool_decide (extended = paths) || (length extended =? 0)%nat)
    eqn:Htest.
  - injection Hr as <-. by left.
  - apply orb_false_iff in Htest as [_ Hne%Nat.eqb_neq].
    right. destruct (IH (S n) extended result Hch' (Hlen' n Hlen) Hr)
      as [->|(Hne' & m & Hm & Hall)].
    + split; [by destruct extended|]. exists (S n). split; [lia|auto].
    + split; [done|]. exists m. split; [lia|done].
Qed.

Lemma getPaths_result_paths fuel form1 form2 pool result :
  containment form1 form2 = true →
  immediateContainment form1 form2 = false →
  getPaths fuel form1 form2 pool = Some result →
  ∀ item, item ∈ result →
    ∃ p, item = ItemPath p ∧ p ≠ []
      ∧ chain_from (if containsb form2 form1 then form2 else form1)
          (list_of_set (filter (λ f, isBetween f form1 form2) pool
                        ++ [form1; form2]))
          (if containsb form1 form2 then form2 else form1)
          ((if containsb form1 form2 then form2 else form1) :: p).
Proof.
  intros Hc Himm. rewrite getPaths_not_immediate by done. cbv zeta.
  set (domain := list_of_set _).
  set (bottom := if containsb form1 form2 then form2 else form1).
  set (top := if containsb form2 form1 then form2 else form1).
  destruct (getPaths_loop fuel top domain [[bottom]]) as [paths|] eqn:Hloop;
    [|done].
  cbn [mbind option_bind]. intros Hr item Hitem.
  pose proof Hloop as Hch.
  apply (getPaths_loop_chains top bottom) in Hch;
    [|apply Forall_singleton; constructor].
  apply (getPaths_loop_grows top bottom domain fuel 1) in Hloop;
    [|apply Forall_singleton; constructor|by apply Forall_singleton].
  destruct (bool_decide (paths = [[bottom]])) eqn:Hstart; injection Hr as <-.
  { by apply elem_of_nil in Hitem. }
  apply bool_decide_eq_false in Hstart.
  destruct Hloop as [->|(_ & m & Hm & Hlen)]; [done|].
  apply list_elem_of_fmap in Hitem as (p & -> & Hp).
  rewrite Forall_forall in Hch, Hlen.
  specialize (Hch p Hp). specialize (Hlen p Hp).
  exists (tail p). split; [done|].
  destruct (chain_from_head _ _ _ _ Hch) as [q ->]. cbn [tail].
  split; [|done]. destruct q; [simpl in Hlen; lia|done].
Qed.

Lemma getPaths_domain_class c form1 form2 pool :
  type_of form1 = c → type_of form2 = c →
  Forall (λ f, type_of f = c) pool →
  Forall (λ f, type_of f = c)
    (list_of_set (filter (λ f, isBetween f form1 form2) pool
                  ++ [form1; form2])).
Proof.
  intros H1 H2 Hpool. apply Forall_forall. intros f Hf.
  apply elem_of_getPaths_domain in Hf as [[Hf _]|[->| ->]]; [|done|done].
  rewrite Forall_forall in Hpool. by apply Hpool.
Qed.

Lemma getPaths_result_between c fuel bottom top form1 form2 pool result :
  type_of bottom = c → type_of top = c →
  Forall (λ f, type_of f = c) pool →
  nonImmediateContains top bottom = true →
  (form1 = bottom ∧ form2 = top) ∨ (form1 = top ∧ form2 = bottom) →
  getPaths fuel form1 form2 pool = Some result →
  ∀ item, item ∈ result →
    ∃ p, item = ItemPath p ∧ p ≠ []
      ∧ Forall (λ e, e ∈ pool ∧ containsb e bottom = true
                     ∧ containsb top e = true) p
      ∧ (∀ i a b, (bottom :: p) !! i = Some a → p !! i = Some b →
                  immediateContains b a = true)
      ∧ top ∉ p.
Proof.
  intros Hb Ht Hpool Hnon Hargs Hr item Hitem.
  destruct (nonImmediateContains_not_immediate top bottom)
    as (Hasym & Hc1 & Hc2 & Hi1 & Hi2); [congruence|done|].
  pose proof (nonImmediateContains_containsb _ _ Hnon) as Hc.
  assert (∃ p, item = ItemPath p ∧ p ≠ []
            ∧ chain_from top
                (list_of_set (filter (λ f, isBetween f form1 form2) pool
                              ++ [form1; form2])) bottom (bottom :: p))
    as (p & -> & Hne & Hch).
  { destruct Hargs as [[-> ->]|[-> ->]].
    - destruct (getPaths_result_paths fuel bottom top pool result Hc1 Hi1 Hr
                  item Hitem) as (p & -> & Hne & Hch).
      rewrite Hc, Hasym in Hch. by exists p.
    - destruct (getPaths_result_paths fuel top bottom pool result Hc2 Hi2 Hr
                  item Hitem) as (p & -> & Hne & Hch).
      rewrite Hc, Hasym in Hch. by exists p. }
  assert (Forall (λ f, type_of f = c)
            (list_of_set (filter (λ f, isBetween f form1 form2) pool
                          ++ [form1; form2]))) as Hdom.
  { apply getPaths_domain_class; [| |done]; by destruct Hargs as [[-> ->]|[-> ->]]. }
  destruct (chain_from_steps _ _ _ _ Hch p eq_refl) as [Hall Hsteps].
  pose proof (chain_from_NoDup c top bottom _ Hb Hdom _ Hch) as Hnd.
  apply NoDup_cons in Hnd as [Hnotin _].
  exists p. split; [done|]. split; [done|].
  assert (Forall (λ e, e ∈ pool ∧ containsb top e = true) p) as Hall'.
  { apply Forall_forall. intros e He. rewrite Forall_forall in Hall.
    destruct (Hall e He) as [Hed Hte]. split; [|done].
    apply elem_of_getPaths_domain in Hed as [[Hed _]|Hed]; [done|].
    assert (e = bottom ∨ e = top) as [->| ->]
      by (destruct Hargs as [[-> ->]|[-> ->]]; tauto).
    - done.
    - by rewrite containsb_irrefl in Hte. }
  split; [|split; [done|]].
  - apply Forall_forall. intros e He. rewrite Forall_forall in Hall'.
    destruct (Hall' e He) as [Hep Hte]. split; [done|]. split; [|done].
    apply list_elem_of_lookup in He as [i Hi].
    revert e Hi Hep Hte. induction i as [|i IH]; intros e Hi _ _.
    + apply immediateContains_containsb, (Hsteps 0%nat); [done|done].
    + destruct (lookup_lt_is_Some_2 p i) as [a Ha].
      { apply lookup_lt_Some in Hi. lia. }
      assert (a ∈ p) as Hain by (by eapply list_elem_of_lookup_2).
      destruct (Hall' a Hain) as [Hap Hta].
      pose proof (IH a Ha Hap Hta) as Hab.
      pose proof (Hsteps (S i) a e Ha Hi) as Hea.
      apply immediateContains_containsb in Hea.
      rewrite Forall_forall in Hpool.
      apply (containsb_trans e a bottom); [| |done|done].
      * rewrite (Hpool a Hap). apply Hpool.
        apply (Hall' e). by eapply list_elem_of_lookup_2.
      * rewrite (Hpool a Hap). done.
  - intros Htop. rewrite Forall_forall in Hall'.
    destruct (Hall' top Htop) as [_ Hirr].
    by rewrite containsb_irrefl in Hirr.
Qed.

(** X21.  The paths of [getPaths].  For two forms of one class of which
    [top] contains [bottom], but not immediately, given in either order
    with a pool of forms of that class: every item that [getPaths]
    returns is a non-empty path of members of the pool that lie
    strictly between the two forms; the first member immediately
    contains [bottom], and every later member immediately contains the
    one before it.  [top] itself is never a member of a path. *)
Theorem getPaths_paths c fuel bottom top form1 form2 pool result :
  type_of bottom = c → type_of top = c →
  Forall (λ f, type_of f = c) pool →
  nonImmediateContains top bottom = true →
  (form1 = bottom ∧ form2 = top) ∨ (form1 = top ∧ form2 = bottom) →
  getPaths fuel form1 form2 pool = Some result →
  ∀ item, item ∈ result →
    ∃ p, item = ItemPath p ∧ p ≠ []
      ∧ Forall (λ e, e ∈ pool ∧ containsb e bottom = true
                     ∧ containsb top e = true) p
      ∧ (∀ i a b, (bottom :: p) !! i = Some a → p !! i = Some b →
                  immediateContains b a = true)
      ∧ top ∉ p.
Proof. apply getPaths_result_between. Qed.

(** X22.  On forms of one class the loop of [getPaths] ends: with fuel for
    three rounds more than the pool has members, [getPaths] returns,
    and more fuel does not change what it returns. *)
Theorem getPaths_terminates c form1 form2 pool :
  type_of form1 = c → type_of form2 = c →
  Forall (λ f, type_of f = c) pool →
  ∃ result, ∀ fuel, (length pool + 3 ≤ fuel)%nat →
                    getPaths fuel form1 form2 pool = Some result.
Proof.
  intros H1 H2 Hpool.
  destruct (getPaths_returns c (length pool + 3) form1 form2 pool)
    as [result Hr]; [done|done|done|done|].
  exists result. intros fuel Hfuel.
  by apply (getPaths_more_fuel (length pool + 3)).
Qed.

(** [getPaths] returns the empty list for a pair in non-immediate
    containment exactly when no first step exists. *)
Lemma getPaths_empty_iff c fuel bottom top pool items :
  type_of bottom = c → type_of top = c →
  Forall (λ f, type_of f = c) pool →
  nonImmediateContains top bottom = true →
  getPaths fuel bottom top pool = Some items →
  items = [] ↔ ∀ e, e ∈ pool → immediateContains e bottom = true →
                    containsb top e = false.
Proof.
  intros Hb Ht Hpool Hnon Hr. split.
  - intros -> e He Himm. destruct (containsb top e) eqn:Hte; [|done].
    exfalso.
    destruct (nonImmediateContains_not_immediate top bottom)
      as (Hasym & Hc1 & _ & Hi1 & _); [congruence|done|].
    pose proof (nonImmediateContains_containsb _ _ Hnon) as Hc.
    rewrite getPaths_not_immediate in Hr by done. cbv zeta in Hr.
    rewrite Hc, Hasym in Hr.
    set (domain := list_of_set _) in Hr.
    destruct (getPaths_loop fuel top domain [[bottom]]) as [paths|] eqn:Hloop;
      [|done].
    cbn [mbind option_bind] in Hr.
    destruct fuel as [|fuel]; [done|]. cbn [getPaths_loop] in Hloop.
    rewrite (extend_paths_single top domain [bottom] bottom _ eq_refl Hc eq_refl)
      in Hloop.
    cbn [mbind option_bind] in Hloop.
    remember (filter (λ f, immediateContains f bottom && containsb top f)
                     domain) as exts eqn:Hexts.
    assert (e ∈ exts) as Hin.
    { rewrite Hexts. apply list_elem_of_filter. split.
      - apply Is_true_true. by rewrite Himm, Hte.
      - apply elem_of_getPaths_domain. left. split; [done|].
        unfold isBetween.
        by rewrite (immediateContains_containsb _ _ Himm), Hte. }
    destruct exts as [|e0 exts]; [by apply elem_of_nil in Hin|].
    cbn [fmap list_fmap] in Hloop.
    rewrite bool_decide_eq_false_2 in Hloop by discriminate.
    cbn [orb length Nat.eqb] in Hloop.
    apply (getPaths_loop_grows top bottom domain fuel 2) in Hloop.
    + destruct (bool_decide (paths = [[bottom]])) eqn:Hstart.
      * apply bool_decide_eq_true in Hstart. subst paths.
        destruct Hloop as [?|(_ & m & Hm & Hlen)]; [done|].
        rewrite Forall_singleton in Hlen. simpl in Hlen. lia.
      * destruct Hloop as [->|(Hne & _)]; [done|]. by destruct paths.
    + pose proof (extend_paths_chains top bottom domain [[bottom]]) as Hex.
      destruct Hex as (extended & Hext & Hch & _).
      { apply Forall_singleton. constructor. }
      rewrite (extend_paths_single top domain [bottom] bottom _ eq_refl Hc
                 eq_refl) in Hext.
      rewrite <- Hexts in Hext. by injection Hext as <-.
    + constructor; [done|]. apply Forall_fmap, Forall_forall. by intros.
  - intros Hnone. destruct items as [|item items]; [done|]. exfalso.
    destruct (getPaths_result_between c fuel bottom top bottom top pool
                (item :: items) Hb Ht Hpool Hnon ltac:(by left) Hr item)
      as (p & _ & Hne & Hall & Hsteps & _); [by left|].
    destruct p as [|e p]; [done|].
    apply Forall_cons_1 in Hall as [(He & _ & Hte) _].
    rewrite (Hnone e He) in Hte; [done|].
    by apply (Hsteps 0%nat bottom e).
Qed.

Lemma elem_of_containment_pairs_iff cell f g :
  (f, g) ∈ containment_pairs cell
  ↔ f ∈ cell ∧ g ∈ cell ∧ nonImmediateContains g f = true.
Proof.
  unfold containment_pairs. rewrite list_elem_of_bind. split.
  - intros (f' & Hin & Hf). apply list_elem_of_bind in Hin as (g' & Hin & Hg).
    destruct (nonImmediateContains g' f') eqn:Hnon;
      [|by apply elem_of_nil in Hin].
    by apply list_elem_of_singleton in Hin as [= -> ->].
  - intros (Hf & Hg & Hnon). exists f. split; [|done].
    apply list_elem_of_bind. exists g. split; [|done].
    rewrite Hnon. by apply list_elem_of_singleton.
Qed.

Lemma isBadCell_loop_iff fuel cell pairs b :
  isBadCell_loop fuel cell pairs = Some b →
  b = true ↔ ∃ p, p ∈ pairs ∧ getPaths fuel p.1 p.2 cell = Some [].
Proof.
  revert b. induction pairs as [|p pairs IH]; intros b Hb.
  - injection Hb as <-. split; [done|]. by intros (p & ?%elem_of_nil & _).
  - cbn [isBadCell_loop] in Hb.
    destruct (getPaths fuel p.1 p.2 cell) as [paths|] eqn:Hp; [|done].
    cbn [mbind option_bind] in Hb. destruct paths as [|item paths].
    + injection Hb as <-. split; [|done]. intros _. exists p.
      split; [by left|done].
    + cbn [length Nat.eqb] in Hb. rewrite (IH b Hb). split.
      * intros (q & Hq & Hqp). exists q. split; [by right|done].
      * intros (q & [->|Hq]%elem_of_cons & Hqp); [congruence|].
        by exists q.
Qed.

(** X23.  What [isBadCell] tests.  On a cell of forms of one class
    [isBadCell] returns, and it returns [True] exactly when the cell has
    two members [f] and [g], [g] containing [f] but not immediately,
    such that no member of the cell immediately contains [f] and is
    contained in [g]: it asks for a first step up from [f] below [g],
    not for a path that reaches [g]. *)
Theorem isBadCell_first_step c fuel cell :
  Forall (λ f, type_of f = c) cell → (length cell + 3 ≤ fuel)%nat →
  ∃ b, isBadCell fuel cell = Some b
    ∧ (b = true ↔
       ∃ f g, f ∈ cell ∧ g ∈ cell ∧ nonImmediateContains g f = true
              ∧ ∀ e, e ∈ cell → immediateContains e f = true →
                     containsb g e = false).
Proof.
  intros Hcell Hfuel.
  destruct (isBadCell_returns c fuel cell Hcell Hfuel) as [b Hb].
  exists b. split; [done|]. unfold isBadCell in Hb.
  rewrite (isBadCell_loop_iff fuel cell _ b Hb).
  pose proof Hcell as Hcls. rewrite Forall_forall in Hcls. split.
  - intros ([f g] & (Hf & Hg & Hnon)%elem_of_containment_pairs_iff & Hp).
    exists f, g. split; [done|]. split; [done|]. split; [done|].
    by apply (getPaths_empty_iff c fuel f g cell []); auto.
  - intros (f & g & Hf & Hg & Hnon & Hnone). exists (f, g).
    split; [by apply elem_of_containment_pairs_iff|]. cbn [fst snd].
    destruct (getPaths_returns c fuel f g cell) as [items Hitems]; auto.
    rewrite Hitems. f_equal.
    by apply (getPaths_empty_iff c fuel f g cell items); auto.
Qed.

End getPaths_results.

Lemma getPaths_paths_witness :
  type_of n_zero = NFormClass ∧ type_of n_dat = NFormClass
  ∧ Forall (λ f, type_of f = NFormClass) [n_nom; n_acc]
  ∧ nonImmediateContains n_dat n_zero = true
  ∧ @getPaths first_seen_order 5 n_dat n_zero [n_nom; n_acc]
    = Some [ItemPath [n_nom; n_acc]]
  ∧ ∃ p, ItemPath [n_nom; n_acc] = ItemPath p ∧ p ≠ []
      ∧ Forall (λ e, e ∈ [n_nom; n_acc] ∧ containsb e n_zero = true
                     ∧ containsb n_dat e = true) p
      ∧ (∀ i a b, (n_zero :: p) !! i = Some a → p !! i = Some b →
                  immediateContains b a = true)
      ∧ n_dat ∉ p.
Proof.
  assert (Forall (λ f, type_of f = NFormClass) [n_nom; n_acc]) as Hpool
    by (by repeat constructor).
  assert (nonImmediateContains n_dat n_zero = true) as Hnon by (by vm_compute).
  assert (@getPaths first_seen_order 5 n_dat n_zero [n_nom; n_acc]
          = Some [ItemPath [n_nom; n_acc]]) as Hr
    by (apply (bool_decide_unpack _); by vm_compute).
  split; [done|]. split; [done|]. split; [exact Hpool|].
  split; [exact Hnon|]. split; [exact Hr|].
  apply (@getPaths_paths first_seen_order NFormClass 5 n_zero n_dat n_dat
           n_zero [n_nom; n_acc] [ItemPath [n_nom; n_acc]] eq_refl eq_refl
           Hpool Hnon (or_intror (conj eq_refl eq_refl)) Hr).
  by left.
Defined.

Lemma getPaths_terminates_witness :
  type_of n_zero = NFormClass ∧ type_of n_dat = NFormClass
  ∧ Forall (λ f, type_of f = NFormClass) [n_nom; n_acc]
  ∧ ∃ result, ∀ fuel, (length [n_nom; n_acc] + 3 ≤ fuel)%nat →
      @getPaths first_seen_order fuel n_zero n_dat [n_nom; n_acc]
      = Some result.
Proof.
  assert (Forall (λ f, type_of f = NFormClass) [n_nom; n_acc]) as Hpool
    by (by repeat constructor).
  split; [done|]. split; [done|]. split; [exact Hpool|].
  apply (@getPaths_terminates first_seen_order NFormClass n_zero n_dat
           [n_nom; n_acc] eq_refl eq_refl Hpool).
Defined.

Lemma isBadCell_first_step_witness :
  Forall (λ f, type_of f = NFormClass) [n_zero; n_acc]
  ∧ (length [n_zero; n_acc] + 3 ≤ 5)%nat
  ∧ ∃ b, @isBadCell first_seen_order 5 [n_zero; n_acc] = Some b
    ∧ (b = true ↔
       ∃ f g, f ∈ [n_zero; n_acc] ∧ g ∈ [n_zero; n_acc]
              ∧ nonImmediateContains g f = true
              ∧ ∀ e, e ∈ [n_zero; n_acc] → immediateContains e f = true →
                     containsb g e = false).
Proof.
  assert (Forall (λ f, type_of f = NFormClass) [n_zero; n_acc]) as Hcell
    by (by repeat constructor).
  assert (length [n_zero; n_acc] + 3 ≤ 5)%nat as Hfuel by (simpl; lia).
  split; [exact Hcell|]. split; [exact Hfuel|].
  apply (@isBadCell_first_step first_seen_order NFormClass 5 [n_zero; n_acc]
           Hcell Hfuel).
Defined.

(** ** The search on the constraints of the two classes *)

Lemma selects_class_filters c k : selects_class c k → filters_class c k.
Proof.
  intros Hk ur candidates Hur Hcands.
  destruct (Hk ur candidates Hur Hcands) as (winners & Hw & Hsub & _).
  exists winners. split; [done|]. by apply sublist_subseteq.
Qed.

Section search_of_class_constraints.
Context `{PySetOrder} `{PySorted}.

(** X24.  The search does not raise on the constraints of the two modules:
    for a target partition of [NForm]s and rankings made of the
    constraints of [nform.py], or a target partition of [VForm]s and
    rankings made of the constraints of [vform.py], it returns a list
    of entries, whatever values are excluded and whether or not it is
    told to stop at the first ranking. *)
Theorem findVocabularyRankingPairs_never_raises c ur_partition rankings
    list_values_to_exclude stop :
  (c = NFormClass ∧ Forall (λ rank, rank ⊆ nform_all_constraints) rankings)
  ∨ (c = VFormClass
     ∧ Forall (λ rank, rank ⊆ vform.vform_constraints) rankings) →
  Forall (Forall (λ f, type_of f = c)) ur_partition →
  is_Some (findVocabularyRankingPairs c ur_partition rankings
                                      list_values_to_exclude stop).
Proof.
  intros Hranks Hpart.
  destruct (findVocabularyRankingPairs_returns c ur_partition rankings
              list_values_to_exclude stop) as (sforms & _ & ->);
    [|done|by eexists].
  destruct Hranks as [[-> Hranks]|[-> Hranks]].
  - eapply Forall_impl; [exact Hranks|]. intros rank Hrank.
    apply Forall_forall. intros k Hk. apply selects_class_filters.
    pose proof nform_all_constraints_select as Hall.
    rewrite Forall_forall in Hall. by apply Hall, Hrank.
  - eapply Forall_impl; [exact Hranks|]. intros rank Hrank.
    apply Forall_forall. intros k Hk. apply selects_class_filters.
    pose proof vform_constraints_select as Hall.
    rewrite Forall_forall in Hall. by apply Hall, Hrank.
Qed.

End search_of_class_constraints.

Lemma findVocabularyRankingPairs_never_raises_witness :
  let rankings := [[nform.MaxCase; nform.DepCase];
                   [nform.DepCase; nform.MaxCase]] in
  let ur_partition := [[n_zero; n_nom]; [n_acc; n_dat]] in
  Forall (λ rank, rank ⊆ nform_all_constraints) rankings
  ∧ Forall (Forall (λ f, type_of f = NFormClass)) ur_partition
  ∧ is_Some (@findVocabularyRankingPairs first_seen_order merge_sorted
               NFormClass ur_partition rankings ["pl"; "fem"] false).
Proof.
  intros rankings ur_partition.
  assert (Forall (λ rank, rank ⊆ nform_all_constraints) rankings) as Hranks.
  { apply Forall_cons_2; [|apply Forall_cons_2; [|apply Forall_nil_2]];
      intros k Hk; unfold nform_all_constraints;
      rewrite !elem_of_cons in *; rewrite elem_of_nil in Hk; tauto. }
  assert (Forall (Forall (λ f, type_of f = NFormClass)) ur_partition)
    as Hpart by (by repeat constructor).
  split; [exact Hranks|]. split; [exact Hpart|].
  apply (@findVocabularyRankingPairs_never_raises first_seen_order
           merge_sorted NFormClass ur_partition rankings ["pl"; "fem"] false
           (or_introl (conj eq_refl Hranks)) Hpart).
Defined.
